(** * Crash-game dashboard: the statistics engine and the outcome generator

    A shallow embedding of [src/app/page.tsx].  JavaScript numbers are IEEE 754
    binary64 values, so they are modelled by Rocq's primitive [float]s, whose
    operations are specified by [SpecFloat] (round to nearest, ties to even).
    [Math.random()] and [Date.now()] are read from oracles threaded through a
    small state monad. *)

From Stdlib Require Import String.
From Stdlib Require Import ZArith List Bool Lia Floats.
From Stdlib Require Import Sorting.Permutation Sorting.Sorted.
Import ListNotations.

Set Warnings "-inexact-float,-abstract-large-number".
Local Open Scope float_scope.

(** ** JavaScript numbers *)

Module JS.

Definition number := float.

  (** [a >= b] and [a <= b]; both are false as soon as an operand is NaN. *)
Definition geb (a b : number) : bool := b <=? a.
Definition gtb (a b : number) : bool := b <? a.

  (** The digits of [x.toFixed(2)]: [FixedDigits neg n] stands for the string
      made of an optional minus sign and the decimal digits of [n] with a point
      before the last two; [n] is the integer for which [n / 100 - |x|] is closest
      to zero, the larger one on a tie.  Non-finite numbers and numbers from
      [1e21] on are printed by [Number::toString] instead. *)
Inductive fixed_string :=
  | FixedDigits (neg : bool) (n : Z)
  | FixedToString (x : number).

Definition round_half_up_100 (m : positive) (e : Z) : Z :=
    match e with
    | Zneg p => (200 * Zpos m + 2 ^ Zpos p) / 2 ^ (Zpos p + 1)
    | _ => 100 * Zpos m * 2 ^ e
    end.

Definition toFixed2 (x : number) : fixed_string :=
    match Prim2SF x with
    | S754_zero _ => FixedDigits false 0
    | S754_finite s m e =>
        if 1e21 <=? abs x then FixedToString x
        else FixedDigits s (round_half_up_100 m e)
    | _ => FixedToString x
    end.

  (** The digits of [x.toFixed(1)]: [Fixed1Digits neg n] stands for the decimal
      digits of [n] with a point before the last one; [n] is the integer for
      which [n / 10 - |x|] is closest to zero, the larger one on a tie. *)
Inductive fixed1_string :=
  | Fixed1Digits (neg : bool) (n : Z)
  | Fixed1ToString (x : number).

Definition round_half_up_10 (m : positive) (e : Z) : Z :=
    match e with
    | Zneg p => (20 * Zpos m + 2 ^ Zpos p) / 2 ^ (Zpos p + 1)
    | _ => 10 * Zpos m * 2 ^ e
    end.

Definition toFixed1 (x : number) : fixed1_string :=
    match Prim2SF x with
    | S754_zero _ => Fixed1Digits false 0
    | S754_finite s m e =>
        if 1e21 <=? abs x then Fixed1ToString x
        else Fixed1Digits s (round_half_up_10 m e)
    | _ => Fixed1ToString x
    end.

  (** [parseFloat] on the strings [toFixed] produces: the binary64 value nearest
      to [n / 100], which is what one correctly rounded division computes from
      the exact integers; [Number::toString] round-trips. *)
Definition parseFloat_fixed (s : fixed_string) : number :=
    match s with
    | FixedDigits neg (Zpos p) =>
        SF2Prim (SFdiv prec emax (S754_finite neg p 0) (S754_finite false 100 0))
    | FixedDigits neg _ => if neg then neg_zero else zero
    | FixedToString x => x
    end.

  (** [Math.pow(x, 2)]: engines return [x * x] for the exponent 2. *)
Definition Math_pow2 (x : number) : number := x * x.

Definition Math_sqrt (x : number) : number := sqrt x.

  (** [Math.max(...l)] and [Math.min(...l)]. *)
Definition max2 (a b : number) : number :=
    if is_nan a || is_nan b then nan
    else if a <? b then b else if b <? a then a
    else if get_sign a then b else a.

Definition min2 (a b : number) : number :=
    if is_nan a || is_nan b then nan
    else if a <? b then a else if b <? a then b
    else if get_sign a then a else b.

Definition Math_max (l : list number) : number := fold_left max2 l neg_infinity.
Definition Math_min (l : list number) : number := fold_left min2 l infinity.

  (** [Array.prototype.map(callbackFn)], whose callback receives the element and
      its index. *)
Fixpoint mapFrom {A B : Type} (callbackFn : A -> nat -> B) (index : nat) (l : list A)
  : list B :=
    match l with
    | [] => []
    | x :: l' => callbackFn x index :: mapFrom callbackFn (S index) l'
    end.

Definition Array_map {A B : Type} (callbackFn : A -> nat -> B) (l : list A) : list B :=
    mapFrom callbackFn 0 l.

  (** An array length as a number. *)
Definition of_length (n : nat) : number := of_uint63 (Uint63.of_Z (Z.of_nat n)).

  (** [Array.prototype.sort(compareFn)]: a stable comparison sort; [x] stays in
      front of [y] unless [compareFn(x, y) > 0] (a NaN result counts as 0). *)
Section Sort.
Variable compareFn : number -> number -> number.

Fixpoint insert (x : number) (l : list number) : list number :=
      match l with
      | [] => [x]
      | y :: l' => if 0 <? compareFn x y then y :: insert x l' else x :: l
      end.

Definition Array_sort (l : list number) : list number :=
      fold_right insert [] l.
End Sort.

End JS.

Definition roundTo2 (x : float) : float := JS.parseFloat_fixed (JS.toFixed2 x).

(** ** The environment: clock and random source *)

(** [clockAt k] is what the [k]-th reading of the clock returns (milliseconds),
    [randomAt k] what the [k]-th call of [Math.random()] returns. *)
Record World := {
  clockAt : nat -> Z;
  clockReads : nat;
  randomAt : nat -> float;
  randomDraws : nat
}.

Definition M (A : Type) : Type := World -> A * World.

Definition ret {A} (a : A) : M A := fun w => (a, w).

Definition bind {A B} (m : M A) (f : A -> M B) : M B :=
  fun w => let (a, w') := m w in f a w'.

Notation "x <- c1 ;; c2" := (bind c1 (fun x => c2))
  (at level 61, c1 at next level, right associativity).

Definition Date_now : M Z := fun w =>
  (clockAt w (clockReads w),
   {| clockAt := clockAt w; clockReads := S (clockReads w);
      randomAt := randomAt w; randomDraws := randomDraws w |}).

Definition Math_random : M float := fun w =>
  (randomAt w (randomDraws w),
   {| clockAt := clockAt w; clockReads := clockReads w;
      randomAt := randomAt w; randomDraws := S (randomDraws w) |}).

(** ** Data model *)

Record CrashPoint := {
  id : Z;
  multiplier : float;
  timestamp : Z
}.

Record Statistics := {
  averageMultiplier : float;
  medianMultiplier : float;
  maxMultiplier : float;
  minMultiplier : float;
  volatility : float;
  crashesBelow2x : nat;
  crashesAbove5x : nat;
  crashesAbove10x : nat
}.

(** The component state ([statistics] is recomputed from [crashHistory] by the
    effect, see [calculateStatistics]). *)
Record State := {
  crashHistory : list CrashPoint;
  inputMultiplier : string;
  isSimulating : bool
}.

Definition initialState : State :=
  {| crashHistory := []; inputMultiplier := EmptyString; isSimulating := false |}.

(** ** The outcome generator *)

Definition generateCrashMultiplier : M float :=
  random <- Math_random ;;
  if random <? 0.5 then
    u <- Math_random ;; ret (1.0 + u)
  else if random <? 0.8 then
    u <- Math_random ;; ret (2.0 + u * 3)
  else if random <? 0.95 then
    u <- Math_random ;; ret (5.0 + u * 5)
  else
    u <- Math_random ;; ret (10.0 + u * 40).

(** ** History updates *)

(** [setCrashHistory(prev => [...newCrashes, ...prev].slice(0, 100))]. *)
Definition prependCrashes (newCrashes prev : list CrashPoint) : list CrashPoint :=
  firstn 100 (newCrashes ++ prev).

Section ManualEntry.

  (** The global [parseFloat], applied to the text of the input box; it returns
      NaN when the text does not start with a number. *)
Variable parseFloat : string -> float.

  (** The outcome [addManualCrash] creates, if any. *)
Definition manualCrash (st : State) : M (option CrashPoint) :=
    let multiplier := parseFloat (inputMultiplier st) in
    if JS.geb multiplier 1.0 && (multiplier <=? 100) then
      i <- Date_now ;;
      t <- Date_now ;;
      ret (Some {| id := i; multiplier := roundTo2 multiplier; timestamp := t |})
    else ret None.

Definition addManualCrash (st : State) : M State :=
    c <- manualCrash st ;;
    match c with
    | Some newCrash =>
        ret {| crashHistory := prependCrashes [newCrash] (crashHistory st);
               inputMultiplier := EmptyString;
               isSimulating := isSimulating st |}
    | None => ret st
    end.

End ManualEntry.

(** The loop of [simulateRounds]: [todo] iterations are left, [i] is the loop
    counter, [newCrashes] the array pushed to so far. *)
Fixpoint simulateLoop (todo : nat) (i : Z) (newCrashes : list CrashPoint)
  : M (list CrashPoint) :=
  match todo with
  | O => ret newCrashes
  | S todo' =>
      now1 <- Date_now ;;
      m <- generateCrashMultiplier ;;
      now2 <- Date_now ;;
      simulateLoop todo' (i + 1)
        (newCrashes ++ [{| id := now1 + i; multiplier := roundTo2 m;
                           timestamp := now2 + i * 1000 |}])
  end.

Definition simulatedCrashes (count : nat) : M (list CrashPoint) :=
  simulateLoop count 0 [].

Definition simulateRounds (count : nat) (st : State) : M State :=
  newCrashes <- simulatedCrashes count ;;
  ret {| crashHistory := prependCrashes newCrashes (crashHistory st);
         inputMultiplier := inputMultiplier st;
         isSimulating := true |}.

Definition clearAll (st : State) : State :=
  {| crashHistory := []; inputMultiplier := inputMultiplier st;
     isSimulating := isSimulating st |}.

(** ** The statistics engine *)

Definition compareFn (a b : float) : float := a - b.

Definition sumOf (l : list float) : float := fold_left add l 0.

Definition medianOf (sorted : list float) : float :=
  let n := length sorted in
  if Nat.eqb (n mod 2) 0
  then (nth (n / 2 - 1) sorted nan + nth (n / 2) sorted nan) / 2
  else nth (n / 2) sorted nan.

Definition calculateStatistics (crashHistory : list CrashPoint) : option Statistics :=
  if Nat.eqb (length crashHistory) 0 then None else
  let multipliers := map multiplier crashHistory in
  let sum := fold_left (fun a b => a + b) multipliers 0 in
  let avg := sum / JS.of_length (length multipliers) in
  let sorted := JS.Array_sort compareFn multipliers in
  let median := medianOf sorted in
  let variance :=
    fold_left (fun acc val => acc + JS.Math_pow2 (val - avg)) multipliers 0
    / JS.of_length (length multipliers) in
  let volatility := JS.Math_sqrt variance in
  Some {| averageMultiplier := roundTo2 avg;
          medianMultiplier := roundTo2 median;
          maxMultiplier := JS.Math_max multipliers;
          minMultiplier := JS.Math_min multipliers;
          volatility := roundTo2 volatility;
          crashesBelow2x := length (filter (fun m => m <? 2) multipliers);
          crashesAbove5x := length (filter (fun m => JS.geb m 5) multipliers);
          crashesAbove10x := length (filter (fun m => JS.geb m 10) multipliers) |}.

(** ** The histogram *)

Definition inRange (lo hi : float) (c : CrashPoint) : bool :=
  JS.geb (multiplier c) lo && (multiplier c <? hi).

Definition countWhere (p : CrashPoint -> bool) (h : list CrashPoint) : nat :=
  length (filter p h).

Definition distributionData (crashHistory : list CrashPoint) : list (string * nat) :=
  [ ("1.0x-1.5x"%string, countWhere (inRange 1.0 1.5) crashHistory);
    ("1.5x-2.0x"%string, countWhere (inRange 1.5 2.0) crashHistory);
    ("2.0x-3.0x"%string, countWhere (inRange 2.0 3.0) crashHistory);
    ("3.0x-5.0x"%string, countWhere (inRange 3.0 5.0) crashHistory);
    ("5.0x-10.0x"%string, countWhere (inRange 5.0 10.0) crashHistory);
    ("10.0x+"%string, countWhere (fun c => JS.geb (multiplier c) 10.0) crashHistory) ].

(** ** The percentages of the counters *)

(** [((count / crashHistory.length) * 100).toFixed(1)], as the page prints it
    next to each of the three counters. *)
Definition percentage (count total : nat) : JS.fixed1_string :=
  JS.toFixed1 ((JS.of_length count / JS.of_length total) * 100).

(** ** The trend chart *)

Module Chart.
End Chart.


(** ** The table of recent outcomes *)

(** The class of the multiplier cell, the class and the text of the category
    badge: the same chain of comparisons three times. *)
Definition multiplierClass (crash : CrashPoint) : string :=
  if JS.geb (multiplier crash) 10 then "text-yellow-400"
  else if JS.geb (multiplier crash) 5 then "text-green-400"
  else if JS.geb (multiplier crash) 2 then "text-blue-400"
  else "text-red-400".

Definition badgeClass (crash : CrashPoint) : string :=
  if JS.geb (multiplier crash) 10 then "bg-yellow-900 text-yellow-200"
  else if JS.geb (multiplier crash) 5 then "bg-green-900 text-green-200"
  else if JS.geb (multiplier crash) 2 then "bg-blue-900 text-blue-200"
  else "bg-red-900 text-red-200".

Definition categoryLabel (crash : CrashPoint) : string :=
  if JS.geb (multiplier crash) 10 then "Mega Win"
  else if JS.geb (multiplier crash) 5 then "Big Win"
  else if JS.geb (multiplier crash) 2 then "Win"
  else "Low".

(** A row of the table: the React key, the round number, the multiplier as
    printed by [toFixed(2)], its class, and the badge.  (The time cell, printed
    by [toLocaleTimeString], depends on the locale and is left out.) *)
Record Row := {
  key : Z;
  rowRound : nat;
  multiplierText : JS.fixed_string;
  textClass : string;
  badge : string * string
}.

(** [crashHistory.slice(0, 20).map((crash, index) => ...)]. *)
Definition recentRows (crashHistory : list CrashPoint) : list Row :=
  JS.Array_map
    (fun crash index =>
       {| key := id crash; rowRound := index + 1;
          multiplierText := JS.toFixed2 (multiplier crash);
          textClass := multiplierClass crash;
          badge := (badgeClass crash, categoryLabel crash) |})
    (firstn 20 crashHistory).

(** An outcome with the given multiplier, for examples. *)
Definition mk (m : float) : CrashPoint := {| id := 0; multiplier := m; timestamp := 0 |}.

(** * Properties *)

(** ** Comparisons of binary64 numbers *)

Module FloatOrder.

  (** [ordered x]: [x] is not NaN ([x === x] in the source language). *)
Definition ordered (x : float) : Prop := SFcompare (Prim2SF x) (Prim2SF x) = Some Eq.

Lemma SFcompare_antisym a b :
    SFcompare b a = option_map CompOpp (SFcompare a b).
  Proof.
    destruct a as [sa|sa| |sa ma ea], b as [sb|sb| |sb mb eb]; simpl;
      try reflexivity; try (destruct sa; reflexivity); try (destruct sb; reflexivity);
      try (destruct sa, sb; reflexivity).
    destruct sa, sb; simpl; try reflexivity;
      rewrite (Z.compare_antisym ea eb);
      destruct (ea ?= eb)%Z eqn:E; simpl; try reflexivity;
      rewrite !Pos.compare_cont_spec, (Pos.compare_antisym ma mb);
      destruct (ma ?= mb)%positive; reflexivity.
  Qed.

Lemma SFcompare_refl a : a <> S754_nan -> SFcompare a a = Some Eq.
  Proof.
    destruct a as [sa|sa| |sa ma ea]; simpl; intros H; try reflexivity;
      try (destruct sa; reflexivity); try congruence.
    destruct sa; rewrite Z.compare_refl, Pos.compare_cont_spec, Pos.compare_refl;
      reflexivity.
  Qed.

Lemma SFcompare_some a b :
    a <> S754_nan -> b <> S754_nan -> exists c, SFcompare a b = Some c.
  Proof.
    destruct a, b; simpl; intros; try congruence; eauto.
  Qed.

Lemma SFcompare_not_nan a b c :
    SFcompare a b = Some c -> a <> S754_nan /\ b <> S754_nan.
  Proof.
    destruct a, b; simpl; intros; split; congruence.
  Qed.

Lemma ordered_not_nan x : ordered x <-> Prim2SF x <> S754_nan.
  Proof.
    unfold ordered; split.
    - intros H; apply SFcompare_not_nan in H; tauto.
    - apply SFcompare_refl.
  Qed.

Lemma leb_ordered x y : (x <=? y) = true -> ordered x /\ ordered y.
  Proof.
    rewrite leb_spec; unfold SFleb; rewrite !ordered_not_nan.
    destruct (SFcompare _ _) eqn:E; [|discriminate].
    intros _; eapply SFcompare_not_nan; eauto.
  Qed.

Lemma ltb_ordered x y : (x <? y) = true -> ordered x /\ ordered y.
  Proof.
    rewrite ltb_spec; unfold SFltb; rewrite !ordered_not_nan.
    destruct (SFcompare _ _) eqn:E; [|discriminate].
    intros _; eapply SFcompare_not_nan; eauto.
  Qed.

  (** On numbers that are not NaN, [>=] is the negation of [<]. *)
Lemma leb_negb_ltb x y : ordered x -> ordered y -> (x <=? y) = negb (y <? x).
  Proof.
    rewrite !ordered_not_nan, leb_spec, ltb_spec; intros Hx Hy.
    unfold SFleb, SFltb; rewrite (SFcompare_antisym (Prim2SF x)).
    destruct (SFcompare_some _ _ Hx Hy) as [c ->]; destruct c; reflexivity.
  Qed.

Lemma is_nan_spec x : is_nan x = true -> Prim2SF x = S754_nan.
  Proof.
    unfold is_nan; rewrite eqb_spec; unfold SFeqb; intros H.
    destruct (Prim2SF x) eqn:E; try reflexivity;
      rewrite SFcompare_refl in H by congruence; discriminate.
  Qed.

Lemma nan_leb_l x y : is_nan x = true -> (x <=? y) = false.
  Proof.
    intros H; rewrite leb_spec, (is_nan_spec _ H); reflexivity.
  Qed.

Lemma nan_leb_r x y : is_nan y = true -> (x <=? y) = false.
  Proof.
    intros H; rewrite leb_spec, (is_nan_spec _ H).
    destruct (Prim2SF x); reflexivity.
  Qed.

Ltac compare_cases :=
    repeat match goal with
      | |- context [(?a ?= ?b)%Z] => destruct (Z.compare_spec a b)
      | H : context [(?a ?= ?b)%Z] |- _ => destruct (Z.compare_spec a b)
      | |- context [(?a ?= ?b)%positive] => destruct (Pos.compare_spec a b)
      | H : context [(?a ?= ?b)%positive] |- _ => destruct (Pos.compare_spec a b)
      end.

Lemma SFcompare_trans a b c o :
    SFcompare a b = Some o -> SFcompare b c = Some o -> SFcompare a c = Some o.
  Proof.
    destruct a as [sa|sa| |sa ma ea], b as [sb|sb| |sb mb eb],
             c as [sc|sc| |sc mc ec]; simpl; try discriminate;
      repeat match goal with s : bool |- _ => destruct s end;
      simpl; try congruence;
      rewrite ?Pos.compare_cont_spec; intros H1 H2;
      injection H1 as H1; injection H2 as H2; f_equal; subst o;
      compare_cases; simpl in *; subst; try congruence; try lia.
  Qed.

Lemma ltb_trans x y z : (x <? y) = true -> (y <? z) = true -> (x <? z) = true.
  Proof.
    rewrite !ltb_spec; unfold SFltb.
    destruct (SFcompare (Prim2SF x) (Prim2SF y)) as [[]|] eqn:E1; try discriminate.
    destruct (SFcompare (Prim2SF y) (Prim2SF z)) as [[]|] eqn:E2; try discriminate.
    rewrite (SFcompare_trans _ _ _ _ E1 E2); reflexivity.
  Qed.

Lemma SFcompare_Eq_inv a b :
  SFcompare a b = Some Eq ->
  forall c, SFcompare a c = SFcompare b c /\ SFcompare c a = SFcompare c b.
Proof.
  destruct a as [sa|sa| |sa ma ea], b as [sb|sb| |sb mb eb]; simpl; try discriminate;
    try (destruct sa; discriminate); try (destruct sb; discriminate).
  - intros _ c; destruct c; split; reflexivity.
  - destruct sa, sb; try discriminate; intros _ c; destruct c; split; reflexivity.
  - intros H.
    assert (E : sa = sb /\ ea = eb /\ ma = mb).
    { revert H; destruct sa, sb; try discriminate;
        rewrite ?Pos.compare_cont_spec; simpl Pos.switch_Eq;
        destruct (Z.compare_spec ea eb); try discriminate;
        destruct (Pos.compare_spec ma mb); try discriminate; auto. }
    destruct E as [-> [-> ->]]; intros c; split; reflexivity.
Qed.

Lemma SFleb_trans a b c : SFleb a b = true -> SFleb b c = true -> SFleb a c = true.
Proof.
  unfold SFleb.
  destruct (SFcompare a b) as [[]|] eqn:E1; try discriminate;
    destruct (SFcompare b c) as [[]|] eqn:E2; try discriminate; intros _ _.
  - destruct (SFcompare_Eq_inv _ _ E1 c) as [-> _]; rewrite E2; reflexivity.
  - destruct (SFcompare_Eq_inv _ _ E1 c) as [-> _]; rewrite E2; reflexivity.
  - destruct (SFcompare_Eq_inv _ _ E2 a) as [_ <-]; rewrite E1; reflexivity.
  - rewrite (SFcompare_trans _ _ _ _ E1 E2); reflexivity.
Qed.

Lemma SFleb_ltb_trans a b c : SFleb a b = true -> SFltb b c = true -> SFltb a c = true.
Proof.
  unfold SFleb, SFltb.
  destruct (SFcompare a b) as [[]|] eqn:E1; try discriminate;
    destruct (SFcompare b c) as [[]|] eqn:E2; try discriminate; intros _ _.
  - destruct (SFcompare_Eq_inv _ _ E1 c) as [-> _]; rewrite E2; reflexivity.
  - rewrite (SFcompare_trans _ _ _ _ E1 E2); reflexivity.
Qed.

Lemma leb_trans x y z : (x <=? y) = true -> (y <=? z) = true -> (x <=? z) = true.
Proof. rewrite !leb_spec; apply SFleb_trans. Qed.

Lemma leb_ltb_trans x y z : (x <=? y) = true -> (y <? z) = true -> (x <? z) = true.
Proof. rewrite !leb_spec, !ltb_spec; apply SFleb_ltb_trans. Qed.

Lemma SFltb_leb_trans a b c : SFltb a b = true -> SFleb b c = true -> SFltb a c = true.
Proof.
  unfold SFleb, SFltb.
  destruct (SFcompare a b) as [[]|] eqn:E1; try discriminate;
    destruct (SFcompare b c) as [[]|] eqn:E2; try discriminate; intros _ _.
  - destruct (SFcompare_Eq_inv _ _ E2 a) as [_ <-]; rewrite E1; reflexivity.
  - rewrite (SFcompare_trans _ _ _ _ E1 E2); reflexivity.
Qed.

Lemma ltb_leb_trans x y z : (x <? y) = true -> (y <=? z) = true -> (x <? z) = true.
Proof. rewrite !leb_spec, !ltb_spec; apply SFltb_leb_trans. Qed.

End FloatOrder.

(** ** Rounding to nearest in binary64 *)

Module Rounding.

Local Open Scope Z_scope.

(** ** Digits *)

Lemma digits2_pos_bounds (p : positive) :
  2 ^ (Zpos (digits2_pos p) - 1) <= Zpos p < 2 ^ Zpos (digits2_pos p).
Proof.
  induction p as [p IH | p IH |]; simpl digits2_pos.
  - rewrite Pos2Z.inj_succ, Z.pow_succ_r by lia.
    replace (Z.succ (Zpos (digits2_pos p)) - 1) with (Z.succ (Zpos (digits2_pos p) - 1)) by lia.
    rewrite Z.pow_succ_r by lia. lia.
  - rewrite Pos2Z.inj_succ, Z.pow_succ_r by lia.
    replace (Z.succ (Zpos (digits2_pos p)) - 1) with (Z.succ (Zpos (digits2_pos p) - 1)) by lia.
    rewrite Z.pow_succ_r by lia. lia.
  - simpl; lia.
Qed.

Lemma Zdigits2_bounds (m : Z) :
  0 < m -> 2 ^ (Zdigits2 m - 1) <= m < 2 ^ Zdigits2 m.
Proof.
  destruct m as [|p|p]; try lia; intros _; apply digits2_pos_bounds.
Qed.

Lemma Zdigits2_pos (m : Z) : 0 < m -> 0 < Zdigits2 m.
Proof. destruct m; simpl; lia. Qed.

Lemma pow2_lt_inv (a b : Z) : 0 <= b -> 2 ^ a < 2 ^ b -> a < b.
Proof.
  intros Hb H; destruct (Z_lt_le_dec a b) as [|Hab]; [assumption|].
  pose proof (Z.pow_le_mono_r 2 b a ltac:(lia) Hab); lia.
Qed.

Lemma Zdigits2_unique (m k : Z) :
  0 < k -> 2 ^ (k - 1) <= m < 2 ^ k -> Zdigits2 m = k.
Proof.
  intros Hk [H1 H2].
  assert (Hm : 0 < m) by (pose proof (Z.pow_pos_nonneg 2 (k - 1)); lia).
  pose proof (Zdigits2_bounds m Hm) as [H3 H4].
  pose proof (Zdigits2_pos m Hm) as Hd.
  assert (k - 1 < Zdigits2 m) by (apply pow2_lt_inv; lia).
  assert (Zdigits2 m - 1 < k) by (apply pow2_lt_inv; lia).
  lia.
Qed.

(** ** Round to nearest, ties to even, of [N / 2 ^ k] *)

Definition rne (N k : Z) : Z :=
  let q := N / 2 ^ k in
  let r := N mod 2 ^ k in
  match 2 * r ?= 2 ^ k with
  | Lt => q
  | Gt => q + 1
  | Eq => if Z.even q then q else q + 1
  end.

Lemma rne_0 N : rne N 0 = N.
Proof.
  unfold rne; simpl. rewrite Z.div_1_r, Z.mod_1_r; reflexivity.
Qed.

Lemma rne_range N k : 0 <= k -> N / 2 ^ k <= rne N k <= N / 2 ^ k + 1.
Proof.
  intros; unfold rne; destruct (_ ?= _); try destruct (Z.even _); lia.
Qed.

Lemma rne_exact N k : 0 <= k -> N mod 2 ^ k = 0 -> rne N k = N / 2 ^ k.
Proof.
  intros Hk H; unfold rne; rewrite H.
  pose proof (Z.pow_pos_nonneg 2 k ltac:(lia) Hk).
  destruct (Z.compare_spec (2 * 0) (2 ^ k)); lia.
Qed.

(** Bounds by an integer [K] of the result's unit. *)
Lemma rne_lower N k K : 0 <= k -> K * 2 ^ k <= N -> K <= rne N k.
Proof.
  intros Hk H.
  pose proof (Z.pow_pos_nonneg 2 k ltac:(lia) Hk) as Hp.
  pose proof (rne_range N k Hk).
  assert (K <= N / 2 ^ k) by (apply Z.div_le_lower_bound; lia).
  lia.
Qed.

Lemma rne_upper N k K : 0 <= k -> 2 * N < (2 * K + 1) * 2 ^ k -> rne N k <= K.
Proof.
  intros Hk H.
  pose proof (Z.pow_pos_nonneg 2 k ltac:(lia) Hk) as Hp.
  pose proof (Z.div_mod N (2 ^ k) ltac:(lia)) as Hd.
  pose proof (Z.mod_pos_bound N (2 ^ k) Hp) as Hm.
  unfold rne.
  set (q := N / 2 ^ k) in *; set (r := N mod 2 ^ k) in *.
  destruct (Z.compare_spec (2 * r) (2 ^ k)) as [E|E|E].
  - assert (q < K \/ K <= q) as [|] by lia; [destruct (Z.even q); lia|]. nia.
  - assert (q <= K \/ K < q) as [|] by lia; [lia|]. nia.
  - assert (q < K \/ K <= q) as [|] by lia; [lia|]. nia.
Qed.

Lemma rne_mono N1 N2 k : 0 <= k -> N1 <= N2 -> rne N1 k <= rne N2 k.
Proof.
  intros Hk H.
  pose proof (Z.pow_pos_nonneg 2 k ltac:(lia) Hk) as Hp.
  pose proof (Z.div_mod N1 (2 ^ k) ltac:(lia)) as Hd1.
  pose proof (Z.mod_pos_bound N1 (2 ^ k) Hp) as Hm1.
  pose proof (Z.div_mod N2 (2 ^ k) ltac:(lia)) as Hd2.
  pose proof (Z.mod_pos_bound N2 (2 ^ k) Hp) as Hm2.
  pose proof (Z.div_le_mono N1 N2 (2 ^ k) Hp H) as Hq.
  unfold rne.
  set (q1 := N1 / 2 ^ k) in *; set (r1 := N1 mod 2 ^ k) in *.
  set (q2 := N2 / 2 ^ k) in *; set (r2 := N2 mod 2 ^ k) in *.
  assert (q1 = q2 \/ q1 + 1 <= q2) as [E|E] by lia.
  - rewrite E in *. assert (r1 <= r2) by nia.
    destruct (Z.compare_spec (2 * r1) (2 ^ k)), (Z.compare_spec (2 * r2) (2 ^ k));
      try destruct (Z.even q2); lia.
  - destruct (Z.compare_spec (2 * r1) (2 ^ k)), (Z.compare_spec (2 * r2) (2 ^ k));
      try destruct (Z.even q1); try destruct (Z.even q2); lia.
Qed.

Lemma rne_scale N k t : 0 <= k -> 0 <= t -> rne (N * 2 ^ t) (k + t) = rne N k.
Proof.
  intros Hk Ht.
  pose proof (Z.pow_pos_nonneg 2 k ltac:(lia) Hk) as Hp.
  pose proof (Z.pow_pos_nonneg 2 t ltac:(lia) Ht) as Hq.
  assert (Eq1 : N * 2 ^ t / 2 ^ (k + t) = N / 2 ^ k).
  { rewrite Z.pow_add_r by lia; apply Z.div_mul_cancel_r; lia. }
  assert (Eq2 : (N * 2 ^ t) mod 2 ^ (k + t) = (N mod 2 ^ k) * 2 ^ t).
  { rewrite Z.pow_add_r by lia; apply Z.mul_mod_distr_r; lia. }
  unfold rne; rewrite Eq1, Eq2, Z.pow_add_r by lia.
  replace (2 * (N mod 2 ^ k * 2 ^ t)) with (2 * (N mod 2 ^ k) * 2 ^ t) by ring.
  rewrite <- Zmult_compare_compat_r by lia. reflexivity.
Qed.


(** ** The shift-and-round of [SpecFloat] computes [rne] *)

Definition shr_inv (N k : Z) (mrs : shr_record) : Prop :=
  exists r, 0 <= r < 2 ^ k /\ N = shr_m mrs * 2 ^ k + r /\ 0 <= shr_m mrs /\
    shr_r mrs = (2 ^ k <=? 2 * r) /\
    shr_s mrs = negb (r =? 0) && negb (2 * r =? 2 ^ k).

Lemma shr_inv_init N : 0 <= N -> shr_inv N 0 (Build_shr_record N false false).
Proof.
  intros HN; exists 0; simpl; repeat split; lia.
Qed.

Lemma shr_inv_step N k mrs : 0 <= k -> shr_inv N k mrs -> shr_inv N (k + 1) (shr_1 mrs).
Proof.
  intros Hk [r [Hr [HN [Hm [Er Es]]]]].
  pose proof (Z.pow_pos_nonneg 2 k ltac:(lia) Hk) as Hp.
  assert (E2 : 2 ^ (k + 1) = 2 * 2 ^ k) by (rewrite Z.pow_add_r, Z.pow_1_r by lia; ring).
  destruct mrs as [m br bs]; cbn [shr_m shr_r shr_s] in *.
  assert (Hs : (br || bs)%bool = negb (r =? 0)).
  { subst br bs.
    destruct (Z.leb_spec (2 ^ k) (2 * r)), (Z.eqb_spec r 0), (Z.eqb_spec (2 * r) (2 ^ k));
      simpl; try reflexivity; lia. }
  assert (Hfin : forall r' b', 
            b' = (2 * 2 ^ k <=? 2 * r') -> (r' = r \/ r' = 2 ^ k + r) ->
            b' = (2 * 2 ^ k <=? 2 * r') /\
            (br || bs)%bool = negb (r' =? 0) && negb (2 * r' =? 2 * 2 ^ k)).
  { intros r' b' Hb Hr'; split; [exact Hb|]; rewrite Hs.
    destruct (Z.eqb_spec r 0), (Z.eqb_spec r' 0), (Z.eqb_spec (2 * r') (2 * 2 ^ k));
      simpl; try reflexivity; lia. }
  destruct m as [|[p|p|]|p]; try lia; cbn [shr_1].
  - exists r; cbn [shr_m shr_r shr_s]; rewrite E2.
    split; [lia|]; split; [lia|]; split; [lia|].
    apply Hfin; [symmetry; apply Z.leb_gt; lia | lia].
  - exists (2 ^ k + r); cbn [shr_m shr_r shr_s]; rewrite E2.
    split; [lia|]; split; [lia|]; split; [lia|].
    apply Hfin; [symmetry; apply Z.leb_le; lia | lia].
  - exists r; cbn [shr_m shr_r shr_s]; rewrite E2.
    split; [lia|]; split; [lia|]; split; [lia|].
    apply Hfin; [symmetry; apply Z.leb_gt; lia | lia].
  - exists (2 ^ k + r); cbn [shr_m shr_r shr_s]; rewrite E2.
    split; [lia|]; split; [lia|]; split; [lia|].
    apply Hfin; [symmetry; apply Z.leb_le; lia | lia].
Qed.

Lemma shr_inv_iter N (p : positive) : forall k mrs,
  0 <= k -> shr_inv N k mrs -> shr_inv N (k + Zpos p) (iter_pos shr_1 p mrs).
Proof.
  induction p as [p IH | p IH |]; intros k mrs Hk H; simpl iter_pos.
  - replace (k + Zpos p~1) with (k + 1 + Zpos p + Zpos p) by lia.
    apply IH; [lia|]; apply IH; [lia|]; apply shr_inv_step; assumption.
  - replace (k + Zpos p~0) with (k + Zpos p + Zpos p) by lia.
    apply IH; [lia|]; apply IH; assumption.
  - apply shr_inv_step; assumption.
Qed.

Lemma shr_inv_rne N k mrs :
  0 <= k -> shr_inv N k mrs ->
  shr_m mrs = N / 2 ^ k /\
  round_nearest_even (shr_m mrs) (loc_of_shr_record mrs) = rne N k.
Proof.
  intros Hk [r [Hr [HN [Hm [Er Es]]]]].
  pose proof (Z.pow_pos_nonneg 2 k ltac:(lia) Hk) as Hp.
  assert (Eq : N / 2 ^ k = shr_m mrs).
  { symmetry; apply (Z.div_unique_pos N (2 ^ k) (shr_m mrs) r); lia. }
  assert (Em : N mod 2 ^ k = r).
  { symmetry; apply (Z.mod_unique_pos N (2 ^ k) (shr_m mrs) r); lia. }
  split; [congruence|].
  unfold rne; rewrite Eq, Em.
  destruct mrs as [m br bs]; cbn [shr_m shr_r shr_s loc_of_shr_record] in *; subst br bs.
  destruct (Z.compare_spec (2 * r) (2 ^ k)) as [E|E|E];
    destruct (Z.leb_spec (2 ^ k) (2 * r)), (Z.eqb_spec r 0), (Z.eqb_spec (2 * r) (2 ^ k));
    simpl; try reflexivity; lia.
Qed.

(** [shr_fexp] from an exact mantissa. *)
Definition shift_of (m e : Z) : Z := Z.max 0 (fexp prec emax (Zdigits2 m + e) - e).

Lemma shr_fexp_exact m e :
  0 <= m ->
  let '(mrs, e') := shr_fexp prec emax m e loc_Exact in
  e' = e + shift_of m e /\ shr_m mrs = m / 2 ^ shift_of m e /\
  round_nearest_even (shr_m mrs) (loc_of_shr_record mrs) = rne m (shift_of m e).
Proof.
  intros Hm; unfold shr_fexp, shift_of, shr; simpl shr_record_of_loc.
  destruct (fexp prec emax (Zdigits2 m + e) - e) as [|p|p] eqn:E.
  - simpl; rewrite Z.div_1_r, rne_0; repeat split; lia.
  - pose proof (shr_inv_iter m p 0 _ ltac:(lia) (shr_inv_init m Hm)) as H.
    apply shr_inv_rne in H; [|lia]. simpl (0 + _) in H.
    replace (Z.max 0 (Z.pos p)) with (Z.pos p) by lia.
    destruct H as [H1 H2]; repeat split; assumption.
  - simpl; rewrite Z.div_1_r, rne_0; repeat split; lia.
Qed.

(** The mantissa and exponent [binary_round_aux] ends with. *)
Definition round_core (M e : Z) : Z * Z :=
  let n := shift_of M e in
  let m1 := rne M n in
  let e1 := e + n in
  let n2 := shift_of m1 e1 in
  (m1 / 2 ^ n2, e1 + n2).

Definition of_core (sx : bool) (me : Z * Z) : spec_float :=
  match fst me with
  | Z0 => S754_zero sx
  | Zpos m => if snd me <=? emax - prec then S754_finite sx m (snd me) else S754_infinity sx
  | Zneg _ => S754_nan
  end.

Lemma rne_nonneg M k : 0 <= k -> 0 <= M -> 0 <= rne M k.
Proof.
  intros Hk HM; pose proof (rne_range M k Hk).
  pose proof (Z.div_pos M (2 ^ k) HM (Z.pow_pos_nonneg 2 k ltac:(lia) Hk)); lia.
Qed.

Lemma binary_round_aux_core sx M e :
  0 <= M -> binary_round_aux prec emax sx M e loc_Exact = of_core sx (round_core M e).
Proof.
  intros HM; unfold binary_round_aux, round_core, of_core.
  pose proof (shr_fexp_exact M e HM) as H1.
  destruct (shr_fexp prec emax M e loc_Exact) as [mrs e1].
  destruct H1 as [-> [_ ->]].
  assert (Hn : 0 <= shift_of M e) by (unfold shift_of; lia).
  pose proof (shr_fexp_exact (rne M (shift_of M e)) (e + shift_of M e)
                (rne_nonneg _ _ Hn HM)) as H2.
  destruct (shr_fexp prec emax _ _ loc_Exact) as [mrs2 e2].
  destruct H2 as [-> [-> _]]; reflexivity.
Qed.


(** ** The result of rounding a positive mantissa *)

Lemma fexp_eq x : fexp prec emax x = Z.max (x - 53) (-1074).
Proof. reflexivity. Qed.

Lemma pow2_split a b : 0 <= a -> 0 <= b -> 2 ^ (a + b) = 2 ^ a * 2 ^ b.
Proof. intros; apply Z.pow_add_r; assumption. Qed.

Lemma pow2_pos a : 0 <= a -> 0 < 2 ^ a.
Proof. intros; apply Z.pow_pos_nonneg; lia. Qed.

Lemma pow2_le a b : a <= b -> 2 ^ a <= 2 ^ b.
Proof. intros; apply Z.pow_le_mono_r; lia. Qed.

Lemma Zdigits2_mono a b : 0 < a -> a <= b -> Zdigits2 a <= Zdigits2 b.
Proof.
  intros Ha Hab.
  pose proof (Zdigits2_bounds a Ha) as [H1 _].
  pose proof (Zdigits2_bounds b ltac:(lia)) as [_ H2].
  pose proof (Zdigits2_pos b ltac:(lia)).
  assert (Zdigits2 a - 1 < Zdigits2 b) by (apply pow2_lt_inv; lia).
  lia.
Qed.

(** [canonical m e]: the pair is the unique representation of its value. *)
Definition canonical (m e : Z) : Prop :=
  0 < m /\ fexp prec emax (Zdigits2 m + e) = e.

Lemma canonical_cases m e :
  canonical m e ->
  -1074 <= e /\ m < 2 ^ 53 /\ (e = -1074 \/ 2 ^ 52 <= m).
Proof.
  intros [Hm Hc]; rewrite fexp_eq in Hc.
  pose proof (Zdigits2_bounds m Hm) as [H1 H2].
  pose proof (Zdigits2_pos m Hm) as Hd.
  split; [lia|]. split.
  - assert (Zdigits2 m <= 53) by lia.
    pose proof (pow2_le (Zdigits2 m) 53 ltac:(lia)); lia.
  - destruct (Z.eq_dec e (-1074)) as [|Hne]; [left; assumption | right].
    assert (Zdigits2 m = 53) by lia.
    replace 52 with (Zdigits2 m - 1) by lia; assumption.
Qed.

(** The exponent a positive mantissa [M] at exponent [e] is rounded at. *)
Definition rexp (M e : Z) : Z := fexp prec emax (Zdigits2 M + e).

Record rounded (M e m2 e2 : Z) : Prop := {
  rd_exp : rexp M e <= e2 <= rexp M e + 1;
  rd_val : m2 * 2 ^ (e2 - rexp M e) = rne M (rexp M e - e);
  rd_hi : rne M (rexp M e - e) <= 2 ^ 53;
  rd_lo : rexp M e = -1074 \/ 2 ^ 52 <= rne M (rexp M e - e);
  rd_can : m2 = 0 \/ canonical m2 e2
}.

Lemma round_core_spec M e :
  0 < M -> e <= fexp prec emax (Zdigits2 M + e) ->
  rounded M e (fst (round_core M e)) (snd (round_core M e)).
Proof.
  intros HM He.
  pose proof (Zdigits2_bounds M HM) as [Hd1 Hd2].
  pose proof (Zdigits2_pos M HM) as Hd.
  set (d := Zdigits2 M) in *.
  unfold round_core.
  assert (Hn : shift_of M e = fexp prec emax (d + e) - e) by (unfold shift_of; fold d; lia).
  rewrite Hn; set (e1 := fexp prec emax (d + e)) in *.
  replace (e + (e1 - e)) with e1 by lia.
  set (n := e1 - e) in *. assert (0 <= n) by lia.
  pose proof (pow2_pos n ltac:(lia)) as HP.
  set (m1 := rne M n).
  assert (Hm1 : 0 <= m1) by (apply rne_nonneg; lia).
  assert (Hc53 : (2:Z) ^ 53 = 2 * 2 ^ 52) by reflexivity.
  assert (Hcase : (e1 = d + e - 53 /\ -1074 <= e1) \/ (e1 = -1074 /\ d + e - 53 < -1074))
    by (unfold e1; rewrite fexp_eq; lia).
  destruct Hcase as [[E1 Hge] | [E1 Hlt]].
  - (* normal range *)
    assert (En : d = 53 + n) by lia.
    assert (Hlo : 2 ^ 52 <= m1).
    { apply rne_lower; [lia|].
      replace (2 ^ 52 * 2 ^ n) with (2 ^ (d - 1)); [assumption|].
      replace (d - 1) with (52 + n) by lia; apply pow2_split; lia. }
    assert (Hhi : m1 <= 2 ^ 53).
    { apply rne_upper; [lia|].
      assert (2 ^ d = 2 ^ 53 * 2 ^ n) by (rewrite En; apply pow2_split; lia).
      nia. }
    assert (m1 < 2 ^ 53 \/ m1 = 2 ^ 53) as [Hlt | Heq] by lia.
    + assert (Hd1' : Zdigits2 m1 = 53) by (apply Zdigits2_unique; simpl; lia).
      assert (Hs : shift_of m1 e1 = 0) by (unfold shift_of; rewrite Hd1', fexp_eq; lia).
      rewrite Hs; cbn [fst snd]; rewrite Z.div_1_r, Z.add_0_r.
      constructor; unfold rexp; fold d; fold e1; fold n; fold m1; try lia.
      * replace (e1 - e1) with 0 by lia; simpl; lia.
      * right; split; [lia|]. rewrite Hd1', fexp_eq; lia.
    + assert (Hd1' : Zdigits2 m1 = 54) by (rewrite Heq; reflexivity).
      assert (Hs : shift_of m1 e1 = 1) by (unfold shift_of; rewrite Hd1', fexp_eq; lia).
      rewrite Hs, Heq; cbn [fst snd].
      replace (2 ^ 53 / 2 ^ 1) with (2 ^ 52) by reflexivity.
      constructor; unfold rexp; fold d; fold e1; fold n; fold m1; try lia.
      * replace (e1 + 1 - e1) with 1 by lia; rewrite Heq; reflexivity.
      * right; split; [reflexivity|].
        replace (Zdigits2 (2 ^ 52)) with 53 by reflexivity; rewrite fexp_eq; lia.
  - (* subnormal range *)
    assert (Hhi : m1 <= 2 ^ 52).
    { apply rne_upper; [lia|].
      assert (2 ^ d <= 2 ^ (52 + n)) by (apply pow2_le; lia).
      rewrite pow2_split in * by lia. nia. }
    assert (m1 = 0 \/ 0 < m1) as [Hz | Hpos] by lia.
    + rewrite Hz. change (shift_of 0 e1) with (Z.max 0 (fexp prec emax (0 + e1) - e1)).
      rewrite fexp_eq.
      replace (Z.max 0 (Z.max (0 + e1 - 53) (-1074) - e1)) with 0 by lia.
      cbn [fst snd]; rewrite Z.add_0_r.
      replace (0 / 2 ^ 0) with 0 by reflexivity.
      constructor; unfold rexp; fold d; fold e1; fold n; fold m1; try lia.
    + pose proof (Zdigits2_bounds m1 Hpos) as [Hb1 Hb2].
      pose proof (Zdigits2_pos m1 Hpos) as Hb.
      assert (Zdigits2 m1 <= 53).
      { assert (Zdigits2 m1 - 1 < 53) by (apply pow2_lt_inv; lia). lia. }
      assert (Hs : shift_of m1 e1 = 0) by (unfold shift_of; rewrite fexp_eq; lia).
      rewrite Hs; cbn [fst snd]; rewrite Z.div_1_r, Z.add_0_r.
      constructor; unfold rexp; fold d; fold e1; fold n; fold m1; try lia.
      * replace (e1 - e1) with 0 by lia; simpl; lia.
      * right; split; [lia|]. rewrite fexp_eq; lia.
Qed.


(** ** Values and comparisons *)

(** The value of a finite number, in units of [2 ^ -1074]. *)
Definition Zv (x : spec_float) : Z :=
  match x with
  | S754_finite s m e =>
      if s then - (Zpos m * 2 ^ (e + 1074)) else Zpos m * 2 ^ (e + 1074)
  | _ => 0
  end.

Definition is_finite_SF (x : spec_float) : bool :=
  match x with
  | S754_finite _ _ _ | S754_zero _ => true
  | _ => false
  end.

Lemma valid_canonical s m e :
  valid_binary (S754_finite s m e) = true -> canonical (Zpos m) e /\ e <= 971.
Proof.
  simpl; unfold bounded, canonical_mantissa; intros H.
  apply andb_prop in H; destruct H as [H1 H2].
  apply Z.eqb_eq in H1; apply Z.leb_le in H2.
  split; [split; [lia | exact H1] | exact H2].
Qed.

Lemma canonical_valid s m e :
  canonical (Zpos m) e -> e <= 971 -> valid_binary (S754_finite s m e) = true.
Proof.
  intros [_ H1] H2; simpl; unfold bounded, canonical_mantissa.
  apply andb_true_intro; split; [apply Z.eqb_eq; exact H1 | apply Z.leb_le; exact H2].
Qed.

Lemma compare_canonical m1 e1 m2 e2 :
  canonical m1 e1 -> canonical m2 e2 ->
  (m1 * 2 ^ (e1 + 1074) ?= m2 * 2 ^ (e2 + 1074)) =
  match e1 ?= e2 with
  | Lt => Lt
  | Gt => Gt
  | Eq => m1 ?= m2
  end.
Proof.
  intros C1 C2.
  pose proof (canonical_cases _ _ C1) as [He1 [Hm1 Hn1]].
  pose proof (canonical_cases _ _ C2) as [He2 [Hm2 Hn2]].
  destruct C1 as [P1 _], C2 as [P2 _].
  assert (Hc53 : (2:Z) ^ 53 = 2 * 2 ^ 52) by reflexivity.
  assert (Hc52 : 0 < (2:Z) ^ 52) by reflexivity.
  destruct (Z.compare_spec e1 e2) as [E|E|E].
  - subst e2. symmetry; apply Zmult_compare_compat_r. apply Z.lt_gt, pow2_pos; lia.
  - apply Z.compare_lt_iff.
    pose proof (pow2_pos (e1 + 1074) ltac:(lia)) as HA.
    replace (e2 + 1074) with ((e1 + 1074) + (e2 - e1)) by lia.
    rewrite (pow2_split (e1 + 1074) (e2 - e1)) by lia.
    assert (HB : 2 ^ 1 <= 2 ^ (e2 - e1)) by (apply pow2_le; lia).
    change (2 ^ 1) with 2 in HB.
    destruct Hn2 as [|Hn2]; [lia|].
    set (A := 2 ^ (e1 + 1074)) in *; set (B := 2 ^ (e2 - e1)) in *.
    assert (m1 * A < 2 ^ 53 * A) by (apply Z.mul_lt_mono_pos_r; lia).
    assert (2 ^ 52 * A <= m2 * A) by (apply Z.mul_le_mono_nonneg_r; lia).
    assert (m2 * A * 2 <= m2 * A * B) by (apply Z.mul_le_mono_nonneg_l; nia).
    lia.
  - apply Z.compare_gt_iff.
    pose proof (pow2_pos (e2 + 1074) ltac:(lia)) as HA.
    replace (e1 + 1074) with ((e2 + 1074) + (e1 - e2)) by lia.
    rewrite (pow2_split (e2 + 1074) (e1 - e2)) by lia.
    assert (HB : 2 ^ 1 <= 2 ^ (e1 - e2)) by (apply pow2_le; lia).
    change (2 ^ 1) with 2 in HB.
    destruct Hn1 as [|Hn1]; [lia|].
    set (A := 2 ^ (e2 + 1074)) in *; set (B := 2 ^ (e1 - e2)) in *.
    assert (m2 * A < 2 ^ 53 * A) by (apply Z.mul_lt_mono_pos_r; lia).
    assert (2 ^ 52 * A <= m1 * A) by (apply Z.mul_le_mono_nonneg_r; lia).
    assert (m1 * A * 2 <= m1 * A * B) by (apply Z.mul_le_mono_nonneg_l; nia).
    lia.
Qed.

Lemma Zv_pos_finite m e : canonical (Zpos m) e -> 0 < Zpos m * 2 ^ (e + 1074).
Proof.
  intros C; pose proof (canonical_cases _ _ C) as [He _].
  pose proof (pow2_pos (e + 1074) ltac:(lia)); nia.
Qed.

Lemma SFcompare_Zv a b :
  valid_binary a = true -> valid_binary b = true ->
  is_finite_SF a = true -> is_finite_SF b = true ->
  SFcompare a b = Some (Zv a ?= Zv b).
Proof.
  destruct a as [sa|sa| |sa ma ea], b as [sb|sb| |sb mb eb];
    try discriminate; intros Va Vb _ _.
  - reflexivity.
  - apply valid_canonical in Vb; destruct Vb as [Cb _].
    pose proof (Zv_pos_finite _ _ Cb).
    unfold SFcompare, Zv; destruct sb; f_equal; symmetry;
      [apply Z.compare_gt_iff | apply Z.compare_lt_iff]; lia.
  - apply valid_canonical in Va; destruct Va as [Ca _].
    pose proof (Zv_pos_finite _ _ Ca).
    unfold SFcompare, Zv; destruct sa; f_equal; symmetry;
      [apply Z.compare_lt_iff | apply Z.compare_gt_iff]; lia.
  - apply valid_canonical in Va; destruct Va as [Ca _].
    apply valid_canonical in Vb; destruct Vb as [Cb _].
    pose proof (Zv_pos_finite _ _ Ca); pose proof (Zv_pos_finite _ _ Cb).
    pose proof (compare_canonical _ _ _ _ Ca Cb) as Hc.
    unfold SFcompare, Zv.
    change (Pos.compare_cont Eq ma mb) with (Zpos ma ?= Zpos mb).
    destruct sa, sb; f_equal; symmetry.
    + rewrite Z.compare_opp, (Z.compare_antisym (Zpos ma * _)), Hc.
      destruct (ea ?= eb); reflexivity.
    + apply Z.compare_lt_iff; lia.
    + apply Z.compare_gt_iff; lia.
    + exact Hc.
Qed.


(** ** Rounding is monotone *)

Lemma Zdigits2_shift M t : 0 < M -> 0 <= t -> Zdigits2 (M * 2 ^ t) = Zdigits2 M + t.
Proof.
  intros HM Ht.
  pose proof (Zdigits2_bounds M HM) as [H1 H2].
  pose proof (Zdigits2_pos M HM) as Hd.
  pose proof (pow2_pos t Ht) as Hp.
  apply Zdigits2_unique; [lia|].
  replace (Zdigits2 M + t - 1) with ((Zdigits2 M - 1) + t) by lia.
  rewrite !pow2_split by lia.
  split; [apply Z.mul_le_mono_nonneg_r | apply Z.mul_lt_mono_pos_r]; lia.
Qed.

Lemma rexp_shift M e t : 0 < M -> 0 <= t -> rexp (M * 2 ^ t) (e - t) = rexp M e.
Proof.
  intros HM Ht; unfold rexp; rewrite Zdigits2_shift by assumption.
  f_equal; lia.
Qed.

Lemma round_core_scale M e t :
  0 < M -> 0 <= t -> e <= rexp M e ->
  round_core (M * 2 ^ t) (e - t) = round_core M e.
Proof.
  intros HM Ht He.
  pose proof (rexp_shift M e t HM Ht) as Hr; unfold rexp in *.
  unfold round_core, shift_of; rewrite Hr.
  set (E := fexp prec emax (Zdigits2 M + e)) in *.
  replace (Z.max 0 (E - (e - t))) with (E - e + t) by lia.
  replace (Z.max 0 (E - e)) with (E - e) by lia.
  rewrite rne_scale by lia.
  replace (e - t + (E - e + t)) with (e + (E - e)) by lia.
  reflexivity.
Qed.

Lemma rexp_mono M1 M2 e : 0 < M1 -> M1 <= M2 -> rexp M1 e <= rexp M2 e.
Proof.
  intros H1 H2; unfold rexp; rewrite !fexp_eq.
  pose proof (Zdigits2_mono M1 M2 H1 H2); lia.
Qed.

(** The value, in units of [2 ^ -1074], of a rounding result. *)
Lemma rounded_value M e m2 e2 :
  rounded M e m2 e2 ->
  -1074 <= rexp M e /\
  m2 * 2 ^ (e2 + 1074) = rne M (rexp M e - e) * 2 ^ (rexp M e + 1074).
Proof.
  intros [Hexp Hval _ _ _].
  assert (He : -1074 <= rexp M e) by (unfold rexp; rewrite fexp_eq; lia).
  split; [exact He|].
  rewrite <- Hval, <- Z.mul_assoc, <- pow2_split by lia.
  do 2 f_equal; lia.
Qed.

Lemma round_core_mono M1 M2 e :
  0 < M1 -> M1 <= M2 -> e <= rexp M1 e ->
  fst (round_core M1 e) * 2 ^ (snd (round_core M1 e) + 1074)
  <= fst (round_core M2 e) * 2 ^ (snd (round_core M2 e) + 1074).
Proof.
  intros H1 H12 He.
  pose proof (rexp_mono M1 M2 e H1 H12) as HE.
  pose proof (round_core_spec M1 e H1 He) as R1.
  pose proof (round_core_spec M2 e ltac:(lia) ltac:(fold (rexp M2 e); lia)) as R2.
  destruct (rounded_value _ _ _ _ R1) as [G1 ->].
  destruct (rounded_value _ _ _ _ R2) as [G2 ->].
  destruct R1 as [_ _ Hhi1 _ _], R2 as [_ _ _ Hlo2 _].
  set (E1 := rexp M1 e) in *; set (E2 := rexp M2 e) in *.
  assert (E1 = E2 \/ E1 < E2) as [E|E] by lia.
  - rewrite <- E in *.
    apply Z.mul_le_mono_nonneg_r; [pose proof (pow2_pos (E1 + 1074)); lia|].
    apply rne_mono; lia.
  - destruct Hlo2 as [|Hlo2]; [lia|].
    pose proof (pow2_pos (E1 + 1074) ltac:(lia)) as HA.
    replace (E2 + 1074) with ((E1 + 1074) + (E2 - E1)) by lia.
    rewrite (pow2_split (E1 + 1074) (E2 - E1)) by lia.
    assert (HB : 2 ^ 1 <= 2 ^ (E2 - E1)) by (apply pow2_le; lia).
    change (2 ^ 1) with 2 in HB.
    assert (Hc53 : (2:Z) ^ 53 = 2 * 2 ^ 52) by reflexivity.
    set (A := 2 ^ (E1 + 1074)) in *; set (B := 2 ^ (E2 - E1)) in *.
    set (r1 := rne M1 (E1 - e)) in *; set (r2 := rne M2 (E2 - e)) in *.
    assert (r1 * A <= 2 ^ 53 * A) by (apply Z.mul_le_mono_nonneg_r; lia).
    assert (2 ^ 52 * A <= r2 * A) by (apply Z.mul_le_mono_nonneg_r; lia).
    assert (r2 * A * 2 <= r2 * A * B) by (apply Z.mul_le_mono_nonneg_l; nia).
    lia.
Qed.

(** The exact value [M1 * 2 ^ e1] is at most [M2 * 2 ^ e2]. *)
Definition dyadic_le (M1 e1 M2 e2 : Z) : Prop :=
  M1 * 2 ^ (e1 - Z.min e1 e2) <= M2 * 2 ^ (e2 - Z.min e1 e2).

Lemma of_core_leb m1 e1 m2 e2 :
  (m1 = 0 \/ canonical m1 e1) -> (m2 = 0 \/ canonical m2 e2) ->
  m1 * 2 ^ (e1 + 1074) <= m2 * 2 ^ (e2 + 1074) ->
  SFleb (of_core false (m1, e1)) (of_core false (m2, e2)) = true.
Proof.
  intros C1 C2 Hv; unfold of_core; cbn [fst snd].
  change (emax - prec) with 971.
  destruct C2 as [-> | C2].
  - destruct C1 as [-> | C1]; [reflexivity|].
    destruct C1 as [P1 C1]; pose proof (Zv_pos_finite (Z.to_pos m1) e1) as H.
    rewrite Z2Pos.id in H by lia. specialize (H (conj P1 C1)). simpl in Hv; lia.
  - pose proof (canonical_cases _ _ C2) as [He2 [Hm2 Hn2]].
    destruct C2 as [P2 C2]; destruct m2 as [|p2|p2]; try lia.
    destruct (Z.leb_spec e2 971) as [L2|L2].
    + destruct C1 as [-> | C1].
      * reflexivity.
      * pose proof (canonical_cases _ _ C1) as [He1 [Hm1 Hn1]].
        destruct C1 as [P1 C1]; destruct m1 as [|p1|p1]; try lia.
        assert (L1 : e1 <= e2).
        { destruct (Z_le_gt_dec e1 e2) as [|G]; [assumption | exfalso].
          destruct Hn1 as [|Hn1]; [lia|].
          pose proof (pow2_pos (e2 + 1074) ltac:(lia)) as HA.
          replace (e1 + 1074) with ((e2 + 1074) + (e1 - e2)) in Hv by lia.
          rewrite (pow2_split (e2 + 1074) (e1 - e2)) in Hv by lia.
          assert (HB : 2 ^ 1 <= 2 ^ (e1 - e2)) by (apply pow2_le; lia).
          change (2 ^ 1) with 2 in HB.
          assert (Hc53 : (2:Z) ^ 53 = 2 * 2 ^ 52) by reflexivity.
          set (A := 2 ^ (e2 + 1074)) in *; set (B := 2 ^ (e1 - e2)) in *.
          assert (Z.pos p2 * A < 2 ^ 53 * A) by (apply Z.mul_lt_mono_pos_r; lia).
          assert (2 ^ 52 * A <= Z.pos p1 * A) by (apply Z.mul_le_mono_nonneg_r; lia).
          assert (Z.pos p1 * A * 2 <= Z.pos p1 * A * B) by (apply Z.mul_le_mono_nonneg_l; nia).
          lia. }
        destruct (Z.leb_spec e1 971) as [L1'|L1']; [|lia].
        unfold SFleb; rewrite SFcompare_Zv; try reflexivity;
          try (apply canonical_valid; [split|]; assumption).
        unfold Zv. destruct (Z.compare_spec (Z.pos p1 * 2 ^ (e1 + 1074)) (Z.pos p2 * 2 ^ (e2 + 1074)));
          try reflexivity; lia.
    + destruct C1 as [-> | C1]; [reflexivity|].
      destruct C1 as [P1 C1]; destruct m1 as [|p1|p1]; try lia.
      destruct (e1 <=? 971); reflexivity.
Qed.

Theorem round_mono M1 e1 M2 e2 :
  0 < M1 -> e1 <= rexp M1 e1 -> e2 <= rexp M2 e2 ->
  dyadic_le M1 e1 M2 e2 ->
  SFleb (of_core false (round_core M1 e1)) (of_core false (round_core M2 e2)) = true.
Proof.
  intros H1 He1 He2 Hle; unfold dyadic_le in Hle.
  set (c := Z.min e1 e2) in *.
  pose proof (pow2_pos (e1 - c) ltac:(lia)) as P1.
  pose proof (pow2_pos (e2 - c) ltac:(lia)) as P2.
  assert (H2 : 0 < M2) by nia.
  rewrite <- (round_core_scale M1 e1 (e1 - c)) by lia.
  rewrite <- (round_core_scale M2 e2 (e2 - c)) by lia.
  replace (e1 - (e1 - c)) with c by lia.
  replace (e2 - (e2 - c)) with c by lia.
  assert (Hc1 : c <= rexp (M1 * 2 ^ (e1 - c)) c).
  { rewrite <- (rexp_shift M1 e1 (e1 - c)) in He1 by lia.
    replace (e1 - (e1 - c)) with c in He1 by lia. lia. }
  assert (Hc2 : c <= rexp (M2 * 2 ^ (e2 - c)) c).
  { rewrite <- (rexp_shift M2 e2 (e2 - c)) in He2 by lia.
    replace (e2 - (e2 - c)) with c in He2 by lia. lia. }
  assert (Q1 : 0 < M1 * 2 ^ (e1 - c)) by (apply Z.mul_pos_pos; lia).
  assert (Q2 : 0 < M2 * 2 ^ (e2 - c)) by (apply Z.mul_pos_pos; lia).
  pose proof (round_core_spec _ _ Q1 Hc1) as R1.
  pose proof (round_core_spec _ _ Q2 Hc2) as R2.
  pose proof (round_core_mono _ _ c Q1 Hle Hc1) as Hm.
  destruct (round_core (M1 * 2 ^ (e1 - c)) c) as [m1 x1].
  destruct (round_core (M2 * 2 ^ (e2 - c)) c) as [m2 x2].
  cbn [fst snd] in *.
  apply of_core_leb; [apply R1 | apply R2 | exact Hm].
Qed.


(** ** Products and sums of positive numbers *)

Lemma dyadic_le_base M1 e1 M2 e2 c :
  c <= e1 -> c <= e2 ->
  M1 * 2 ^ (e1 - c) <= M2 * 2 ^ (e2 - c) -> dyadic_le M1 e1 M2 e2.
Proof.
  intros H1 H2 H; unfold dyadic_le.
  set (k := Z.min e1 e2) in *.
  pose proof (pow2_pos (k - c) ltac:(lia)) as Hp.
  replace (e1 - c) with ((e1 - k) + (k - c)) in H by lia.
  replace (e2 - c) with ((e2 - k) + (k - c)) in H by lia.
  rewrite (pow2_split (e1 - k) (k - c)), (pow2_split (e2 - k) (k - c)) in H by lia.
  rewrite !Z.mul_assoc in H.
  apply Z.mul_le_mono_pos_r in H; assumption.
Qed.

Lemma Zv_dyadic_le m1 e1 m2 e2 :
  -1074 <= e1 -> -1074 <= e2 ->
  Zpos m1 * 2 ^ (e1 + 1074) <= Zpos m2 * 2 ^ (e2 + 1074) ->
  dyadic_le (Zpos m1) e1 (Zpos m2) e2.
Proof.
  intros H1 H2 H; apply (dyadic_le_base _ _ _ _ (-1074)); try lia.
  replace (e1 - -1074) with (e1 + 1074) by lia.
  replace (e2 - -1074) with (e2 + 1074) by lia. exact H.
Qed.

Lemma dyadic_le_exp m1 e1 m2 e2 :
  canonical m1 e1 -> canonical m2 e2 ->
  m1 * 2 ^ (e1 + 1074) <= m2 * 2 ^ (e2 + 1074) -> e1 <= e2.
Proof.
  intros C1 C2 H.
  pose proof (compare_canonical _ _ _ _ C1 C2) as Hc.
  destruct (Z.compare_spec e1 e2); try lia.
  apply Z.compare_gt_iff in Hc; lia.
Qed.

Lemma digits_ge_53 M : 2 ^ 52 <= M -> 53 <= Zdigits2 M.
Proof.
  intros H; change 53 with (Zdigits2 (2 ^ 52)).
  apply Zdigits2_mono; [reflexivity | exact H].
Qed.

Lemma mul_rexp mx ex my ey :
  canonical mx ex -> canonical my ey -> ex + ey <= rexp (mx * my) (ex + ey).
Proof.
  intros Cx Cy.
  pose proof (canonical_cases _ _ Cx) as [Hex [_ Hnx]].
  pose proof (canonical_cases _ _ Cy) as [Hey [_ Hny]].
  destruct Cx as [Px _], Cy as [Py _].
  unfold rexp; rewrite fexp_eq.
  destruct (Z_le_gt_dec (ex + ey) (-1074)) as [|G]; [lia|].
  assert (2 ^ 52 <= mx * my).
  { destruct Hnx as [|Hnx]; [destruct Hny as [|Hny]; [lia|]|]; nia. }
  pose proof (digits_ge_53 _ H); lia.
Qed.

Lemma SFmul_pos mx ex my ey :
  canonical (Zpos mx) ex -> canonical (Zpos my) ey ->
  SFmul prec emax (S754_finite false mx ex) (S754_finite false my ey)
  = of_core false (round_core (Zpos mx * Zpos my) (ex + ey)).
Proof.
  intros _ _; unfold SFmul; cbn [xorb].
  rewrite binary_round_aux_core by lia; reflexivity.
Qed.

Lemma iter_xO m d : Zpos (Pos.iter xO m d) = Zpos m * 2 ^ Zpos d.
Proof.
  induction d as [|d IH] using Pos.peano_ind.
  - simpl; lia.
  - rewrite Pos.iter_succ, Pos2Z.inj_xO, IH, Pos2Z.inj_succ, Z.pow_succ_r by lia. ring.
Qed.

Lemma shl_align_fst m e e' :
  e' <= e -> Zpos (fst (shl_align m e e')) = Zpos m * 2 ^ (e - e').
Proof.
  intros H; unfold shl_align.
  destruct (e' - e) as [|p|p] eqn:E; cbn [fst].
  - replace (e - e') with 0 by lia; simpl; lia.
  - lia.
  - rewrite iter_xO; f_equal; f_equal; lia.
Qed.

Lemma binary_round_core sx m e :
  e <= rexp (Zpos m) e ->
  binary_round prec emax sx m e = of_core sx (round_core (Zpos m) e).
Proof.
  intros H; unfold binary_round, shl_align; unfold rexp in H; cbn [Zdigits2] in H.
  destruct (fexp prec emax (Z.pos (digits2_pos m) + e) - e) as [|p|p] eqn:E; try lia;
    apply binary_round_aux_core; lia.
Qed.

(** The aligned sum of two positive numbers. *)
Definition aligned_sum (mx : positive) (ex : Z) (my : positive) (ey : Z) : Z :=
  Zpos mx * 2 ^ (ex - Z.min ex ey) + Zpos my * 2 ^ (ey - Z.min ex ey).

Lemma aligned_sum_pos mx ex my ey : 0 < aligned_sum mx ex my ey.
Proof.
  unfold aligned_sum.
  pose proof (pow2_pos (ex - Z.min ex ey) ltac:(lia)).
  pose proof (pow2_pos (ey - Z.min ex ey) ltac:(lia)). nia.
Qed.

Lemma add_rexp mx ex my ey :
  canonical (Zpos mx) ex -> canonical (Zpos my) ey ->
  Z.min ex ey <= rexp (aligned_sum mx ex my ey) (Z.min ex ey).
Proof.
  intros [_ Cx] [_ Cy]; unfold rexp, aligned_sum.
  set (ez := Z.min ex ey).
  pose proof (pow2_pos (ex - ez) ltac:(lia)) as Px.
  pose proof (pow2_pos (ey - ez) ltac:(lia)) as Py.
  rewrite fexp_eq in *.
  assert (ez = ex \/ ez = ey) as [E|E] by lia.
  - assert (Zdigits2 (Zpos mx) <= Zdigits2 (Z.pos mx * 2 ^ (ex - ez) + Z.pos my * 2 ^ (ey - ez))).
    { apply Zdigits2_mono; [lia|]. nia. }
    lia.
  - assert (Zdigits2 (Zpos my) <= Zdigits2 (Z.pos mx * 2 ^ (ex - ez) + Z.pos my * 2 ^ (ey - ez))).
    { apply Zdigits2_mono; [lia|]. nia. }
    lia.
Qed.

Lemma SFadd_pos mx ex my ey :
  canonical (Zpos mx) ex -> canonical (Zpos my) ey ->
  SFadd prec emax (S754_finite false mx ex) (S754_finite false my ey)
  = of_core false (round_core (aligned_sum mx ex my ey) (Z.min ex ey)).
Proof.
  intros Cx Cy; unfold SFadd; cbn [cond_Zopp].
  rewrite !shl_align_fst by lia.
  pose proof (aligned_sum_pos mx ex my ey) as Hp.
  pose proof (add_rexp mx ex my ey Cx Cy) as Hr.
  unfold aligned_sum in *.
  destruct (Z.pos mx * 2 ^ (ex - Z.min ex ey) + Z.pos my * 2 ^ (ey - Z.min ex ey))
    as [|s|s] eqn:E; try lia.
  unfold binary_normalize; apply binary_round_core; exact Hr.
Qed.


(** ** Monotonicity of the product and the sum on numbers that are not negative *)

Definition nonneg_SF (x : spec_float) : bool :=
  match x with
  | S754_zero _ | S754_finite false _ _ => true
  | _ => false
  end.

Lemma round_core_id m e :
  canonical m e -> round_core m e = (m, e).
Proof.
  intros [Hm Hc]; unfold round_core.
  assert (Hs : shift_of m e = 0) by (unfold shift_of; lia).
  rewrite Hs, rne_0, Z.add_0_r, Hs, Z.add_0_r; simpl (2 ^ 0); rewrite Z.div_1_r; reflexivity.
Qed.

Lemma of_core_id m e :
  canonical (Zpos m) e -> e <= 971 ->
  of_core false (round_core (Zpos m) e) = S754_finite false m e.
Proof.
  intros C He; rewrite round_core_id by assumption.
  unfold of_core; cbn [fst snd]; change (emax - prec) with 971.
  destruct (Z.leb_spec e 971); [reflexivity | lia].
Qed.

Lemma zero_leb_of_core s M e :
  0 < M -> e <= rexp M e -> SFleb (S754_zero s) (of_core false (round_core M e)) = true.
Proof.
  intros HM He; pose proof (round_core_spec M e HM He) as [_ _ _ _ Hc].
  unfold of_core; destruct Hc as [-> | [Hp _]]; [reflexivity|].
  destruct (fst (round_core M e)); try lia.
  destruct (_ <=? _); reflexivity.
Qed.

Lemma SFleb_Zv x y :
  valid_binary x = true -> valid_binary y = true ->
  is_finite_SF x = true -> is_finite_SF y = true ->
  SFleb x y = true -> Zv x <= Zv y.
Proof.
  intros Vx Vy Fx Fy; unfold SFleb; rewrite SFcompare_Zv by assumption.
  destruct (Z.compare_spec (Zv x) (Zv y)); try discriminate; lia.
Qed.

Theorem SFmul_mono x y mc ec :
  valid_binary x = true -> valid_binary y = true ->
  valid_binary (S754_finite false mc ec) = true ->
  nonneg_SF x = true -> nonneg_SF y = true -> SFleb x y = true ->
  SFleb (SFmul prec emax x (S754_finite false mc ec))
        (SFmul prec emax y (S754_finite false mc ec)) = true.
Proof.
  intros Vx Vy Vc Nx Ny Hle.
  apply valid_canonical in Vc; destruct Vc as [Cc _].
  destruct x as [sx|sx| |[|] mx ex], y as [sy|sy| |[|] my ey]; try discriminate.
  - reflexivity.
  - pose proof (valid_canonical _ _ _ Vy) as [Cy _].
    rewrite SFmul_pos by assumption.
    apply zero_leb_of_core; [lia | apply mul_rexp; assumption].
  - pose proof (SFleb_Zv _ _ Vx Vy eq_refl eq_refl Hle) as Hv.
    pose proof (valid_canonical _ _ _ Vx) as [Cx _].
    pose proof (valid_canonical _ _ _ Vy) as [Cy _].
    rewrite !SFmul_pos by assumption.
    pose proof (canonical_cases _ _ Cx) as [Hex _].
    pose proof (canonical_cases _ _ Cy) as [Hey _].
    pose proof (canonical_cases _ _ Cc) as [Hec _].
    apply round_mono; try lia; try (apply mul_rexp; assumption).
    apply (dyadic_le_base _ _ _ _ (-1074 + ec)); try lia.
    replace (ex + ec - (-1074 + ec)) with (ex + 1074) by lia.
    replace (ey + ec - (-1074 + ec)) with (ey + 1074) by lia.
    cbn [Zv] in Hv.
    replace (Z.pos mx * Z.pos mc * 2 ^ (ex + 1074))
      with (Z.pos mc * (Z.pos mx * 2 ^ (ex + 1074))) by ring.
    replace (Z.pos my * Z.pos mc * 2 ^ (ey + 1074))
      with (Z.pos mc * (Z.pos my * 2 ^ (ey + 1074))) by ring.
    apply Z.mul_le_mono_nonneg_l; lia.
Qed.

Theorem SFadd_mono mc ec x y :
  valid_binary x = true -> valid_binary y = true ->
  valid_binary (S754_finite false mc ec) = true ->
  nonneg_SF x = true -> nonneg_SF y = true -> SFleb x y = true ->
  SFleb (SFadd prec emax (S754_finite false mc ec) x)
        (SFadd prec emax (S754_finite false mc ec) y) = true.
Proof.
  intros Vx Vy Vc Nx Ny Hle.
  pose proof (valid_canonical _ _ _ Vc) as [Cc Lc].
  pose proof (canonical_cases _ _ Cc) as [Hec _].
  assert (Hrefl : SFleb (S754_finite false mc ec) (S754_finite false mc ec) = true).
  { unfold SFleb; rewrite SFcompare_Zv by (assumption || reflexivity).
    rewrite Z.compare_refl; reflexivity. }
  destruct x as [sx|sx| |[|] mx ex], y as [sy|sy| |[|] my ey]; try discriminate.
  - exact Hrefl.
  - pose proof (valid_canonical _ _ _ Vy) as [Cy _].
    pose proof (canonical_cases _ _ Cy) as [Hey _].
    cbn [SFadd]. fold (SFadd prec emax (S754_finite false mc ec) (S754_finite false my ey)).
    rewrite SFadd_pos by assumption.
    rewrite <- (of_core_id mc ec Cc Lc).
    apply round_mono; try lia.
    + destruct Cc as [_ Cc]; unfold rexp; rewrite Cc; lia.
    + apply add_rexp; assumption.
    + apply (dyadic_le_base _ _ _ _ (Z.min ec ey)); try lia.
      unfold aligned_sum. replace (Z.min ec ey - Z.min ec ey) with 0 by lia.
      pose proof (pow2_pos (ey - Z.min ec ey) ltac:(lia)).
      simpl (2 ^ 0); nia.
  - pose proof (SFleb_Zv _ _ Vx Vy eq_refl eq_refl Hle) as Hv; cbn [Zv] in Hv.
    pose proof (valid_canonical _ _ _ Vx) as [Cx _].
    pose proof (valid_canonical _ _ _ Vy) as [Cy _].
    pose proof (canonical_cases _ _ Cx) as [Hex _].
    pose proof (canonical_cases _ _ Cy) as [Hey _].
    pose proof (dyadic_le_exp _ _ _ _ Cx Cy Hv) as Hexy.
    rewrite !SFadd_pos by assumption.
    apply round_mono; try (apply add_rexp; assumption); try apply aligned_sum_pos.
    apply (dyadic_le_base _ _ _ _ (-1074)); try lia.
    unfold aligned_sum.
    set (a := Z.min ec ex); set (b := Z.min ec ey).
    rewrite !Z.mul_add_distr_r, <- !Z.mul_assoc, <- !pow2_split by lia.
    replace (ec - a + (a - -1074)) with (ec + 1074) by lia.
    replace (ec - b + (b - -1074)) with (ec + 1074) by lia.
    replace (ex - a + (a - -1074)) with (ex + 1074) by lia.
    replace (ey - b + (b - -1074)) with (ey + 1074) by lia.
    lia.
Qed.

(** ** The sign of a difference *)

Lemma round_core_pos M e :
  0 < M -> -1074 <= e -> e <= rexp M e -> 0 < fst (round_core M e).
Proof.
  intros HM He Hr.
  pose proof (round_core_spec M e HM Hr) as [Hexp Hval _ Hlo _].
  assert (Hrne : 0 < rne M (rexp M e - e)).
  { destruct Hlo as [E | Hlo].
    - replace (rexp M e - e) with 0 by lia. rewrite rne_0; exact HM.
    - pose proof (pow2_pos 52 ltac:(lia)); lia. }
  pose proof (pow2_pos (snd (round_core M e) - rexp M e) ltac:(lia)).
  nia.
Qed.

Lemma binary_round_shape sx m e :
  exists M e', binary_round prec emax sx m e = of_core sx (round_core M e') /\
    0 < M /\ e' <= rexp M e' /\ (-1074 <= e -> -1074 <= e').
Proof.
  unfold binary_round.
  pose proof (shl_align_fst m e (fexp prec emax (Z.pos (digits2_pos m) + e))) as Hs.
  unfold shl_align in *.
  destruct (fexp prec emax (Z.pos (digits2_pos m) + e) - e) as [|d|d] eqn:E.
  - exists (Zpos m), e; split; [apply binary_round_aux_core; lia|].
    split; [lia|]. unfold rexp; cbn [Zdigits2]; lia.
  - exists (Zpos m), e; split; [apply binary_round_aux_core; lia|].
    split; [lia|]. unfold rexp; cbn [Zdigits2]; lia.
  - cbn [fst] in Hs.
    exists (Zpos (Pos.iter xO m d)), (fexp prec emax (Z.pos (digits2_pos m) + e)).
    split; [apply binary_round_aux_core; lia|].
    split; [lia|]. split.
    + rewrite Hs by lia.
      set (E' := fexp prec emax (Z.pos (digits2_pos m) + e)) in *.
      pose proof (rexp_shift (Zpos m) e (e - E') ltac:(lia) ltac:(lia)) as Hsh.
      replace (e - (e - E')) with E' in Hsh by lia.
      rewrite Hsh; unfold rexp; cbn [Zdigits2]; fold E'; lia.
    + intros _; rewrite fexp_eq; lia.
Qed.

Lemma binary_round_positive m e :
  -1074 <= e -> SFltb (S754_zero false) (binary_round prec emax false m e) = true.
Proof.
  intros He.
  destruct (binary_round_shape false m e) as [M [e' [-> [HM [Hr He']]]]].
  pose proof (round_core_pos M e' HM (He' He) Hr) as Hp.
  unfold of_core; destruct (fst (round_core M e')); try lia.
  destruct (_ <=? _); reflexivity.
Qed.

Lemma binary_round_negative m e :
  SFltb (S754_zero false) (binary_round prec emax true m e) = false.
Proof.
  destruct (binary_round_shape true m e) as [M [e' [-> _]]].
  unfold of_core; destruct (fst (round_core M e')); try reflexivity.
  destruct (_ <=? _); reflexivity.
Qed.

(** [x - y > 0] exactly when [y < x], on positive finite numbers. *)
Theorem SFsub_sign mx ex my ey :
  valid_binary (S754_finite false mx ex) = true ->
  valid_binary (S754_finite false my ey) = true ->
  SFltb (S754_zero false)
        (SFsub prec emax (S754_finite false mx ex) (S754_finite false my ey))
  = SFltb (S754_finite false my ey) (S754_finite false mx ex).
Proof.
  intros Vx Vy.
  pose proof (valid_canonical _ _ _ Vx) as [Cx _].
  pose proof (valid_canonical _ _ _ Vy) as [Cy _].
  pose proof (canonical_cases _ _ Cx) as [Hex _].
  pose proof (canonical_cases _ _ Cy) as [Hey _].
  unfold SFltb at 2; rewrite SFcompare_Zv by (assumption || reflexivity).
  cbn [Zv]; unfold SFsub; cbn [cond_Zopp].
  rewrite !shl_align_fst by lia.
  set (ez := Z.min ex ey).
  pose proof (pow2_pos (ez + 1074) ltac:(lia)) as Hp.
  assert (Hx : Z.pos mx * 2 ^ (ex + 1074) = Z.pos mx * 2 ^ (ex - ez) * 2 ^ (ez + 1074)).
  { rewrite <- Z.mul_assoc, <- pow2_split by lia. do 2 f_equal; lia. }
  assert (Hy : Z.pos my * 2 ^ (ey + 1074) = Z.pos my * 2 ^ (ey - ez) * 2 ^ (ez + 1074)).
  { rewrite <- Z.mul_assoc, <- pow2_split by lia. do 2 f_equal; lia. }
  rewrite Hx, Hy.
  set (X := Z.pos mx * 2 ^ (ex - ez)); set (Y := Z.pos my * 2 ^ (ey - ez)).
  destruct (X - Y) as [|d|d] eqn:E; unfold binary_normalize.
  - replace X with Y by lia; rewrite Z.compare_refl; reflexivity.
  - rewrite binary_round_positive by lia.
    assert (Y * 2 ^ (ez + 1074) < X * 2 ^ (ez + 1074)) by nia.
    destruct (Z.compare_spec (Y * 2 ^ (ez + 1074)) (X * 2 ^ (ez + 1074))); try lia; reflexivity.
  - rewrite binary_round_negative.
    assert (X * 2 ^ (ez + 1074) < Y * 2 ^ (ez + 1074)) by nia.
    destruct (Z.compare_spec (Y * 2 ^ (ez + 1074)) (X * 2 ^ (ez + 1074))); try lia; reflexivity.
Qed.

(** ** Results that are never negative *)

(** Zero, a positive finite number or plus infinity. *)
Definition nnSF (x : spec_float) : bool :=
  match x with
  | S754_zero _ | S754_finite false _ _ | S754_infinity false => true
  | _ => false
  end.

Definition notNaN (x : spec_float) : bool :=
  match x with
  | S754_nan => false
  | _ => true
  end.

Lemma shr_1_nonneg mrs : 0 <= shr_m mrs -> 0 <= shr_m (shr_1 mrs).
Proof.
  destruct mrs as [m r s]; cbn [shr_m]; intros H.
  destruct m as [|[p|p|]|p]; cbn [shr_1 shr_m]; lia.
Qed.

Lemma iter_shr_nonneg (p : positive) : forall mrs,
  0 <= shr_m mrs -> 0 <= shr_m (iter_pos shr_1 p mrs).
Proof.
  induction p as [p IH | p IH |]; intros mrs H; simpl iter_pos.
  - apply IH, IH, shr_1_nonneg, H.
  - apply IH, IH, H.
  - apply shr_1_nonneg, H.
Qed.

Lemma shr_fexp_nonneg m e l :
  0 <= m -> 0 <= shr_m (fst (shr_fexp prec emax m e l)).
Proof.
  intros Hm; unfold shr_fexp, shr.
  assert (H0 : 0 <= shr_m (shr_record_of_loc m l))
    by (destruct l as [|[| |]]; exact Hm).
  destruct (fexp prec emax (Zdigits2 m + e) - e); cbn [fst]; try exact H0.
  apply iter_shr_nonneg, H0.
Qed.

Lemma round_nearest_even_nonneg m l : 0 <= m -> 0 <= round_nearest_even m l.
Proof.
  intros H; destruct l as [|[| |]]; cbn [round_nearest_even]; try lia.
  destruct (Z.even m); lia.
Qed.

Lemma binary_round_aux_nn m e l :
  0 <= m -> nnSF (binary_round_aux prec emax false m e l) = true.
Proof.
  intros Hm; unfold binary_round_aux.
  pose proof (shr_fexp_nonneg m e l Hm) as H1.
  destruct (shr_fexp prec emax m e l) as [mrs e1]; cbn [fst] in H1.
  pose proof (shr_fexp_nonneg _ e1 loc_Exact
                (round_nearest_even_nonneg _ (loc_of_shr_record mrs) H1)) as H2.
  destruct (shr_fexp prec emax _ e1 loc_Exact) as [mrs2 e2]; cbn [fst] in H2.
  destruct (shr_m mrs2); try lia; [reflexivity|].
  destruct (_ <=? _); reflexivity.
Qed.

Lemma binary_round_notNaN sx m e : notNaN (binary_round prec emax sx m e) = true.
Proof.
  destruct (binary_round_shape sx m e) as [M [e' [-> [HM [Hr _]]]]].
  pose proof (round_core_spec M e' HM Hr) as [_ _ _ _ Hc].
  unfold of_core; destruct Hc as [-> | [Hp _]]; [reflexivity|].
  destruct (fst (round_core M e')); try lia.
  destruct (_ <=? _); reflexivity.
Qed.

Lemma binary_round_nn m e : nnSF (binary_round prec emax false m e) = true.
Proof.
  destruct (binary_round_shape false m e) as [M [e' [-> [HM [Hr _]]]]].
  pose proof (round_core_spec M e' HM Hr) as [_ _ _ _ Hc].
  unfold of_core; destruct Hc as [-> | [Hp _]]; [reflexivity|].
  destruct (fst (round_core M e')); try lia.
  destruct (_ <=? _); reflexivity.
Qed.

Lemma SFadd_nn x y :
  nnSF x = true -> nnSF y = true -> nnSF (SFadd prec emax x y) = true.
Proof.
  destruct x as [sx|[|]| |[|] mx ex], y as [sy|[|]| |[|] my ey];
    try discriminate; intros _ _; try reflexivity.
  - destruct sx, sy; reflexivity.
  - unfold SFadd; cbn [cond_Zopp].
    destruct (_ + _) as [|d|d] eqn:E; try lia; unfold binary_normalize.
    apply binary_round_nn.
Qed.

Lemma SFdiv_nn x my ey :
  nnSF x = true -> nnSF (SFdiv prec emax x (S754_finite false my ey)) = true.
Proof.
  destruct x as [sx|[|]| |[|] mx ex]; try discriminate; intros _; try reflexivity.
  unfold SFdiv, SFdiv_core_binary; cbn [xorb].
  set (e' := Z.min _ _).
  set (m' := match ex - ey - e' with Z0 => Zpos mx | Zpos _ => Z.shiftl (Zpos mx) (ex - ey - e') | Zneg _ => 0 end).
  assert (Hm : 0 <= m').
  { unfold m'; destruct (ex - ey - e'); try lia. apply Z.shiftl_nonneg; lia. }
  pose proof (Z.div_pos m' (Zpos my) Hm ltac:(lia)) as Hq.
  unfold Z.div in Hq.
  destruct (Z.div_eucl m' (Zpos my)) as [q r]; cbn [fst] in Hq.
  apply binary_round_aux_nn, Hq.
Qed.

Lemma SFsub_notNaN mx ex y :
  nnSF y = true -> notNaN (SFsub prec emax (S754_finite false mx ex) y) = true.
Proof.
  destruct y as [sy|[|]| |[|] my ey]; try discriminate; intros _; try reflexivity.
  unfold SFsub; cbn [cond_Zopp].
  destruct (_ - _) as [|d|d]; unfold binary_normalize;
    [reflexivity | apply binary_round_notNaN | apply binary_round_notNaN].
Qed.

Lemma SFmul_self_nn x : notNaN x = true -> nnSF (SFmul prec emax x x) = true.
Proof.
  destruct x as [s|s| |s m e]; try discriminate; intros _.
  - reflexivity.
  - simpl; destruct s; reflexivity.
  - unfold SFmul. replace (xorb s s) with false by (destruct s; reflexivity).
    apply binary_round_aux_nn; lia.
Qed.

Lemma SFsqrt_nn x : nnSF x = true -> nnSF (SFsqrt prec emax x) = true.
Proof.
  destruct x as [sx|[|]| |[|] mx ex]; try discriminate; intros _; try reflexivity.
  unfold SFsqrt, SFsqrt_core_binary.
  set (m' := match _ - _ with Z0 => Zpos mx | Zpos _ => _ | Zneg _ => 0 end).
  pose proof (Z.sqrt_nonneg m') as Hq.
  rewrite <- Z.sqrtrem_sqrt in Hq.
  destruct (Z.sqrtrem m') as [q r]; cbn [fst] in Hq.
  apply binary_round_aux_nn, Hq.
Qed.

Lemma SFldexp_nn x e : nnSF x = true -> nnSF (SFldexp prec emax x e) = true.
Proof.
  destruct x as [sx|[|]| |[|] mx ex]; try discriminate; intros _; try reflexivity.
  apply binary_round_nn.
Qed.

Lemma binary_normalize_nn m : 0 <= m -> nnSF (binary_normalize prec emax m 0 false) = true.
Proof.
  intros H; destruct m; try lia; [reflexivity | apply binary_round_nn].
Qed.

End Rounding.

(** ** Order-preserving operations *)

Module FloatMono.
Import Rounding FloatOrder.

(** Numbers in [[0, +oo)]. *)
Lemma nonneg_of_bounds x :
  (0 <=? x) = true -> (x <? infinity) = true -> nonneg_SF (Prim2SF x) = true.
Proof.
  rewrite leb_spec, ltb_spec.
  change (Prim2SF 0) with (S754_zero false).
  change (Prim2SF infinity) with (S754_infinity false).
  destruct (Prim2SF x) as [s|s| |s m e]; simpl; try discriminate; try reflexivity.
  - destruct s; discriminate.
  - destruct s; [discriminate | reflexivity].
Qed.

Lemma positive_finite c :
  (0 <? c) = true -> (c <? infinity) = true ->
  exists m e, Prim2SF c = S754_finite false m e.
Proof.
  rewrite !ltb_spec.
  change (Prim2SF 0) with (S754_zero false).
  change (Prim2SF infinity) with (S754_infinity false).
  destruct (Prim2SF c) as [s|s| |s m e]; simpl; try discriminate.
  - destruct s; discriminate.
  - destruct s; [discriminate | eauto].
Qed.

Theorem mul_mono x y c :
  (0 <=? x) = true -> (x <=? y) = true -> (y <? infinity) = true ->
  (0 <? c) = true -> (c <? infinity) = true ->
  (x * c <=? y * c) = true.
Proof.
  intros H0 Hxy Hy Hc0 Hc.
  destruct (positive_finite c Hc0 Hc) as [mc [ec Ec]].
  pose proof (Prim2SF_valid c) as Vc; rewrite Ec in Vc.
  rewrite leb_spec, !mul_spec, Ec; unfold SF64mul.
  apply SFmul_mono; try apply Prim2SF_valid; try assumption.
  - apply nonneg_of_bounds; [assumption | exact (leb_ltb_trans _ _ _ Hxy Hy)].
  - apply nonneg_of_bounds; [exact (leb_trans _ _ _ H0 Hxy) | assumption].
  - rewrite <- leb_spec; assumption.
Qed.

Theorem add_mono c x y :
  (0 <=? x) = true -> (x <=? y) = true -> (y <? infinity) = true ->
  (0 <? c) = true -> (c <? infinity) = true ->
  (c + x <=? c + y) = true.
Proof.
  intros H0 Hxy Hy Hc0 Hc.
  destruct (positive_finite c Hc0 Hc) as [mc [ec Ec]].
  pose proof (Prim2SF_valid c) as Vc; rewrite Ec in Vc.
  rewrite leb_spec, !add_spec, Ec; unfold SF64add.
  apply SFadd_mono; try apply Prim2SF_valid; try assumption.
  - apply nonneg_of_bounds; [assumption | exact (leb_ltb_trans _ _ _ Hxy Hy)].
  - apply nonneg_of_bounds; [exact (leb_trans _ _ _ H0 Hxy) | assumption].
  - rewrite <- leb_spec; assumption.
Qed.

(** The largest number below 1. *)
Definition pred_one : float := 0x1.fffffffffffffp-1.

Lemma SF_below_one s m e m1 m2 :
  Zpos m1 = (2 ^ 52)%Z -> Zpos m2 = (2 ^ 53 - 1)%Z ->
  valid_binary (S754_finite s m e) = true ->
  SFltb (S754_finite s m e) (S754_finite false m1 (-52)) = true ->
  SFleb (S754_finite s m e) (S754_finite false m2 (-53)) = true.
Proof.
  intros E1 E2 V.
  apply valid_canonical in V; destruct V as [C _].
  pose proof (canonical_cases _ _ C) as [He [Hm Hn]].
  unfold SFltb, SFleb, SFcompare; destruct s; [reflexivity|].
  rewrite !Pos.compare_cont_spec; unfold Pos.switch_Eq.
  change (m ?= m1)%positive with (Zpos m ?= Zpos m1)%Z.
  change (m ?= m2)%positive with (Zpos m ?= Zpos m2)%Z.
  rewrite E1, E2.
  destruct (Z.compare_spec e (-52)), (Z.compare_spec e (-53)); try discriminate;
    try reflexivity; try lia;
    destruct (Z.compare_spec (Zpos m) (2 ^ 52)%Z);
    destruct (Z.compare_spec (Zpos m) (2 ^ 53 - 1)%Z);
    try discriminate; try reflexivity; try lia.
Qed.

Lemma below_one x : (x <? 1) = true -> (x <=? pred_one) = true.
Proof.
  rewrite ltb_spec, leb_spec.
  pose proof (Prim2SF_valid x) as V.
  replace (Prim2SF 1) with (S754_finite false 4503599627370496 (-52))
    by (vm_compute; reflexivity).
  replace (Prim2SF pred_one) with (S754_finite false 9007199254740991 (-53))
    by (vm_compute; reflexivity).
  destruct (Prim2SF x) as [s|s| |s m e].
  - intros _; reflexivity.
  - destruct s; [reflexivity | discriminate].
  - discriminate.
  - apply SF_below_one; [reflexivity | reflexivity | exact V].
Qed.


(** Bounds of [a + u * c] for a draw [u] in [[0, 1)]. *)
Lemma affine_bounds a c u :
  (0 <=? u) = true -> (u <? 1) = true ->
  (0 <? a) = true -> (a <? infinity) = true ->
  (0 <? c) = true -> (c <? infinity) = true ->
  (0 <=? 0 * c) = true -> (pred_one * c <? infinity) = true ->
  (a + 0 * c <=? a + u * c) = true /\ (a + u * c <=? a + pred_one * c) = true.
Proof.
  intros Hu0 Hu1 Ha0 Ha Hc0 Hc Hz Hp.
  pose proof (below_one u Hu1) as Hup.
  assert (Hpi : (pred_one <? infinity) = true) by reflexivity.
  pose proof (leb_ltb_trans u pred_one infinity Hup Hpi) as Hui.
  pose proof (mul_mono 0 u c eq_refl Hu0 Hui Hc0 Hc) as L1.
  pose proof (mul_mono u pred_one c Hu0 Hup Hpi Hc0 Hc) as L2.
  pose proof (leb_ltb_trans (u * c) (pred_one * c) infinity L2 Hp) as Hti.
  pose proof (leb_trans 0 (0 * c) (u * c) Hz L1) as Ht0.
  split.
  - exact (add_mono a (0 * c) (u * c) Hz L1 Hti Ha0 Ha).
  - exact (add_mono a (u * c) (pred_one * c) Ht0 L2 Hp Ha0 Ha).
Qed.

Lemma SF_between A V B :
  SFleb A V = true -> SFltb V B = true -> A <> S754_infinity true ->
  is_finite_SF V = true.
Proof.
  unfold SFleb, SFltb; destruct V as [s|s| |s m e]; try reflexivity.
  - destruct s.
    + destruct A as [sa|sa| |sa ma ea]; simpl; try discriminate;
        destruct sa; try discriminate; congruence.
    + intros _; destruct B as [sb|sb| |sb mb eb]; simpl; try discriminate;
        destruct sb; discriminate.
  - destruct A; discriminate.
Qed.

Lemma is_finite_spec v : is_finite_SF (Prim2SF v) = true -> is_finite v = true.
Proof.
  unfold is_finite, is_nan, is_infinity; rewrite !eqb_spec, abs_spec.
  destruct (Prim2SF v) as [s|s| |s m e]; try discriminate; intros _.
  - reflexivity.
  - unfold SFeqb, SFabs, SFcompare.
    rewrite Z.compare_refl, Pos.compare_cont_spec, Pos.compare_refl.
    destruct s; reflexivity.
Qed.

Lemma finite_between a v b :
  (neg_infinity <? a) = true -> (a <=? v) = true -> (v <? b) = true -> is_finite v = true.
Proof.
  rewrite !ltb_spec, leb_spec; intros Ha Hav Hvb.
  apply is_finite_spec, (SF_between _ _ _ Hav Hvb).
  intros E; rewrite E in Ha; discriminate.
Qed.

(** [positive_finite x]: a finite number above zero. *)
Definition positive_number (x : float) : Prop :=
  (0 <? x) = true /\ (x <? infinity) = true.

(** The comparator [a - b] of the sort agrees with [<]. *)
Theorem sub_sign x y :
  positive_number x -> positive_number y -> (0 <? x - y) = (y <? x).
Proof.
  intros [Hx0 Hx] [Hy0 Hy].
  destruct (positive_finite x Hx0 Hx) as [mx [ex Ex]].
  destruct (positive_finite y Hy0 Hy) as [my [ey Ey]].
  pose proof (Prim2SF_valid x) as Vx; rewrite Ex in Vx.
  pose proof (Prim2SF_valid y) as Vy; rewrite Ey in Vy.
  rewrite !ltb_spec, sub_spec, Ex, Ey.
  exact (SFsub_sign mx ex my ey Vx Vy).
Qed.

(** ** Numbers that are never negative *)

(** [nn x]: zero, a positive finite number or plus infinity. *)
Definition nn (x : float) : Prop := nnSF (Prim2SF x) = true.

Lemma positive_nn x : positive_number x -> nn x.
Proof.
  intros [H0 H]; destruct (positive_finite x H0 H) as [m [e E]].
  unfold nn; rewrite E; reflexivity.
Qed.

Lemma nn_leb x : nn x -> (0 <=? x) = true.
Proof.
  unfold nn; rewrite leb_spec; change (Prim2SF 0) with (S754_zero false).
  destruct (Prim2SF x) as [s|[|]| |[|] m e]; try discriminate; reflexivity.
Qed.

Lemma add_nn x y : nn x -> nn y -> nn (x + y).
Proof. unfold nn; rewrite add_spec; apply SFadd_nn. Qed.

Lemma div_nn x y : nn x -> positive_number y -> nn (x / y).
Proof.
  intros Hx [H0 H]; destruct (positive_finite y H0 H) as [m [e E]].
  unfold nn; rewrite div_spec, E; apply SFdiv_nn, Hx.
Qed.

Lemma sub_notNaN x y : positive_number x -> nn y -> notNaN (Prim2SF (x - y)) = true.
Proof.
  intros [H0 H] Hy; destruct (positive_finite x H0 H) as [m [e E]].
  rewrite sub_spec, E; apply SFsub_notNaN, Hy.
Qed.

Lemma mul_self_nn d : notNaN (Prim2SF d) = true -> nn (d * d).
Proof. unfold nn; rewrite mul_spec; apply SFmul_self_nn. Qed.

Lemma sqrt_nn x : nn x -> nn (sqrt x).
Proof. unfold nn; rewrite sqrt_spec; apply SFsqrt_nn. Qed.

Lemma SF2Prim_nn R : nnSF R = true -> nn (SF2Prim R).
Proof.
  destruct R as [s|[|]| |[|] m e]; try discriminate; intros _.
  - destruct s; reflexivity.
  - reflexivity.
  - unfold nn, SF2Prim; rewrite Z_ldexp_spec, of_uint63_spec.
    apply SFldexp_nn, binary_normalize_nn.
    apply Uint63.to_Z_bounded.
Qed.

End FloatMono.

(** ** The outcome generator *)

(** [in01 x]: [x] is a draw of the random source, a number in [[0, 1)]. *)
Definition in01 (x : float) : Prop := (0 <=? x) = true /\ (x <? 1) = true.

(** The world after [k] more draws of the random source. *)
Definition drawn (k : nat) (w : World) : World :=
  {| clockAt := clockAt w; clockReads := clockReads w;
     randomAt := randomAt w; randomDraws := k + randomDraws w |}.

Lemma ordered_const (c : float) : SFcompare (Prim2SF c) (Prim2SF c) = Some Eq -> FloatOrder.ordered c.
Proof. exact (fun H => H). Qed.

Ltac ordered_tac :=
  match goal with
  | |- FloatOrder.ordered ?c => apply ordered_const; vm_compute; reflexivity
  end.

Lemma in01_ordered x : in01 x -> FloatOrder.ordered x.
Proof. intros [H _]; apply FloatOrder.leb_ordered in H; tauto. Qed.

(** Below a constant [a], hence below every larger constant [b]. *)
Lemma ltb_below x a b : (a <? b) = true -> (x <? a) = true -> (x <? b) = true.
Proof. intros Hab Hx; exact (FloatOrder.ltb_trans _ _ _ Hx Hab). Qed.

Lemma geb_not_ltb x c : (c <=? x) = true -> (x <? c) = false.
Proof.
  intros H; destruct (FloatOrder.leb_ordered _ _ H) as [Hc Hx].
  rewrite (FloatOrder.leb_negb_ltb _ _ Hc Hx) in H.
  destruct (x <? c); [discriminate | reflexivity].
Qed.

Lemma not_ltb_geb x c :
  FloatOrder.ordered x -> FloatOrder.ordered c -> (x <? c) = false -> (c <=? x) = true.
Proof.
  intros Hx Hc H; rewrite (FloatOrder.leb_negb_ltb _ _ Hc Hx), H; reflexivity.
Qed.

(** The generator as a function of its two draws. *)
Lemma generateCrashMultiplier_eq (w : World) :
  generateCrashMultiplier w =
  (let r := randomAt w (randomDraws w) in
   let u := randomAt w (S (randomDraws w)) in
   if r <? 0.5 then 1.0 + u
   else if r <? 0.8 then 2.0 + u * 3
   else if r <? 0.95 then 5.0 + u * 5
   else 10.0 + u * 40,
   drawn 2 w).
Proof.
  unfold generateCrashMultiplier, bind, Math_random, ret; cbn [randomAt randomDraws].
  cbv zeta.
  destruct (randomAt w (randomDraws w) <? 0.5); [reflexivity|].
  destruct (randomAt w (randomDraws w) <? 0.8); [reflexivity|].
  destruct (randomAt w (randomDraws w) <? 0.95); reflexivity.
Qed.

(** C2: on a selector draw [r] and a second, separate draw [u] of the random
    source, the generator returns [1.0 + u] when [r < 0.5], [2.0 + u * 3] when
    [0.5 <= r < 0.8], [5.0 + u * 5] when [0.8 <= r < 0.95] and [10.0 + u * 40]
    when [0.95 <= r < 1.0]; exactly two draws are consumed, the first selects the
    branch and the second, the next one of the source, scales within it; the
    four cases cover every selector draw. *)
Theorem generateCrashMultiplier_piecewise (w : World) :
  let r := randomAt w (randomDraws w) in
  let u := randomAt w (S (randomDraws w)) in
  in01 r -> in01 u ->
  exists v, generateCrashMultiplier w = (v, drawn 2 w) /\
    ((r <? 0.5) = true -> v = 1.0 + u) /\
    ((0.5 <=? r) = true -> (r <? 0.8) = true -> v = 2.0 + u * 3) /\
    ((0.8 <=? r) = true -> (r <? 0.95) = true -> v = 5.0 + u * 5) /\
    ((0.95 <=? r) = true -> (r <? 1.0) = true -> v = 10.0 + u * 40) /\
    ((r <? 0.5) = true \/
     ((0.5 <=? r) = true /\ (r <? 0.8) = true) \/
     ((0.8 <=? r) = true /\ (r <? 0.95) = true) \/
     ((0.95 <=? r) = true /\ (r <? 1.0) = true)).
Proof.
  intros r u Hr Hu.
  assert (Or : FloatOrder.ordered r) by (apply in01_ordered; exact Hr).
  assert (O5 : FloatOrder.ordered 0.5) by ordered_tac.
  assert (O8 : FloatOrder.ordered 0.8) by ordered_tac.
  assert (O95 : FloatOrder.ordered 0.95) by ordered_tac.
  rewrite generateCrashMultiplier_eq; cbv zeta; fold r; fold u.
  destruct (r <? 0.5) eqn:E5.
  - assert (E8 : (r <? 0.8) = true) by (apply (ltb_below r 0.5 0.8); [reflexivity | exact E5]).
    assert (E95 : (r <? 0.95) = true) by (apply (ltb_below r 0.5 0.95); [reflexivity | exact E5]).
    exists (1.0 + u); repeat split; auto;
      intros G; apply geb_not_ltb in G; congruence.
  - destruct (r <? 0.8) eqn:E8.
    + assert (E95 : (r <? 0.95) = true) by (apply (ltb_below r 0.8 0.95); [reflexivity | exact E8]).
      exists (2.0 + u * 3); repeat split; auto; try discriminate;
        try (intros G; apply geb_not_ltb in G; congruence).
      right; left; split; [apply not_ltb_geb; assumption | reflexivity].
    + destruct (r <? 0.95) eqn:E95.
      * exists (5.0 + u * 5); repeat split; auto; try discriminate;
          try (intros G; apply geb_not_ltb in G; congruence).
        right; right; left; split; [apply not_ltb_geb; assumption | reflexivity].
      * exists (10.0 + u * 40); repeat split; auto; try discriminate.
        right; right; right; split; [apply not_ltb_geb; assumption | exact (proj2 Hr)].
Qed.

(** [n] successive calls of the generator. *)
Fixpoint generateMany (n : nat) : M (list float) :=
  match n with
  | O => ret []
  | S n' =>
      v <- generateCrashMultiplier ;;
      vs <- generateMany n' ;;
      ret (v :: vs)
  end.

(** A finite multiplier in [[1.0, 50.0)]. *)
Definition inGeneratorRange (v : float) : Prop :=
  (1.0 <=? v) = true /\ (v <? 50.0) = true /\ is_finite v = true.

Lemma range_of_bounds lo v hi :
  (1.0 <=? lo) = true -> (hi <? 50.0) = true ->
  (lo <=? v) = true -> (v <=? hi) = true -> inGeneratorRange v.
Proof.
  intros Hlo Hhi H1 H2.
  pose proof (FloatOrder.leb_trans _ _ _ Hlo H1) as L.
  pose proof (FloatOrder.leb_ltb_trans _ _ _ H2 Hhi) as U.
  split; [exact L | split; [exact U|]].
  exact (FloatMono.finite_between 1.0 v 50.0 eq_refl L U).
Qed.

Lemma scaled_draw_range a c u :
  in01 u ->
  (0 <? a) = true -> (a <? infinity) = true ->
  (0 <? c) = true -> (c <? infinity) = true ->
  (0 <=? 0 * c) = true -> (FloatMono.pred_one * c <? infinity) = true ->
  (1.0 <=? a + 0 * c) = true -> (a + FloatMono.pred_one * c <? 50.0) = true ->
  inGeneratorRange (a + u * c).
Proof.
  intros [Hu0 Hu1] Ha0 Ha Hc0 Hc Hz Hp Hlo Hhi.
  destruct (FloatMono.affine_bounds a c u Hu0 Hu1 Ha0 Ha Hc0 Hc Hz Hp) as [L U].
  exact (range_of_bounds _ _ _ Hlo Hhi L U).
Qed.

Lemma generateCrashMultiplier_inRange (w : World) :
  in01 (randomAt w (randomDraws w)) -> in01 (randomAt w (S (randomDraws w))) ->
  inGeneratorRange (fst (generateCrashMultiplier w)) /\
  snd (generateCrashMultiplier w) = drawn 2 w.
Proof.
  intros Hr Hu.
  rewrite generateCrashMultiplier_eq; cbv zeta; cbn [fst snd]; split; [|reflexivity].
  set (u := randomAt w (S (randomDraws w))) in *.
  destruct (_ <? 0.5); [|destruct (_ <? 0.8); [|destruct (_ <? 0.95)]].
  - assert (Hup : (u <=? FloatMono.pred_one) = true)
      by (apply FloatMono.below_one; exact (proj2 Hu)).
    apply (range_of_bounds (1.0 + 0) _ (1.0 + FloatMono.pred_one)); try reflexivity.
    + exact (FloatMono.add_mono 1.0 0 u eq_refl (proj1 Hu)
               (FloatOrder.leb_ltb_trans u FloatMono.pred_one infinity Hup eq_refl)
               eq_refl eq_refl).
    + exact (FloatMono.add_mono 1.0 u FloatMono.pred_one (proj1 Hu) Hup eq_refl
               eq_refl eq_refl).
  - apply scaled_draw_range; try reflexivity; exact Hu.
  - apply scaled_draw_range; try reflexivity; exact Hu.
  - apply scaled_draw_range; try reflexivity; exact Hu.
Qed.

Lemma generateMany_inRange (n : nat) : forall w,
  (forall k, in01 (randomAt w k)) -> Forall inGeneratorRange (fst (generateMany n w)).
Proof.
  induction n as [|n IH]; intros w Hw; cbn [generateMany].
  - constructor.
  - unfold bind.
    destruct (generateCrashMultiplier_inRange w (Hw _) (Hw _)) as [Hv Hw'].
    destruct (generateCrashMultiplier w) as [v w']; cbn [fst snd] in *.
    specialize (IH w'); subst w'.
    destruct (generateMany n (drawn 2 w)) as [vs w'']; cbn [fst ret] in *.
    constructor; [exact Hv | apply IH; intros k; apply Hw].
Qed.

(** C7: whatever the draws of the random source in [[0, 1)], the generator
    returns a finite value that is at least 1.0 and strictly below 50.0, and so
    does every one of any number [n] of successive calls, 100000 for instance. *)
Theorem generateCrashMultiplier_range (n : nat) (w : World) :
  (forall k, in01 (randomAt w k)) ->
  inGeneratorRange (fst (generateCrashMultiplier w)) /\
  Forall inGeneratorRange (fst (generateMany n w)) /\
  Forall inGeneratorRange (fst (generateMany 100000 w)).
Proof.
  intros Hw; split; [|split].
  - apply generateCrashMultiplier_inRange; apply Hw.
  - apply generateMany_inRange; exact Hw.
  - apply generateMany_inRange; exact Hw.
Qed.

(** A world whose random source yields 0.6 and then 0.25 forever, and whose
    clock starts at 1000. *)
Definition exampleWorld : World :=
  {| clockAt := fun k => (1000 + Z.of_nat k)%Z; clockReads := 0;
     randomAt := fun k => match k with O => 0.6 | _ => 0.25 end; randomDraws := 0 |}.

Lemma generateCrashMultiplier_piecewise_witness :
  in01 0.6 /\ in01 0.25 /\
  generateCrashMultiplier exampleWorld = (2.0 + 0.25 * 3, drawn 2 exampleWorld).
Proof.
  assert (Hr : in01 (randomAt exampleWorld (randomDraws exampleWorld)))
    by (split; reflexivity).
  assert (Hu : in01 (randomAt exampleWorld (S (randomDraws exampleWorld))))
    by (split; reflexivity).
  split; [exact Hr | split; [exact Hu|]].
  destruct (generateCrashMultiplier_piecewise exampleWorld Hr Hu)
    as [v [Hv [_ [H2 _]]]].
  rewrite Hv, (H2 eq_refl eq_refl); reflexivity.
Defined.

Lemma generateCrashMultiplier_range_witness :
  (forall k, in01 (randomAt exampleWorld k)) /\
  inGeneratorRange (fst (generateCrashMultiplier exampleWorld)) /\
  Forall inGeneratorRange (fst (generateMany 3 exampleWorld)) /\
  Forall inGeneratorRange (fst (generateMany 100000 exampleWorld)).
Proof.
  assert (H : forall k, in01 (randomAt exampleWorld k))
    by (intros [|k]; split; reflexivity).
  split; [exact H | exact (generateCrashMultiplier_range 3 exampleWorld H)].
Defined.

(** ** Manual entry *)

(** C9: when the text of the input box does not parse to a number (NaN) or
    parses to a value below 1.00 or above 100.00, [addManualCrash] leaves the
    state, and so the history, as it is and creates no outcome; a value in
    [[1.00, 100.00]] is stored, rounded to two decimals, in front of the history;
    the history changes in no other case. *)
Theorem addManualCrash_validates (parseFloat : string -> float) (st : State) (w : World) :
  let v := parseFloat (inputMultiplier st) in
  ((is_nan v = true \/ (v <? 1.0) = true \/ (100 <? v) = true) ->
     manualCrash parseFloat st w = (None, w) /\ addManualCrash parseFloat st w = (st, w)) /\
  ((1.0 <=? v) = true /\ (v <=? 100) = true ->
     exists c, fst (manualCrash parseFloat st w) = Some c /\ multiplier c = roundTo2 v /\
       crashHistory (fst (addManualCrash parseFloat st w)) = firstn 100 (c :: crashHistory st)) /\
  (crashHistory (fst (addManualCrash parseFloat st w)) <> crashHistory st ->
     (1.0 <=? v) = true /\ (v <=? 100) = true).
Proof.
  intros v.
  assert (R : (JS.geb v 1.0 && (v <=? 100)) = false ->
              manualCrash parseFloat st w = (None, w) /\ addManualCrash parseFloat st w = (st, w)).
  { intros E; unfold addManualCrash, bind, manualCrash; fold v; rewrite E; split; reflexivity. }
  split; [|split].
  - intros H; apply R; unfold JS.geb.
    destruct H as [H | [H | H]].
    + rewrite (FloatOrder.nan_leb_r _ _ H); reflexivity.
    + destruct (1.0 <=? v) eqn:E; [|reflexivity].
      apply geb_not_ltb in E; congruence.
    + destruct (v <=? 100) eqn:E; [|apply andb_false_r].
      apply geb_not_ltb in E; congruence.
  - intros [H1 H2].
    unfold addManualCrash, bind, manualCrash, JS.geb; fold v; rewrite H1, H2; simpl.
    eexists; split; [reflexivity | split; reflexivity].
  - intros H; unfold JS.geb in R.
    destruct (1.0 <=? v) eqn:E1, (v <=? 100) eqn:E2; auto;
      destruct H; rewrite (proj2 (R eq_refl)); reflexivity.
Qed.

(** ** The statistics engine *)

(** C1: [calculateStatistics] returns a summary on every non-empty history and
    the absent result on the empty one; it is a total function, and the absent
    result is returned in no other case. *)
Theorem calculateStatistics_absent_iff_empty (h : list CrashPoint) :
  (calculateStatistics h = None <-> h = []) /\
  ((exists s, calculateStatistics h = Some s) <-> h <> []).
Proof.
  destruct h as [|c h]; unfold calculateStatistics; simpl; split; split;
    try congruence; try discriminate; eauto.
  intros [s Hs]; discriminate.
Qed.

(** The population standard deviation, in the words of the specification: the
    square root of the sum of the squared deviations from the mean, divided by
    the count [n]. *)
Definition mean (l : list float) : float := sumOf l / JS.of_length (length l).

Definition squaredDeviations (l : list float) : list float :=
  map (fun x => (x - mean l) * (x - mean l)) l.

Definition populationStdDev (l : list float) : float :=
  sqrt (sumOf (squaredDeviations l) / JS.of_length (length l)).

(** The sample standard deviation divides by [n - 1] instead. *)
Definition sampleStdDev (l : list float) : float :=
  sqrt (sumOf (squaredDeviations l) / JS.of_length (length l - 1)).

Lemma fold_left_add_map {A} (f : A -> float) (l : list A) (acc : float) :
  fold_left (fun a x => a + f x) l acc = fold_left add (map f l) acc.
Proof.
  revert acc; induction l as [|x l IH]; intros acc; simpl; [reflexivity | apply IH].
Qed.

Lemma calculateStatistics_volatility (c : CrashPoint) (h : list CrashPoint) :
  exists s, calculateStatistics (c :: h) = Some s /\
            volatility s = roundTo2 (populationStdDev (map multiplier (c :: h))).
Proof.
  unfold calculateStatistics.
  change (Nat.eqb (length (c :: h)) 0) with false; cbv iota.
  eexists; split; [reflexivity|]; cbn [volatility].
  unfold populationStdDev, squaredDeviations, mean, sumOf, JS.Math_sqrt, JS.Math_pow2.
  set (avg := fold_left add (map multiplier (c :: h)) 0
              / JS.of_length (length (map multiplier (c :: h)))).
  rewrite <- (fold_left_add_map (fun x => (x - avg) * (x - avg))); reflexivity.
Qed.

(** C4: on a non-empty history the volatility is the population standard
    deviation of the multipliers (the divisor is the count [n], not [n - 1]),
    rounded to two decimals; on the multipliers 1 and 3 it is 1.00, where the
    divisor [n - 1] would give 1.41. *)
Theorem volatility_is_population_stddev :
  (forall h, h <> [] ->
     exists s, calculateStatistics h = Some s /\
               volatility s = roundTo2 (populationStdDev (map multiplier h))) /\
  (exists s, calculateStatistics (map mk [1.0; 3.0]) = Some s /\ volatility s = 1.0 /\
             roundTo2 (sampleStdDev [1.0; 3.0]) = 1.41).
Proof.
  split.
  - intros h Hh; destruct h as [|c h]; [congruence|].
    apply calculateStatistics_volatility.
  - eexists; split; [vm_compute; reflexivity | split; vm_compute; reflexivity].
Qed.


(** ** The median *)

(** [ascending l]: every element is at most every later one. *)
Definition ascending (l : list float) : Prop :=
  StronglySorted (fun a b => (a <=? b) = true) l.


Lemma insert_perm x l : Permutation (JS.insert compareFn x l) (x :: l).
Proof.
  induction l as [|y l IH]; simpl; [reflexivity|].
  destruct (0 <? compareFn x y); [|reflexivity].
  rewrite IH; apply perm_swap.
Qed.

Lemma Array_sort_perm l : Permutation (JS.Array_sort compareFn l) l.
Proof.
  induction l as [|x l IH]; simpl; [reflexivity|].
  rewrite insert_perm; constructor; exact IH.
Qed.

Lemma positive_ordered x : FloatMono.positive_number x -> FloatOrder.ordered x.
Proof. intros [H _]; apply FloatOrder.ltb_ordered in H; tauto. Qed.

Lemma ltb_leb x y : (x <? y) = true -> (x <=? y) = true.
Proof.
  rewrite ltb_spec, leb_spec; unfold SFltb, SFleb.
  destruct (SFcompare _ _) as [[]|]; try discriminate; reflexivity.
Qed.

Lemma insert_sorted x l :
  FloatMono.positive_number x -> Forall FloatMono.positive_number l ->
  Sorted (fun a b => (a <=? b) = true) l ->
  Sorted (fun a b => (a <=? b) = true) (JS.insert compareFn x l).
Proof.
  intros Hx Hl Hs; induction l as [|y l IH]; simpl.
  - repeat constructor.
  - inversion Hl as [|? ? Hy Hl']; subst.
    inversion Hs as [|? ? Hs' Hd]; subst.
    unfold compareFn at 1; rewrite (FloatMono.sub_sign x y Hx Hy).
    destruct (y <? x) eqn:E.
    + constructor; [apply IH; assumption|].
      destruct l as [|z l]; simpl.
      * constructor; apply ltb_leb; exact E.
      * inversion Hd; subst.
        destruct (0 <? compareFn x z); constructor;
          [assumption | apply ltb_leb; exact E].
    + constructor; [exact Hs|]. constructor.
      apply not_ltb_geb; [apply positive_ordered; exact Hy
                         | apply positive_ordered; exact Hx | exact E].
Qed.

Lemma Array_sort_sorted l :
  Forall FloatMono.positive_number l ->
  Sorted (fun a b => (a <=? b) = true) (JS.Array_sort compareFn l).
Proof.
  induction l as [|x l IH]; intros Hl; simpl; [constructor|].
  inversion Hl; subst.
  apply insert_sorted; [assumption | | apply IH; assumption].
  eapply Permutation_Forall; [symmetry; apply Array_sort_perm | assumption].
Qed.

Lemma Array_sort_ascending l :
  Forall FloatMono.positive_number l -> ascending (JS.Array_sort compareFn l).
Proof.
  intros Hl; apply Sorted_StronglySorted; [|apply Array_sort_sorted; exact Hl].
  intros a b c; apply FloatOrder.leb_trans.
Qed.

Lemma leb_antisym x y :
  FloatMono.positive_number x -> (x <=? y) = true -> (y <=? x) = true -> x = y.
Proof.
  intros [Hx0 Hx]; rewrite !leb_spec; intros H1 H2.
  apply Prim2SF_inj.
  destruct (FloatMono.positive_finite x Hx0 Hx) as [mx [ex Ex]].
  unfold SFleb in *; rewrite (FloatOrder.SFcompare_antisym (Prim2SF x)) in H2.
  rewrite Ex in *.
  destruct (Prim2SF y) as [s|s| |s my ey]; simpl in *; try discriminate;
    destruct s; simpl in *; try discriminate.
  rewrite Pos.compare_cont_spec in *; simpl Pos.switch_Eq in *.
  destruct (Z.compare_spec ex ey); try discriminate; subst.
  destruct (Pos.compare_spec mx my); try discriminate; subst; reflexivity.
Qed.

Lemma ascending_unique l1 : forall l2,
  Forall FloatMono.positive_number l1 ->
  ascending l1 -> ascending l2 -> Permutation l1 l2 -> l1 = l2.
Proof.
  induction l1 as [|a l1 IH]; intros l2 Hp H1 H2 P.
  - apply Permutation_nil in P; subst; reflexivity.
  - destruct l2 as [|b l2]; [apply Permutation_sym, Permutation_nil in P; discriminate|].
    inversion H1 as [|? ? S1 F1]; inversion H2 as [|? ? S2 F2]; subst.
    inversion Hp as [|? ? Ha Hp']; subst.
    assert (E : a = b).
    { assert (Ia : In a (b :: l2)) by (eapply Permutation_in; [exact P | left; reflexivity]).
      assert (Ib : In b (a :: l1))
        by (eapply Permutation_in; [symmetry; exact P | left; reflexivity]).
      destruct Ia as [->|Ia]; [reflexivity|].
      destruct Ib as [->|Ib]; [reflexivity|].
      rewrite Forall_forall in F1, F2.
      apply leb_antisym; [exact Ha | apply F1; exact Ib | apply F2; exact Ia]. }
    subst b; f_equal; apply IH; try assumption.
    eapply Permutation_cons_inv; exact P.
Qed.




(** ** Rounding to two decimals *)

Lemma roundTo2_nn v : FloatMono.nn v -> (0 <=? roundTo2 v) = true.
Proof.
  intros Hv; pose proof (FloatMono.nn_leb v Hv) as H0.
  unfold roundTo2, JS.toFixed2; unfold FloatMono.nn in Hv.
  destruct (Prim2SF v) as [s|[|]| |[|] m e]; try discriminate; try exact H0.
  - reflexivity.
  - destruct (1e21 <=? abs v); [exact H0|].
    cbn [JS.parseFloat_fixed].
    destruct (JS.round_half_up_100 m e); try reflexivity.
    apply FloatMono.nn_leb, FloatMono.SF2Prim_nn, Rounding.SFdiv_nn; reflexivity.
Qed.

Lemma round_half_up_100_tiny m e :
  (-1074 <= e)%Z ->
  (Zpos m * 2 ^ (e + 1074) <= 2 ^ 52 * 2 ^ (-60 + 1074))%Z ->
  JS.round_half_up_100 m e = 0%Z.
Proof.
  intros He Hv.
  assert (E1 : (2 ^ 52 * 2 ^ (-60 + 1074) = 2 ^ 1066)%Z)
    by (rewrite <- Rounding.pow2_split by lia; reflexivity).
  assert (E2 : (2 ^ 1074 = 256 * 2 ^ 1066)%Z)
    by (change 256%Z with (2 ^ 8)%Z; rewrite <- Rounding.pow2_split by lia; reflexivity).
  pose proof (Rounding.pow2_pos 1066 ltac:(lia)) as P66.
  rewrite E1 in Hv.
  destruct e as [|q|q].
  - exfalso; simpl (0 + 1074)%Z in Hv; nia.
  - exfalso.
    rewrite (Rounding.pow2_split (Zpos q) 1074) in Hv by lia.
    pose proof (Rounding.pow2_pos (Zpos q) ltac:(lia)). nia.
  - unfold JS.round_half_up_100.
    set (A := (2 ^ (Z.neg q + 1074))%Z) in *.
    pose proof (Rounding.pow2_pos (Z.neg q + 1074) ltac:(lia)) as PA; fold A in PA.
    pose proof (Rounding.pow2_pos (Zpos q) ltac:(lia)) as PQ.
    assert (E3 : (2 ^ 1074 = 2 ^ Zpos q * A)%Z).
    { unfold A; rewrite <- Rounding.pow2_split by lia. f_equal; lia. }
    assert (H200 : (200 * Zpos m < 2 ^ Zpos q)%Z).
    { apply (Z.mul_lt_mono_pos_r A); [exact PA|]. nia. }
    rewrite (Rounding.pow2_split (Zpos q) 1) by lia.
    change (2 ^ 1)%Z with 2%Z.
    apply Z.div_small; lia.
Qed.

(** A value of at most [2 ^ -8] is printed as 0.00. *)
Lemma roundTo2_tiny v :
  (0 <=? v) = true -> (v <=? 0x1p-8) = true -> roundTo2 v = 0.
Proof.
  intros H0 Hv.
  assert (Hbig : (1e21 <=? v) = false).
  { destruct (1e21 <=? v) eqn:E; [|reflexivity].
    pose proof (FloatOrder.leb_trans _ _ _ E Hv) as F; discriminate F. }
  pose proof (Prim2SF_valid v) as V.
  unfold roundTo2, JS.toFixed2.
  assert (Ha : (1e21 <=? abs v) = (1e21 <=? v) \/ exists s, Prim2SF v = S754_zero s).
  { rewrite !leb_spec, abs_spec. revert H0; rewrite leb_spec.
    change (Prim2SF 0) with (S754_zero false).
    destruct (Prim2SF v) as [s|[|]| |[|] m e]; try discriminate; eauto. }
  rewrite leb_spec in H0, Hv.
  change (Prim2SF 0) with (S754_zero false) in H0.
  replace (Prim2SF 0x1p-8) with (S754_finite false 4503599627370496 (-60)) in Hv
    by (vm_compute; reflexivity).
  destruct (Prim2SF v) as [s|[|]| |[|] m e] eqn:E; try discriminate.
  - reflexivity.
  - destruct Ha as [Ha | [s Hs]]; [|discriminate].
    rewrite Ha, Hbig; cbn [JS.parseFloat_fixed].
    apply Rounding.SFleb_Zv in Hv; try reflexivity; try exact V.
    cbn [Rounding.Zv] in Hv.
    apply Rounding.valid_canonical in V; destruct V as [C _].
    pose proof (Rounding.canonical_cases _ _ C) as [He _].
    rewrite (round_half_up_100_tiny m e He Hv); reflexivity.
Qed.

(** ** Stored multipliers and well-formed histories *)

(** The number stored for the digits [k / 100]. *)
Definition storedValue (k : positive) : float :=
  JS.parseFloat_fixed (JS.FixedDigits false (Zpos k)).

(** A multiplier as the history stores it: a value of [[1.00, 100.00]] with two
    decimals. *)
Definition storedMultiplier (m : float) : Prop :=
  exists k, (100 <= Zpos k <= 10000)%Z /\ m = storedValue k.

(** A history as the insertions build it: at most 100 stored multipliers. *)
Definition wellFormed (h : list CrashPoint) : Prop :=
  (length h <= 100)%nat /\ Forall (fun c => storedMultiplier (multiplier c)) h.

Fixpoint upto (n : nat) (k : positive) : list positive :=
  match n with
  | O => []
  | S n' => k :: upto n' (Pos.succ k)
  end.

Lemma upto_In (n : nat) : forall k0 k,
  (Zpos k0 <= Zpos k < Zpos k0 + Z.of_nat n)%Z -> In k (upto n k0).
Proof.
  induction n as [|n IH]; intros k0 k H; [lia|].
  cbn [upto]; destruct (Pos.eq_dec k0 k) as [->|Hne]; [left; reflexivity | right].
  apply IH; lia.
Qed.

Definition storedRange : list positive := upto 9901 100.

Lemma storedRange_In k : (100 <= Zpos k <= 10000)%Z -> In k storedRange.
Proof.
  intros H; apply upto_In.
  replace (Z.of_nat 9901) with 9901%Z by reflexivity. lia.
Qed.

Definition storedCheck (k : positive) : bool :=
  (1 <=? storedValue k) && (storedValue k <=? 100)
  && ((5000 <? k)%positive || (storedValue k <=? 50)).

Lemma storedCheck_ok : forallb storedCheck storedRange = true.
Proof. vm_compute; reflexivity. Qed.

Lemma storedCheck_forall k : In k storedRange -> storedCheck k = true.
Proof.
  revert k; apply (proj1 (forallb_forall storedCheck storedRange)); exact storedCheck_ok.
Qed.

Lemma stored_bounds m :
  storedMultiplier m -> (1 <=? m) = true /\ (m <=? 100) = true.
Proof.
  intros [k [Hk ->]].
  pose proof (storedCheck_forall k (storedRange_In k Hk)) as H.
  unfold storedCheck in H; apply andb_prop in H; destruct H as [H _].
  apply andb_prop; exact H.
Qed.

Lemma stored_bounds_50 k :
  (100 <= Zpos k <= 5000)%Z -> (storedValue k <=? 50) = true.
Proof.
  intros Hk.
  pose proof (storedCheck_forall k (storedRange_In k ltac:(lia))) as H.
  unfold storedCheck in H; apply andb_prop in H; destruct H as [_ H].
  apply orb_prop in H; destruct H as [H|H]; [|exact H].
  apply Pos.ltb_lt in H; lia.
Qed.

Lemma stored_positive m : storedMultiplier m -> FloatMono.positive_number m.
Proof.
  intros H; destruct (stored_bounds m H) as [H1 H2]; split.
  - exact (FloatOrder.ltb_leb_trans 0 1 m eq_refl H1).
  - exact (FloatOrder.leb_ltb_trans m 100 infinity H2 eq_refl).
Qed.

Definition lengthCheck (n : nat) : bool :=
  (0 <? JS.of_length n) && (JS.of_length n <? infinity).

Lemma lengthCheck_ok : forallb lengthCheck (seq 1 100) = true.
Proof. vm_compute; reflexivity. Qed.

Lemma of_length_positive n :
  (1 <= n <= 100)%nat -> FloatMono.positive_number (JS.of_length n).
Proof.
  intros Hn; apply andb_prop.
  revert n Hn.
  pose proof (proj1 (forallb_forall lengthCheck (seq 1 100)) lengthCheck_ok) as H.
  intros n Hn; apply (H n), in_seq; lia.
Qed.

Lemma round_half_up_100_bounds m e A B :
  (-1074 <= e)%Z -> (0 <= A)%Z ->
  (A * 2 ^ 1074 <= Zpos m * 2 ^ (e + 1074))%Z ->
  (Zpos m * 2 ^ (e + 1074) <= B * 2 ^ 1074)%Z ->
  (100 * A <= JS.round_half_up_100 m e <= 100 * B)%Z.
Proof.
  intros He HA Hlo Hhi.
  pose proof (Rounding.pow2_pos 1074 ltac:(lia)) as P.
  assert (Hpos : forall q, (0 <= q)%Z ->
            (A * 2 ^ 1074 <= Zpos m * (2 ^ q * 2 ^ 1074))%Z ->
            (Zpos m * (2 ^ q * 2 ^ 1074) <= B * 2 ^ 1074)%Z ->
            (100 * A <= 100 * Zpos m * 2 ^ q <= 100 * B)%Z).
  { intros q Hq H1 H2.
    rewrite Z.mul_assoc in H1, H2.
    apply Z.mul_le_mono_pos_r in H1; [|exact P].
    apply Z.mul_le_mono_pos_r in H2; [|exact P]. lia. }
  destruct e as [|q|q].
  - unfold JS.round_half_up_100.
    specialize (Hpos 0%Z ltac:(lia)); simpl (0 + 1074)%Z in Hlo, Hhi.
    change (2 ^ 0)%Z with 1%Z in *. rewrite Z.mul_1_l in Hpos.
    exact (Hpos Hlo Hhi).
  - unfold JS.round_half_up_100.
    rewrite (Rounding.pow2_split (Zpos q) 1074) in Hlo, Hhi by lia.
    exact (Hpos (Zpos q) ltac:(lia) Hlo Hhi).
  - unfold JS.round_half_up_100.
    set (X := (2 ^ (Z.neg q + 1074))%Z) in *.
    pose proof (Rounding.pow2_pos (Z.neg q + 1074) ltac:(lia)) as PX; fold X in PX.
    pose proof (Rounding.pow2_pos (Zpos q) ltac:(lia)) as PQ.
    assert (E : (2 ^ 1074 = 2 ^ Zpos q * X)%Z).
    { unfold X; rewrite <- Rounding.pow2_split by lia. f_equal; lia. }
    rewrite E, !Z.mul_assoc in Hlo, Hhi.
    apply Z.mul_le_mono_pos_r in Hlo; [|exact PX].
    apply Z.mul_le_mono_pos_r in Hhi; [|exact PX].
    rewrite (Rounding.pow2_split (Zpos q) 1) by lia.
    change (2 ^ 1)%Z with 2%Z.
    split.
    + apply Z.div_le_lower_bound; lia.
    + assert ((200 * Z.pos m + 2 ^ Z.pos q) / (2 ^ Z.pos q * 2) < 100 * B + 1)%Z; [|lia].
      apply Z.div_lt_upper_bound; lia.
Qed.

(** Rounding a value of [[lo, hi]] gives the stored value of some digits
    between [100 * lo] and [100 * hi]. *)
Lemma roundTo2_digits v lo hi A B :
  (0 < A)%Z -> (B <= 100)%Z ->
  Rounding.Zv (Prim2SF lo) = (A * 2 ^ 1074)%Z ->
  Rounding.Zv (Prim2SF hi) = (B * 2 ^ 1074)%Z ->
  Rounding.is_finite_SF (Prim2SF lo) = true ->
  Rounding.is_finite_SF (Prim2SF hi) = true ->
  (hi <? 1e21) = true ->
  (lo <=? v) = true -> (v <=? hi) = true ->
  exists k, (100 * A <= Zpos k <= 100 * B)%Z /\ roundTo2 v = storedValue k.
Proof.
  intros HA HB Elo Ehi Flo Fhi Hbig Hlo Hhi.
  assert (Hnot : (1e21 <=? v) = false).
  { destruct (1e21 <=? v) eqn:E; [|reflexivity].
    pose proof (FloatOrder.leb_ltb_trans _ _ _ (FloatOrder.leb_trans _ _ _ E Hhi) Hbig) as F.
    rewrite ltb_spec in F; unfold SFltb in F.
    rewrite FloatOrder.SFcompare_refl in F; [discriminate|].
    intros N; rewrite leb_spec, N in E; discriminate. }
  pose proof (Prim2SF_valid v) as V.
  pose proof (Prim2SF_valid lo) as Vlo.
  pose proof (Prim2SF_valid hi) as Vhi.
  assert (Fv : Rounding.is_finite_SF (Prim2SF v) = true).
  { rewrite leb_spec in Hlo, Hhi; unfold SFleb in *.
    destruct (Prim2SF v) as [s|[|]| |s m e]; try reflexivity.
    - destruct (Prim2SF lo) as [| [|] | |]; discriminate.
    - destruct (Prim2SF hi) as [| [|] | |]; discriminate.
    - destruct (Prim2SF lo); discriminate. }
  rewrite leb_spec in Hlo, Hhi.
  apply Rounding.SFleb_Zv in Hlo; try assumption.
  apply Rounding.SFleb_Zv in Hhi; try assumption.
  rewrite Elo in Hlo; rewrite Ehi in Hhi.
  pose proof (Rounding.pow2_pos 1074 ltac:(lia)) as P.
  unfold roundTo2, JS.toFixed2.
  assert (Ha : (1e21 <=? abs v) = (1e21 <=? v)).
  { rewrite !leb_spec, abs_spec.
    destruct (Prim2SF v) as [s|s| |[|] m e]; try reflexivity; try discriminate.
    cbn [Rounding.Zv] in Hlo. exfalso. nia. }
  destruct (Prim2SF v) as [s|s| |[|] m e] eqn:E; try discriminate.
  - cbn [Rounding.Zv] in Hlo; nia.
  - cbn [Rounding.Zv] in Hlo; nia.
  - rewrite Ha, Hnot; cbn [Rounding.Zv] in Hlo, Hhi.
    apply Rounding.valid_canonical in V; destruct V as [C _].
    pose proof (Rounding.canonical_cases _ _ C) as [He _].
    pose proof (round_half_up_100_bounds m e A B He ltac:(lia) Hlo Hhi) as Hn.
    destruct (JS.round_half_up_100 m e) as [|k|k] eqn:En; try lia.
    exists k; split; [exact Hn | reflexivity].
Qed.

Lemma roundTo2_stored v :
  (1 <=? v) = true -> (v <=? 100) = true -> storedMultiplier (roundTo2 v).
Proof.
  intros H1 H2.
  destruct (roundTo2_digits v 1 100 1 100) as [k [Hk ->]];
    try assumption; try lia; try reflexivity; try (vm_compute; reflexivity).
  exists k; split; [lia | reflexivity].
Qed.

(** ** The volatility *)

Lemma sum_nn l : forall acc,
  Forall FloatMono.positive_number l -> FloatMono.nn acc ->
  FloatMono.nn (fold_left add l acc).
Proof.
  induction l as [|x l IH]; intros acc Hl Hacc; simpl; [exact Hacc|].
  inversion Hl; subst.
  apply IH; [assumption|].
  apply FloatMono.add_nn; [exact Hacc | apply FloatMono.positive_nn; assumption].
Qed.

Lemma squaredDeviations_nn avg l : forall acc,
  FloatMono.nn avg -> Forall FloatMono.positive_number l -> FloatMono.nn acc ->
  FloatMono.nn (fold_left add (map (fun x => (x - avg) * (x - avg)) l) acc).
Proof.
  induction l as [|x l IH]; intros acc Havg Hl Hacc; simpl; [exact Hacc|].
  inversion Hl; subst.
  apply IH; try assumption.
  apply FloatMono.add_nn; [exact Hacc|].
  apply FloatMono.mul_self_nn, FloatMono.sub_notNaN; assumption.
Qed.

Lemma populationStdDev_nn l :
  (1 <= length l <= 100)%nat -> Forall FloatMono.positive_number l ->
  FloatMono.nn (populationStdDev l).
Proof.
  intros Hn Hl.
  pose proof (of_length_positive (length l) Hn) as Hnf.
  assert (Hz : FloatMono.nn 0) by reflexivity.
  unfold populationStdDev, squaredDeviations, mean, sumOf.
  apply FloatMono.sqrt_nn, FloatMono.div_nn; [|exact Hnf].
  apply squaredDeviations_nn; try assumption.
  apply FloatMono.div_nn; [|exact Hnf].
  apply sum_nn; assumption.
Qed.

(** The sum of [n] copies of [x], from [acc] on. *)
Fixpoint addLoop (n : nat) (x acc : float) : float :=
  match n with
  | O => acc
  | S n' => addLoop n' x (acc + x)
  end.

Lemma fold_left_repeat x n : forall acc,
  fold_left add (repeat x n) acc = addLoop n x acc.
Proof.
  induction n as [|n IH]; intros acc; simpl; [reflexivity | apply IH].
Qed.

Lemma addLoop_succ n x : forall acc, addLoop (S n) x acc = addLoop n x acc + x.
Proof.
  induction n as [|n IH]; intros acc; [reflexivity|].
  change (addLoop (S (S n)) x acc) with (addLoop (S n) x (acc + x)).
  rewrite IH; reflexivity.
Qed.

(** The standard deviation of [n] copies of [x], whose sum is [sum]. *)
Definition identicalStdDev (x : float) (n : nat) (sum : float) : float :=
  let nf := JS.of_length n in
  let avg := sum / nf in
  let d2 := (x - avg) * (x - avg) in
  sqrt (addLoop n d2 0 / nf).

Lemma populationStdDev_repeat x n :
  populationStdDev (repeat x n) = identicalStdDev x n (addLoop n x 0).
Proof.
  unfold populationStdDev, squaredDeviations, mean, sumOf, identicalStdDev.
  rewrite repeat_length, map_repeat, !fold_left_repeat; reflexivity.
Qed.

(** Checks the counts [n + 1] to [n + todo], [sum] being the sum of [n] copies. *)
Fixpoint identicalCheck (todo n : nat) (x sum : float) : bool :=
  match todo with
  | O => true
  | S t =>
      let sum' := sum + x in
      let sd := identicalStdDev x (S n) sum' in
      (0 <=? sd) && (sd <=? 0x1p-8) && identicalCheck t (S n) x sum'
  end.

Lemma identicalCheck_sound todo : forall n x sum,
  identicalCheck todo n x sum = true -> sum = addLoop n x 0 ->
  forall j, (n < j <= n + todo)%nat ->
    (0 <=? identicalStdDev x j (addLoop j x 0)) = true /\
    (identicalStdDev x j (addLoop j x 0) <=? 0x1p-8) = true.
Proof.
  induction todo as [|t IH]; intros n x sum Hc Hs j Hj; [lia|].
  cbn [identicalCheck] in Hc.
  apply andb_prop in Hc; destruct Hc as [Hc Hrest].
  apply andb_prop in Hc; destruct Hc as [H0 H1].
  assert (Hs' : sum + x = addLoop (S n) x 0) by (rewrite addLoop_succ, Hs; reflexivity).
  destruct (Nat.eq_dec j (S n)) as [->|Hne].
  - rewrite <- Hs'; split; assumption.
  - apply (IH (S n) x (sum + x) Hrest Hs'); lia.
Qed.

Lemma identicalCheck_ok :
  forallb (fun k => identicalCheck 100 0 (storedValue k) 0) storedRange = true.
Proof. vm_compute; reflexivity. Qed.

Lemma identical_stored_stddev m n :
  storedMultiplier m -> (1 <= n <= 100)%nat ->
  roundTo2 (populationStdDev (repeat m n)) = 0.
Proof.
  intros [k [Hk ->]] Hn.
  pose proof (proj1 (forallb_forall _ storedRange) identicalCheck_ok
                k (storedRange_In k Hk)) as Hc.
  cbv beta in Hc.
  destruct (identicalCheck_sound 100 0 (storedValue k) 0 Hc eq_refl n ltac:(lia))
    as [H0 H1].
  rewrite populationStdDev_repeat; apply roundTo2_tiny; assumption.
Qed.

Lemma identical_repeat (h : list CrashPoint) (c : CrashPoint) :
  (forall c', In c' h -> multiplier c' = multiplier c) ->
  map multiplier h = repeat (multiplier c) (length h).
Proof.
  induction h as [|c' h IH]; intros H; [reflexivity|].
  cbn [map length repeat]; f_equal.
  - apply H; left; reflexivity.
  - apply IH; intros c'' Hc; apply H; right; exact Hc.
Qed.

(** C8, as the code has it: on a non-empty well-formed history the volatility
    is at least 0, and it is 0 when all multipliers are identical.  (It is the
    standard deviation rounded to two decimals, so it is also 0 for multipliers
    that differ by little.) *)
Theorem volatility_nonnegative_zero_on_identical (h : list CrashPoint) :
  h <> [] -> wellFormed h ->
  exists s, calculateStatistics h = Some s /\
    (0 <=? volatility s) = true /\
    ((forall c c', In c h -> In c' h -> multiplier c = multiplier c') ->
     volatility s = 0).
Proof.
  intros Hh [Hlen Hwf]; destruct h as [|c h]; [congruence|].
  destruct (calculateStatistics_volatility c h) as [s [Hs Hv]].
  exists s; split; [exact Hs|]; rewrite Hv.
  assert (Hn : (1 <= length (map multiplier (c :: h)) <= 100)%nat)
    by (rewrite length_map; cbn [length] in *; lia).
  split.
  - apply roundTo2_nn, populationStdDev_nn; [exact Hn|].
    apply Forall_map; eapply Forall_impl; [|exact Hwf].
    intros c'; apply stored_positive.
  - intros Hsame.
    rewrite (identical_repeat (c :: h) c)
      by (intros c' Hc'; apply Hsame; [exact Hc' | left; reflexivity]).
    apply identical_stored_stddev.
    + inversion Hwf; assumption.
    + rewrite length_map in Hn; exact Hn.
Qed.

Lemma wellFormed_example :
  wellFormed (map mk [1.00; 1.00; 1.00; 1.01]).
Proof.
  split; [cbn; lia|].
  repeat constructor;
    first [ exists 100%positive; split; [lia | vm_compute; reflexivity]
          | exists 101%positive; split; [lia | vm_compute; reflexivity] ].
Qed.

Lemma volatility_nonnegative_zero_on_identical_witness :
  exists s, calculateStatistics (map mk [1.00; 1.00; 1.00; 1.01]) = Some s /\
    (0 <=? volatility s) = true /\
    ((forall c c', In c (map mk [1.00; 1.00; 1.00; 1.01]) ->
                   In c' (map mk [1.00; 1.00; 1.00; 1.01]) ->
                   multiplier c = multiplier c') ->
     volatility s = 0).
Proof.
  apply (volatility_nonnegative_zero_on_identical (map mk [1.00; 1.00; 1.00; 1.01])).
  - discriminate.
  - exact wellFormed_example.
Defined.

(** The claim C8 fails as stated: the multipliers 1.00, 1.00, 1.00, 1.01 are
    not all identical, and the volatility of this well-formed history is 0. *)
Lemma volatility_zero_on_distinct :
  exists s, calculateStatistics (map mk [1.00; 1.00; 1.00; 1.01]) = Some s /\
    volatility s = 0 /\ (1.00 <? 1.01) = true /\
    wellFormed (map mk [1.00; 1.00; 1.00; 1.01]).
Proof.
  eexists; split; [vm_compute; reflexivity|].
  split; [vm_compute; reflexivity|].
  split; [reflexivity | exact wellFormed_example].
Qed.

(** ** The histogram *)

(** The six ranges of [distributionData], in order. *)
Definition buckets : list (CrashPoint -> bool) :=
  [ inRange 1.0 1.5; inRange 1.5 2.0; inRange 2.0 3.0; inRange 3.0 5.0;
    inRange 5.0 10.0; fun c => JS.geb (multiplier c) 10.0 ].

(** The number of ranges an outcome falls into. *)
Definition bucketsOf (c : CrashPoint) : nat := length (filter (fun p => p c) buckets).

Lemma countWhere_cons p c h :
  countWhere p (c :: h) = ((if p c then 1 else 0) + countWhere p h)%nat.
Proof. unfold countWhere; simpl; destruct (p c); reflexivity. Qed.

Lemma geb_negb_ltb x c :
  FloatOrder.ordered x -> FloatOrder.ordered c -> JS.geb x c = negb (x <? c).
Proof. intros Hx Hc; unfold JS.geb; apply FloatOrder.leb_negb_ltb; assumption. Qed.

Lemma bucketsOf_one c : (1.0 <=? multiplier c) = true -> bucketsOf c = 1%nat.
Proof.
  intros H1.
  assert (Om : FloatOrder.ordered (multiplier c))
    by (apply FloatOrder.leb_ordered in H1; tauto).
  unfold bucketsOf, buckets, inRange; cbn [filter].
  rewrite !(geb_negb_ltb (multiplier c)) by (assumption || ordered_tac).
  pose proof (geb_not_ltb _ _ H1) as L1; rewrite L1.
  pose proof (ltb_below (multiplier c) 1.5 2.0 eq_refl) as M1.
  pose proof (ltb_below (multiplier c) 2.0 3.0 eq_refl) as M2.
  pose proof (ltb_below (multiplier c) 3.0 5.0 eq_refl) as M3.
  pose proof (ltb_below (multiplier c) 5.0 10.0 eq_refl) as M4.
  destruct (multiplier c <? 1.5), (multiplier c <? 2.0), (multiplier c <? 3.0),
    (multiplier c <? 5.0), (multiplier c <? 10.0);
    repeat match goal with H : true = true -> _ |- _ => specialize (H eq_refl) end;
    try discriminate; reflexivity.
Qed.

(** C5: every outcome, whose multiplier is at least 1.0, falls into exactly one
    of the six half-open ranges, and the six counts of [distributionData] add up
    to the number of outcomes; the boundary values 1.5, 2.0, 3.0, 5.0 and 10.0
    each open the range they start. *)
Theorem distributionData_partitions (h : list CrashPoint) :
  Forall (fun c => (1.0 <=? multiplier c) = true) h ->
  Forall (fun c => bucketsOf c = 1%nat) h /\
  list_sum (map snd (distributionData h)) = length h /\
  map snd (distributionData (map mk [1.5; 2.0; 3.0; 5.0; 10.0])) = [0; 1; 1; 1; 1; 1]%nat.
Proof.
  intros H; split; [|split; [|reflexivity]].
  - eapply Forall_impl; [|exact H]; intros c; apply bucketsOf_one.
  - induction H as [|c h Hc Hh IH]; [reflexivity|].
    apply bucketsOf_one in Hc; revert Hc IH.
    unfold distributionData, bucketsOf, buckets; cbn [map snd list_sum filter].
    rewrite !countWhere_cons.
    destruct (inRange 1.0 1.5 c), (inRange 1.5 2.0 c), (inRange 2.0 3.0 c),
      (inRange 3.0 5.0 c), (inRange 5.0 10.0 c), (JS.geb (multiplier c) 10.0);
      intros Hc IH; simpl in *; try discriminate; lia.
Qed.

Lemma distributionData_partitions_witness :
  Forall (fun c => bucketsOf c = 1%nat) (map mk [1.0; 1.49; 1.5; 2.0; 3.0; 5.0; 10.0; 100.0]) /\
  list_sum (map snd (distributionData (map mk [1.0; 1.49; 1.5; 2.0; 3.0; 5.0; 10.0; 100.0])))
    = length (map mk [1.0; 1.49; 1.5; 2.0; 3.0; 5.0; 10.0; 100.0]) /\
  map snd (distributionData (map mk [1.5; 2.0; 3.0; 5.0; 10.0])) = [0; 1; 1; 1; 1; 1]%nat.
Proof.
  apply (distributionData_partitions (map mk [1.0; 1.49; 1.5; 2.0; 3.0; 5.0; 10.0; 100.0])).
  repeat constructor.
Defined.

(** ** The bounded history *)

(** The two ways of inserting outcomes: typing [input] and adding it, or
    simulating [count] rounds. *)
Inductive Insertion :=
| ManualAdd (input : string)
| SimulateBatch (count : nat).

Definition typeInput (input : string) (st : State) : State :=
  {| crashHistory := crashHistory st; inputMultiplier := input;
     isSimulating := isSimulating st |}.

Section Insertions.

Variable parseFloat : string -> float.

Definition perform (a : Insertion) (st : State) : M State :=
  match a with
  | ManualAdd input => addManualCrash parseFloat (typeInput input st)
  | SimulateBatch count => simulateRounds count st
  end.

(** The outcomes an insertion creates, in the order it hands them to
    [setCrashHistory]. *)
Definition createdBy (a : Insertion) (st : State) : M (list CrashPoint) :=
  match a with
  | ManualAdd input =>
      c <- manualCrash parseFloat (typeInput input st) ;;
      ret (match c with Some newCrash => [newCrash] | None => [] end)
  | SimulateBatch count => simulatedCrashes count
  end.

(** Runs the insertions [acts], the first of which is insertion number [k], and
    keeps next to the state the log of every outcome inserted so far, each with
    the number of its insertion, the latest insertion in front. *)
Fixpoint runLog (acts : list Insertion) (k : nat) (st : State)
  (log : list (nat * CrashPoint)) : M (State * list (nat * CrashPoint)) :=
  match acts with
  | [] => ret (st, log)
  | a :: acts' => fun w =>
      let created := fst (createdBy a st w) in
      let (st', w') := perform a st w in
      runLog acts' (S k) st' (map (pair k) created ++ log) w'
  end.

Definition run (acts : list Insertion) : M (State * list (nat * CrashPoint)) :=
  runLog acts 0 initialState [].

End Insertions.








(** ** Histories built by insertions are well-formed *)

(** Every draw of the random source is in [[0, 1)]. *)
Definition drawsIn01 (w : World) : Prop := forall k, in01 (randomAt w k).

(** A stored multiplier of at most 50.00, as the simulation produces them. *)
Definition simulatedMultiplier (m : float) : Prop :=
  storedMultiplier m /\ (m <=? 50) = true.

Lemma roundTo2_simulated v : inGeneratorRange v -> simulatedMultiplier (roundTo2 v).
Proof.
  intros [H1 [H2 _]].
  destruct (roundTo2_digits v 1 50 1 50) as [k [Hk ->]];
    try assumption; try lia; try reflexivity; try (vm_compute; reflexivity).
  - apply ltb_leb; exact H2.
  - split; [exists k; split; [lia | reflexivity] | apply stored_bounds_50; lia].
Qed.

Lemma simulateLoop_step todo i acc w :
  simulateLoop (S todo) i acc w =
  let w1 := snd (Date_now w) in
  let v := fst (generateCrashMultiplier w1) in
  let w2 := snd (generateCrashMultiplier w1) in
  simulateLoop todo (i + 1)
    (acc ++ [{| id := fst (Date_now w) + i; multiplier := roundTo2 v;
                timestamp := fst (Date_now w2) + i * 1000 |}])
    (snd (Date_now w2)).
Proof.
  cbn [simulateLoop]; unfold bind at 1; cbn [Date_now]; unfold bind at 1.
  cbv zeta; cbn [fst snd].
  destruct (generateCrashMultiplier _) as [v w2]; reflexivity.
Qed.

Lemma simulateLoop_simulated todo : forall i acc w,
  drawsIn01 w ->
  Forall (fun c => simulatedMultiplier (multiplier c)) acc ->
  Forall (fun c => simulatedMultiplier (multiplier c)) (fst (simulateLoop todo i acc w)) /\
  randomAt (snd (simulateLoop todo i acc w)) = randomAt w.
Proof.
  induction todo as [|todo IH]; intros i acc w Hw Hacc.
  - split; [exact Hacc | reflexivity].
  - rewrite simulateLoop_step; cbv zeta.
    set (w1 := snd (Date_now w)).
    assert (Hw1 : drawsIn01 w1) by exact Hw.
    destruct (generateCrashMultiplier_inRange w1 (Hw1 _) (Hw1 _)) as [Hv Hw'].
    rewrite Hw'.
    match goal with |- context [simulateLoop todo ?i' ?acc' ?w'] =>
      destruct (IH i' acc' w') as [H1 H2]
    end.
    + exact Hw.
    + apply Forall_app; split; [exact Hacc|].
      constructor; [|constructor]. cbn [multiplier].
      apply roundTo2_simulated, Hv.
    + split; [exact H1 | exact H2].
Qed.

Lemma manualCrash_stored parseFloat st w c :
  fst (manualCrash parseFloat st w) = Some c -> storedMultiplier (multiplier c).
Proof.
  unfold manualCrash, JS.geb.
  destruct (1.0 <=? parseFloat (inputMultiplier st)) eqn:E1;
    [destruct (parseFloat (inputMultiplier st) <=? 100) eqn:E2|]; cbn [andb];
    unfold bind, Date_now, ret; cbn [fst]; try discriminate.
  intros H; injection H as <-; cbn [multiplier].
  apply roundTo2_stored; assumption.
Qed.

Lemma Forall_firstn_keeps {A} (P : A -> Prop) n (l : list A) :
  Forall P l -> Forall P (firstn n l).
Proof.
  intros H; apply Forall_forall; intros x Hx.
  rewrite Forall_forall in H; apply H.
  rewrite <- (firstn_skipn n l); apply in_or_app; left; exact Hx.
Qed.

Lemma prependCrashes_wellFormed created prev :
  Forall (fun c => storedMultiplier (multiplier c)) created ->
  wellFormed prev -> wellFormed (prependCrashes created prev).
Proof.
  intros Hc [_ Hp]; unfold prependCrashes; split.
  - apply firstn_le_length.
  - apply Forall_firstn_keeps, Forall_app; split; assumption.
Qed.

Lemma perform_wellFormed parseFloat a st w :
  drawsIn01 w -> wellFormed (crashHistory st) ->
  wellFormed (crashHistory (fst (perform parseFloat a st w))) /\
  randomAt (snd (perform parseFloat a st w)) = randomAt w.
Proof.
  intros Hw Hst; destruct a as [input | count]; cbn [perform].
  - unfold addManualCrash, bind.
    pose proof (manualCrash_stored parseFloat (typeInput input st) w) as Hc.
    assert (Hr : randomAt (snd (manualCrash parseFloat (typeInput input st) w)) = randomAt w).
    { unfold manualCrash; destruct (_ && _); reflexivity. }
    destruct (manualCrash parseFloat (typeInput input st) w) as [[c|] w'];
      cbn [fst snd] in *; unfold ret; cbn [fst snd crashHistory typeInput].
    + split; [|exact Hr].
      apply prependCrashes_wellFormed; [|exact Hst].
      constructor; [apply Hc; reflexivity | constructor].
    + split; [exact Hst | exact Hr].
  - unfold simulateRounds, bind, simulatedCrashes.
    destruct (simulateLoop_simulated count 0 [] w Hw (Forall_nil _)) as [H1 H2].
    destruct (simulateLoop count 0 [] w) as [cs w']; cbn [fst snd] in *.
    unfold ret; cbn [fst snd crashHistory]; split; [|exact H2].
    apply prependCrashes_wellFormed; [|exact Hst].
    eapply Forall_impl; [|exact H1]. intros c [Hc _]; exact Hc.
Qed.

Lemma runLog_wellFormed parseFloat acts : forall k st log w,
  drawsIn01 w -> wellFormed (crashHistory st) ->
  wellFormed (crashHistory (fst (fst (runLog parseFloat acts k st log w)))).
Proof.
  induction acts as [|a acts IH]; intros k st log w Hw Hst; cbn [runLog].
  - exact Hst.
  - destruct (perform_wellFormed parseFloat a st w Hw Hst) as [H1 H2].
    destruct (perform parseFloat a st w) as [st' w']; cbn [fst snd] in *.
    apply IH; [|exact H1].
    intros j; rewrite H2; apply Hw.
Qed.

(** Whatever is typed and simulated, starting from the empty history: the
    history holds at most 100 outcomes and every multiplier is a two-decimal
    value of [[1.00, 100.00]], provided the random source draws from [[0, 1)]. *)
Theorem reachable_wellFormed (parseFloat : string -> float)
  (acts : list Insertion) (w : World) :
  drawsIn01 w -> wellFormed (crashHistory (fst (fst (run parseFloat acts w)))).
Proof.
  intros Hw; apply runLog_wellFormed; [exact Hw|].
  split; [cbn; lia | constructor].
Qed.

Lemma reachable_wellFormed_witness :
  drawsIn01 exampleWorld /\
  wellFormed (crashHistory (fst (fst (run (fun _ => 2.5)
    [ManualAdd EmptyString; SimulateBatch 3] exampleWorld)))).
Proof.
  assert (H : drawsIn01 exampleWorld) by (intros [|k]; split; reflexivity).
  split; [exact H | exact (reachable_wellFormed _ _ exampleWorld H)].
Defined.

(** ** Range of the simulated multipliers *)

(** C10: some pair of draws makes the generator return a value strictly below
    50.0 that [toFixed(2)] rounds up, so that the multiplier [simulateRounds]
    stores is exactly 50.00; and whatever the draws in [[0,1)] and the size of
    the batch, every multiplier [simulateRounds] creates is a two-decimal value
    with [1.00 <= m <= 50.00]: stored simulated multipliers range over
    [[1.00, 50.00]], upper end included. *)
Theorem simulated_multiplier_reaches_50 :
  (exists r u, in01 r /\ in01 u /\
    forall w, randomAt w (randomDraws w) = r -> randomAt w (S (randomDraws w)) = u ->
      (fst (generateCrashMultiplier w) <? 50.0) = true /\
      map multiplier (crashHistory (fst (simulateRounds 1 initialState w))) = [50.0]) /\
  (forall count w, drawsIn01 w ->
    Forall (fun c => storedMultiplier (multiplier c) /\
                     (1.0 <=? multiplier c) = true /\ (multiplier c <=? 50.0) = true)
           (fst (simulatedCrashes count w))).
Proof.
  split.
  - exists 0.96, 0.9999; split; [|split]; try (split; reflexivity).
    intros w Hr Hu; split.
    + unfold generateCrashMultiplier, bind, Math_random, ret; simpl.
      rewrite Hr; simpl; rewrite Hu; reflexivity.
    + unfold simulateRounds, simulatedCrashes, simulateLoop, generateCrashMultiplier,
        bind, Math_random, Date_now, ret; simpl.
      rewrite Hr; simpl; rewrite Hu; vm_compute; reflexivity.
  - intros count w Hw.
    destruct (simulateLoop_simulated count 0 [] w Hw (Forall_nil _)) as [H _].
    unfold simulatedCrashes.
    eapply Forall_impl; [|exact H].
    intros c [Hs H50]; split; [exact Hs|].
    split; [exact (proj1 (stored_bounds _ Hs)) | exact H50].
Qed.

(** * Further properties of the page *)

(** ** Division in binary64 *)

Module Quotient.
Import Rounding.
Local Open Scope Z_scope.

(** ** Round to nearest, ties to even, of a quotient [N / B] *)

Definition rq (N B : Z) : Z :=
  let q := N / B in
  let r := N mod B in
  match 2 * r ?= B with
  | Lt => q
  | Gt => q + 1
  | Eq => if Z.even q then q else q + 1
  end.

Lemma rq_scale N B c : 0 < B -> 0 < c -> rq (N * c) (B * c) = rq N B.
Proof.
  intros HB Hc; unfold rq.
  rewrite Z.div_mul_cancel_r by lia.
  rewrite Zmult_mod_distr_r.
  replace (2 * (N mod B * c)) with (2 * (N mod B) * c) by ring.
  rewrite <- (Zmult_compare_compat_r (2 * (N mod B)) B c) by lia.
  reflexivity.
Qed.

(** Where a remainder [r] of a division by [D] lies: 0 for none, 1 below the
    half, 2 on the half, 3 above. *)
Definition code (r D : Z) : Z :=
  if r =? 0 then 0
  else match 2 * r ?= D with
       | Lt => 1
       | Eq => 2
       | Gt => 3
       end.

(** The quotient with two more bits: the second says whether the rest reaches
    the half, the last whether anything is left beyond. *)
Definition sticky (N D : Z) : Z := 4 * (N / D) + code (N mod D) D.

Lemma code_range r D : 0 <= code r D <= 3.
Proof. unfold code; destruct (r =? 0), (2 * r ?= D); lia. Qed.

Lemma code_mono r1 r2 D : 0 <= r1 <= r2 -> code r1 D <= code r2 D.
Proof.
  intros H; unfold code.
  destruct (Z.eqb_spec r1 0), (Z.eqb_spec r2 0), (Z.compare_spec (2 * r1) D),
    (Z.compare_spec (2 * r2) D); lia.
Qed.

Lemma sticky_mono N1 N2 D : 0 < D -> N1 <= N2 -> sticky N1 D <= sticky N2 D.
Proof.
  intros HD H; unfold sticky.
  pose proof (Z.div_le_mono N1 N2 D HD H) as Hq.
  pose proof (code_range (N1 mod D) D); pose proof (code_range (N2 mod D) D).
  destruct (Z.eq_dec (N1 / D) (N2 / D)) as [E|E]; [|lia].
  pose proof (Z.div_mod N1 D ltac:(lia)) as E1.
  pose proof (Z.div_mod N2 D ltac:(lia)) as E2.
  pose proof (Z.mod_pos_bound N1 D HD).
  assert (N1 mod D <= N2 mod D) by (rewrite E in E1; lia).
  pose proof (code_mono (N1 mod D) (N2 mod D) D ltac:(lia)); lia.
Qed.

Lemma sticky_pos N D : 0 < D -> 0 < N -> 0 < sticky N D.
Proof.
  intros HD HN; unfold sticky, code.
  pose proof (Z.div_pos N D ltac:(lia) HD).
  pose proof (Z.div_mod N D ltac:(lia)).
  pose proof (Z.mod_pos_bound N D HD).
  destruct (Z.eqb_spec (N mod D) 0) as [E|E].
  - assert (N / D <> 0) by (intros Q; rewrite Q, E in *; lia). lia.
  - destruct (2 * (N mod D) ?= D); lia.
Qed.

(** Rounding the quotient with its two more bits rounds the quotient. *)
Lemma rne_sticky N D n :
  0 <= N -> 0 < D -> 2 <= n -> rne (sticky N D) n = rq N (D * 2 ^ (n - 2)).
Proof.
  intros HN HD Hn.
  set (P := 2 ^ (n - 2)).
  assert (HP : 0 < P) by (apply Z.pow_pos_nonneg; lia).
  assert (E4 : 2 ^ n = 4 * P).
  { unfold P; replace n with (2 + (n - 2)) at 1 by lia.
    rewrite Z.pow_add_r by lia; reflexivity. }
  pose proof (Z.div_mod N D ltac:(lia)) as EN.
  pose proof (Z.mod_pos_bound N D HD) as Hr0.
  assert (Hq0 : 0 <= N / D) by (apply Z.div_pos; lia).
  unfold sticky.
  remember (N / D) as q0 eqn:Dq0; remember (N mod D) as r0 eqn:Dr0.
  pose proof (Z.div_mod q0 P ltac:(lia)) as Eq0.
  pose proof (Z.mod_pos_bound q0 P HP) as Ha.
  remember (q0 / P) as Q eqn:DQ; remember (q0 mod P) as a eqn:Da.
  pose proof (code_range r0 D) as Hc.
  assert (HaD : 0 <= a * D <= (P - 1) * D).
  { split; [apply Z.mul_nonneg_nonneg; lia|].
    apply Z.mul_le_mono_nonneg_r; lia. }
  assert (HDP : D * P = (P - 1) * D + D) by ring.
  assert (B1 : N / (D * P) = Q /\ N mod (D * P) = a * D + r0).
  { assert (0 <= a * D + r0 < D * P) by lia.
    split; [symmetry; apply (Z.div_unique_pos N (D * P) Q (a * D + r0))
           | symmetry; apply (Z.mod_unique_pos N (D * P) Q (a * D + r0))]; try assumption;
      rewrite EN, Eq0; ring. }
  assert (B2 : (4 * q0 + code r0 D) / (4 * P) = Q /\
               (4 * q0 + code r0 D) mod (4 * P) = 4 * a + code r0 D).
  { split; [symmetry; apply (Z.div_unique_pos _ (4 * P) Q (4 * a + code r0 D))
           | symmetry; apply (Z.mod_unique_pos _ (4 * P) Q (4 * a + code r0 D))]; try lia. }
  unfold rne, rq; rewrite E4.
  rewrite (proj1 B1), (proj2 B1), (proj1 B2), (proj2 B2).
  assert (C : (2 * (4 * a + code r0 D) ?= 4 * P) = (2 * (a * D + r0) ?= D * P)).
  { assert (K : 2 * (a * D) - D * P = D * (2 * a - P)) by ring.
    assert (K1 : 2 * a - P <= -2 -> D * (2 * a - P) <= -2 * D) by nia.
    assert (K2 : 1 <= 2 * a - P -> D <= D * (2 * a - P)) by nia.
    assert (K3 : 2 * a - P = -1 -> D * (2 * a - P) = - D) by (intros ->; ring).
    assert (K4 : 2 * a - P = 0 -> D * (2 * a - P) = 0) by (intros ->; ring).
    remember (D * (2 * a - P)) as Y eqn:DY.
    replace (2 * (a * D + r0)) with (2 * (a * D) + 2 * r0) by ring.
    remember (a * D) as aD eqn:DaD.
    unfold code in *.
    assert (X : 2 * a - P <= -2 \/ 2 * a - P = -1 \/ 2 * a - P = 0 \/ 1 <= 2 * a - P) by lia.
    destruct (Z.eqb_spec r0 0) as [R0|R0];
      [|destruct (Z.compare_spec (2 * r0) D) as [R|R|R]];
      destruct (Z.compare_spec (2 * aD + 2 * r0) (D * P)) as [G|G|G];
      destruct X as [X|[X|[X|X]]];
      try (specialize (K1 X)); try (specialize (K2 X)); try (specialize (K3 X));
      try (specialize (K4 X));
      first [ apply Z.compare_eq_iff; lia | apply Z.compare_lt_iff; lia
            | apply Z.compare_gt_iff; lia | exfalso; lia ]. }
  rewrite C; reflexivity.
Qed.

(** The same quotient on a finer grid rounds alike. *)
Lemma rne_sticky_refine N D n t :
  0 <= N -> 0 < D -> 2 <= n -> 0 <= t ->
  rne (sticky (N * 2 ^ t) D) (n + t) = rne (sticky N D) n.
Proof.
  intros HN HD Hn Ht.
  assert (Pt : 0 < 2 ^ t) by (apply Z.pow_pos_nonneg; lia).
  rewrite !rne_sticky by nia.
  replace (n + t - 2) with (n - 2 + t) by lia.
  rewrite Z.pow_add_r, Z.mul_assoc by lia.
  apply rq_scale; [|exact Pt].
  apply Z.mul_pos_pos; [exact HD | apply Z.pow_pos_nonneg; lia].
Qed.

(** ** The division of [SpecFloat] rounds the quotient *)

Lemma new_location_code D r q :
  0 < D -> 0 <= r < D -> 0 <= q ->
  shr_inv (4 * q + code r D) 2 (shr_record_of_loc q (new_location D r)).
Proof.
  intros HD Hr Hq.
  assert (G : new_location D r
              = if r =? 0 then loc_Exact else loc_Inexact (2 * r ?= D)).
  { unfold new_location, new_location_even, new_location_odd.
    destruct (Z.even D) eqn:Ev; [reflexivity|].
    destruct (Z.eqb_spec r 0); [reflexivity|]; f_equal.
    assert (Ho : Z.odd D = true) by (rewrite <- Z.negb_even, Ev; reflexivity).
    apply Z.odd_spec in Ho; destruct Ho as [k Hk].
    destruct (Z.compare_spec (2 * r + 1) D), (Z.compare_spec (2 * r) D);
      try reflexivity; lia. }
  rewrite G; unfold code; exists (code r D); unfold code.
  change (2 ^ 2) with 4.
  destruct (Z.eqb_spec r 0) as [R|R]; [|destruct (Z.compare_spec (2 * r) D)];
    cbn [shr_record_of_loc shr_m shr_r shr_s]; repeat split; try lia; reflexivity.
Qed.

Lemma shr_inv_digits M q mrs :
  shr_inv M 2 mrs -> shr_m mrs = q -> 0 < q -> Zdigits2 M = Zdigits2 q + 2.
Proof.
  intros [r [Hr [HM _]]] <- Hq; change (2 ^ 2) with 4 in *.
  pose proof (Zdigits2_bounds _ Hq) as B.
  pose proof (Zdigits2_pos _ Hq) as P.
  apply Zdigits2_unique; [lia|].
  replace (Zdigits2 (shr_m mrs) + 2 - 1) with (Zdigits2 (shr_m mrs) - 1 + 2) by lia.
  rewrite !Z.pow_add_r by lia; change (2 ^ 2) with 4; lia.
Qed.

(** [binary_round_aux] from a quotient and the place of its remainder. *)
Lemma binary_round_aux_sticky sx q e l M :
  0 <= q -> 0 < M -> shr_inv M 2 (shr_record_of_loc q l) ->
  e <= fexp prec emax (Zdigits2 q + e) ->
  binary_round_aux prec emax sx q e l = of_core sx (round_core M (e - 2)) /\
  2 <= shift_of M (e - 2) /\ shift_of M (e - 2) = fexp prec emax (Zdigits2 q + e) - e + 2.
Proof.
  intros Hq HM Hinv He.
  assert (Em : shr_m (shr_record_of_loc q l) = q) by (destruct l as [|[| |]]; reflexivity).
  assert (Hshift : shift_of M (e - 2) = fexp prec emax (Zdigits2 q + e) - e + 2).
  { unfold shift_of.
    assert (F : fexp prec emax (Zdigits2 M + (e - 2)) = fexp prec emax (Zdigits2 q + e)).
    { destruct (Z.eq_dec q 0) as [Q0|Q0].
      - subst q; rewrite !fexp_eq in *; change (Zdigits2 0) with 0 in *.
        destruct Hinv as [r [Hr [HM' _]]]; rewrite Em in HM'; change (2 ^ 2) with 4 in *.
        pose proof (Zdigits2_bounds M HM) as B.
        assert (Zdigits2 M <= 2).
        { destruct (Z_le_gt_dec (Zdigits2 M) 2) as [L|L]; [exact L|exfalso].
          pose proof (pow2_le 2 (Zdigits2 M - 1) ltac:(lia)) as P2.
          change (2 ^ 2) with 4 in P2; lia. }
        lia.
      - rewrite (shr_inv_digits M q _ Hinv Em ltac:(lia)); f_equal; lia. }
    rewrite F; lia. }
  split; [|split; [lia | exact Hshift]].
  unfold binary_round_aux, round_core, of_core.
  assert (H1 : let '(mrs, e1) := shr_fexp prec emax q e l in
               e1 = e - 2 + shift_of M (e - 2) /\
               round_nearest_even (shr_m mrs) (loc_of_shr_record mrs)
               = rne M (shift_of M (e - 2))).
  { unfold shr_fexp, shr; rewrite Hshift.
    destruct (fexp prec emax (Zdigits2 q + e) - e) as [|p|p] eqn:E; try lia.
    - split; [lia|]. apply (shr_inv_rne M 2 _ ltac:(lia) Hinv).
    - split; [lia|].
      pose proof (shr_inv_iter M p 2 _ ltac:(lia) Hinv) as H.
      apply shr_inv_rne in H; [|lia].
      replace (Z.pos p + 2) with (2 + Z.pos p) by lia; exact (proj2 H). }
  destruct (shr_fexp prec emax q e l) as [mrs e1].
  destruct H1 as [-> ->].
  assert (Hn : 0 <= shift_of M (e - 2)) by (unfold shift_of; lia).
  pose proof (shr_fexp_exact (rne M (shift_of M (e - 2))) (e - 2 + shift_of M (e - 2))
                (rne_nonneg M _ Hn (Z.lt_le_incl _ _ HM))) as H2.
  destruct (shr_fexp prec emax _ _ loc_Exact) as [mrs2 e2].
  destruct H2 as [-> [-> _]]; reflexivity.
Qed.

(** The exponent and the shift [SFdiv] divides with. *)
Definition div_exp (mx : positive) (ex : Z) (my : positive) (ey : Z) : Z :=
  Z.min (fexp prec emax (Zdigits2 (Zpos mx) + ex - (Zdigits2 (Zpos my) + ey))) (ex - ey).

Definition div_num (mx : positive) (ex : Z) (my : positive) (ey : Z) : Z :=
  Zpos mx * 2 ^ (ex - ey - div_exp mx ex my ey).

Lemma div_exp_le mx ex my ey : div_exp mx ex my ey <= ex - ey.
Proof. unfold div_exp; lia. Qed.

Lemma div_num_pos mx ex my ey : 0 < div_num mx ex my ey.
Proof.
  unfold div_num; pose proof (div_exp_le mx ex my ey).
  apply Z.mul_pos_pos; [lia | apply Z.pow_pos_nonneg; lia].
Qed.

(** The quotient is long enough for the rounding to take place at or above its
    last digit. *)
Lemma div_quotient_digits mx ex my ey :
  let e := div_exp mx ex my ey in
  let q := div_num mx ex my ey / Zpos my in
  e <= fexp prec emax (Zdigits2 q + e).
Proof.
  cbv zeta; set (e := div_exp mx ex my ey); set (N := div_num mx ex my ey).
  rewrite fexp_eq.
  destruct (Z_le_gt_dec e (-1074)) as [L|G]; [lia|].
  assert (He : e <= Zdigits2 (Zpos mx) + ex - (Zdigits2 (Zpos my) + ey) - 53).
  { unfold e, div_exp in *; rewrite fexp_eq in *; lia. }
  set (d1 := Zdigits2 (Zpos mx)) in *; set (d2 := Zdigits2 (Zpos my)) in *.
  pose proof (Zdigits2_bounds (Zpos mx) ltac:(lia)) as B1; fold d1 in B1.
  pose proof (Zdigits2_bounds (Zpos my) ltac:(lia)) as B2; fold d2 in B2.
  pose proof (Zdigits2_pos (Zpos mx) ltac:(lia)) as P1; fold d1 in P1.
  pose proof (Zdigits2_pos (Zpos my) ltac:(lia)) as P2; fold d2 in P2.
  set (s := ex - ey - e).
  assert (Hs : 53 - d1 + d2 <= s) by (unfold s; lia).
  assert (Hs0 : 0 <= s) by (pose proof (div_exp_le mx ex my ey); unfold s, e; lia).
  assert (HN : 2 ^ 52 * Zpos my <= N).
  { unfold N, div_num; fold e; fold s.
    apply Z.le_trans with (2 ^ (d1 - 1) * 2 ^ s); [|apply Z.mul_le_mono_nonneg_r; [|lia];
      apply Z.lt_le_incl, pow2_pos; lia].
    rewrite <- pow2_split by lia.
    apply Z.le_trans with (2 ^ 52 * 2 ^ d2).
    - apply Z.mul_le_mono_nonneg_l; lia.
    - rewrite <- pow2_split by lia; apply pow2_le; lia. }
  assert (Hq : 2 ^ 52 <= N / Zpos my) by (apply Z.div_le_lower_bound; lia).
  pose proof (digits_ge_53 _ Hq); lia.
Qed.

(** The quotient of two positive numbers. *)
Lemma SFdiv_pos mx ex my ey :
  SFdiv prec emax (S754_finite false mx ex) (S754_finite false my ey)
  = of_core false (round_core (sticky (div_num mx ex my ey) (Zpos my))
                              (div_exp mx ex my ey - 2)) /\
  2 <= shift_of (sticky (div_num mx ex my ey) (Zpos my)) (div_exp mx ex my ey - 2).
Proof.
  unfold SFdiv, SFdiv_core_binary.
  fold (div_exp mx ex my ey).
  pose proof (div_exp_le mx ex my ey) as Hs.
  pose proof (div_quotient_digits mx ex my ey) as Hd; cbv zeta in Hd.
  pose proof (div_num_pos mx ex my ey) as HN.
  assert (Em : match ex - ey - div_exp mx ex my ey with
               | 0 => Z.pos mx
               | Z.pos _ => Z.shiftl (Z.pos mx) (ex - ey - div_exp mx ex my ey)
               | Z.neg _ => 0
               end = div_num mx ex my ey).
  { unfold div_num.
    destruct (ex - ey - div_exp mx ex my ey) as [|p|p] eqn:E;
      [change (2 ^ 0) with 1; lia | rewrite Z.shiftl_mul_pow2 by lia; reflexivity | lia]. }
  rewrite Em.
  pose proof (Z.div_mod (div_num mx ex my ey) (Zpos my) ltac:(lia)) as Edm.
  pose proof (Z.mod_pos_bound (div_num mx ex my ey) (Zpos my) ltac:(lia)) as Hr.
  assert (Hq : 0 <= div_num mx ex my ey / Zpos my) by (apply Z.div_pos; lia).
  unfold sticky, Z.div, Z.modulo in *.
  destruct (Z.div_eucl (div_num mx ex my ey) (Zpos my)) as [q r].
  cbn [xorb fst snd] in *.
  pose proof (new_location_code (Zpos my) r q ltac:(lia) Hr Hq) as Hinv.
  assert (HM : 0 < 4 * q + code r (Zpos my)).
  { pose proof (code_range r (Zpos my)).
    unfold code in *; destruct (Z.eqb_spec r 0); [|destruct (2 * r ?= Zpos my); lia].
    subst r; assert (q <> 0) by (intros ->; lia); lia. }
  destruct (binary_round_aux_sticky false q (div_exp mx ex my ey) _ _ Hq HM Hinv Hd)
    as [E [H2 _]].
  split; [exact E | exact H2].
Qed.

(** ** The quotient is monotone in the dividend *)

Lemma sticky_digits N D :
  0 < D -> D <= N -> Zdigits2 (sticky N D) = Zdigits2 (N / D) + 2.
Proof.
  intros HD HN; unfold sticky.
  assert (Hq : 0 < N / D) by (apply Z.div_str_pos; lia).
  pose proof (code_range (N mod D) D) as Hc.
  pose proof (Zdigits2_bounds _ Hq) as B.
  pose proof (Zdigits2_pos _ Hq) as P.
  apply Zdigits2_unique; [lia|].
  replace (Zdigits2 (N / D) + 2 - 1) with (Zdigits2 (N / D) - 1 + 2) by lia.
  rewrite !Z.pow_add_r by lia; change (2 ^ 2) with 4; lia.
Qed.

Lemma quotient_digits_shift N D t :
  0 < D -> D <= N -> 0 <= t -> Zdigits2 (N * 2 ^ t / D) = Zdigits2 (N / D) + t.
Proof.
  intros HD HN Ht.
  assert (Hq : 0 < N / D) by (apply Z.div_str_pos; lia).
  pose proof (Zdigits2_bounds _ Hq) as B.
  pose proof (Zdigits2_pos _ Hq) as P.
  pose proof (pow2_pos t Ht) as Pt.
  pose proof (Z.div_mod N D ltac:(lia)) as E.
  pose proof (Z.mod_pos_bound N D HD) as Hr.
  apply Zdigits2_unique; [lia|].
  replace (Zdigits2 (N / D) + t - 1) with (Zdigits2 (N / D) - 1 + t) by lia.
  rewrite !Z.pow_add_r by lia.
  split.
  - apply Z.div_le_lower_bound; [exact HD|].
    apply Z.le_trans with (D * (N / D * 2 ^ t)).
    + apply Z.mul_le_mono_nonneg_l; [lia|].
      apply Z.mul_le_mono_nonneg_r; lia.
    + rewrite Z.mul_assoc; apply Z.mul_le_mono_nonneg_r; lia.
  - apply Z.div_lt_upper_bound; [exact HD|].
    apply Z.lt_le_trans with (D * ((N / D + 1) * 2 ^ t)).
    + rewrite Z.mul_assoc; apply Z.mul_lt_mono_pos_r; lia.
    + apply Z.mul_le_mono_nonneg_l; [lia|].
      apply Z.mul_le_mono_nonneg_r; lia.
Qed.

Lemma small_digits M k : 0 < M -> 0 <= k -> M < 2 ^ k -> Zdigits2 M <= k.
Proof.
  intros HM Hk H.
  pose proof (Zdigits2_bounds M HM) as B.
  destruct (Z_le_gt_dec (Zdigits2 M) k) as [L|L]; [exact L|exfalso].
  pose proof (pow2_le k (Zdigits2 M - 1) ltac:(lia)); lia.
Qed.

Lemma shift_of_refine N D e t :
  0 < N -> 0 < D -> 0 <= t -> 2 <= shift_of (sticky N D) e ->
  shift_of (sticky (N * 2 ^ t) D) (e - t) = shift_of (sticky N D) e + t.
Proof.
  intros HN HD Ht H2; unfold shift_of in *; rewrite !fexp_eq in *.
  pose proof (pow2_pos t Ht) as Pt.
  destruct (Z_le_gt_dec D N) as [L|G].
  - rewrite (sticky_digits N D HD L) in *.
    rewrite (sticky_digits (N * 2 ^ t) D HD) by nia.
    rewrite (quotient_digits_shift N D t HD L Ht); lia.
  - pose proof (sticky_pos N D HD HN) as S1.
    pose proof (sticky_pos (N * 2 ^ t) D HD ltac:(nia)) as S2.
    assert (D1 : Zdigits2 (sticky N D) <= 2).
    { apply small_digits; [exact S1 | lia|].
      unfold sticky; rewrite Z.div_small by lia.
      pose proof (code_range (N mod D) D); change (2 ^ 2) with 4; lia. }
    assert (D2 : Zdigits2 (sticky (N * 2 ^ t) D) <= t + 2).
    { apply small_digits; [exact S2 | lia|].
      unfold sticky.
      assert (N * 2 ^ t / D < 2 ^ t).
      { apply Z.div_lt_upper_bound; [exact HD|].
        apply Z.mul_lt_mono_pos_r; lia. }
      pose proof (code_range ((N * 2 ^ t) mod D) D).
      rewrite Z.pow_add_r by lia; change (2 ^ 2) with 4; lia. }
    pose proof (Zdigits2_pos _ S1); pose proof (Zdigits2_pos _ S2); lia.
Qed.

(** The quotient on a finer grid gives the same number. *)
Lemma round_core_refine N D e t :
  0 < N -> 0 < D -> 0 <= t -> 2 <= shift_of (sticky N D) e ->
  round_core (sticky (N * 2 ^ t) D) (e - t) = round_core (sticky N D) e.
Proof.
  intros HN HD Ht H2; unfold round_core.
  rewrite (shift_of_refine N D e t HN HD Ht H2).
  rewrite (Z.add_comm (shift_of (sticky N D) e) t) at 1.
  replace (t + shift_of (sticky N D) e) with (shift_of (sticky N D) e + t) by lia.
  rewrite (rne_sticky_refine N D _ t ltac:(lia) HD H2 Ht).
  replace (e - t + (shift_of (sticky N D) e + t)) with (e + shift_of (sticky N D) e) by lia.
  reflexivity.
Qed.

Lemma rexp_of_shift M e : 0 <= shift_of M e -> 1 <= shift_of M e -> e <= rexp M e.
Proof. unfold shift_of, rexp; lia. Qed.

(** The same comparison of two dyadic numbers over another power of two. *)
Lemma dyadic_rebase m1 e1 m2 e2 c c' :
  0 <= m1 -> 0 <= m2 ->
  c <= e1 -> c <= e2 -> c' <= e1 -> c' <= e2 ->
  m1 * 2 ^ (e1 - c) <= m2 * 2 ^ (e2 - c) ->
  m1 * 2 ^ (e1 - c') <= m2 * 2 ^ (e2 - c').
Proof.
  intros H1 H2 C1 C2 C1' C2' H.
  destruct (Z_le_gt_dec c c') as [L|G].
  - apply (Z.mul_le_mono_pos_r _ _ (2 ^ (c' - c))); [apply pow2_pos; lia|].
    rewrite <- !Z.mul_assoc, <- !pow2_split by lia.
    replace (e1 - c' + (c' - c)) with (e1 - c) by lia.
    replace (e2 - c' + (c' - c)) with (e2 - c) by lia.
    exact H.
  - replace (e1 - c') with (e1 - c + (c - c')) by lia.
    replace (e2 - c') with (e2 - c + (c - c')) by lia.
    rewrite (pow2_split (e1 - c) (c - c')) by lia.
    rewrite (pow2_split (e2 - c) (c - c')) by lia.
    rewrite !Z.mul_assoc.
    apply Z.mul_le_mono_nonneg_r; [apply Z.lt_le_incl, pow2_pos; lia | exact H].
Qed.

(** Dividing two positive numbers, given by any mantissa and exponent, by the
    same third keeps their order. *)
Lemma SFdiv_mono_finite m1 e1 m2 e2 my ey c :
  c <= e1 -> e1 <= e2 ->
  Zpos m1 * 2 ^ (e1 - c) <= Zpos m2 * 2 ^ (e2 - c) ->
  SFleb (SFdiv prec emax (S754_finite false m1 e1) (S754_finite false my ey))
        (SFdiv prec emax (S754_finite false m2 e2) (S754_finite false my ey)) = true.
Proof.
  intros Hc He Hv.
  assert (Hd : Zdigits2 (Zpos m1) + e1 <= Zdigits2 (Zpos m2) + e2).
  { assert (Hp : 0 < Zpos m1 * 2 ^ (e1 - c))
      by (apply Z.mul_pos_pos; [lia | apply pow2_pos; lia]).
    pose proof (Zdigits2_mono _ _ Hp Hv) as Hm.
    rewrite !Zdigits2_shift in Hm by lia; lia. }
  destruct (SFdiv_pos m1 e1 my ey) as [-> S1].
  destruct (SFdiv_pos m2 e2 my ey) as [-> S2].
  set (E1 := div_exp m1 e1 my ey) in *; set (E2 := div_exp m2 e2 my ey) in *.
  assert (HE : E1 <= E2) by (unfold E1, E2, div_exp; rewrite !fexp_eq; lia).
  pose proof (div_num_pos m1 e1 my ey) as P1.
  pose proof (div_num_pos m2 e2 my ey) as P2.
  rewrite <- (round_core_refine (div_num m2 e2 my ey) (Zpos my) (E2 - 2) (E2 - E1)
                P2 ltac:(lia) ltac:(lia) S2).
  replace (E2 - 2 - (E2 - E1)) with (E1 - 2) by lia.
  apply round_mono.
  - apply sticky_pos; [lia | exact P1].
  - apply rexp_of_shift; lia.
  - pose proof (shift_of_refine (div_num m2 e2 my ey) (Zpos my) (E2 - 2) (E2 - E1)
                  P2 ltac:(lia) ltac:(lia) S2) as R.
    replace (E2 - 2 - (E2 - E1)) with (E1 - 2) in R by lia.
    apply rexp_of_shift; lia.
  - unfold dyadic_le; rewrite Z.min_id, Z.sub_diag; change (2 ^ 0) with 1.
    rewrite !Z.mul_1_r; apply sticky_mono; [lia|].
    unfold div_num; fold E1; fold E2.
    rewrite <- Z.mul_assoc, <- pow2_split by (pose proof (div_exp_le m2 e2 my ey); lia).
    replace (e2 - ey - E2 + (E2 - E1)) with (e2 - (ey + E1)) by lia.
    replace (e1 - ey - E1) with (e1 - (ey + E1)) by lia.
    pose proof (div_exp_le m1 e1 my ey) as G1; fold E1 in G1.
    apply (dyadic_rebase _ e1 _ e2 c (ey + E1)); try lia; exact Hv.
Qed.

Theorem SFdiv_mono x1 x2 my ey :
  valid_binary x1 = true -> valid_binary x2 = true ->
  nonneg_SF x1 = true -> nonneg_SF x2 = true -> SFleb x1 x2 = true ->
  SFleb (SFdiv prec emax x1 (S754_finite false my ey))
        (SFdiv prec emax x2 (S754_finite false my ey)) = true.
Proof.
  intros V1 V2 N1 N2 L.
  destruct x1 as [s1|s1| |s1 m1 e1]; try discriminate;
    destruct x2 as [s2|s2| |s2 m2 e2]; try discriminate.
  - reflexivity.
  - destruct s2; [discriminate|].
    destruct (SFdiv_pos m2 e2 my ey) as [-> H2].
    apply zero_leb_of_core.
    + apply sticky_pos; [lia | apply div_num_pos].
    + apply rexp_of_shift; lia.
  - destruct s1; discriminate.
  - destruct s1; [discriminate|]; destruct s2; [discriminate|].
    pose proof (SFleb_Zv _ _ V1 V2 eq_refl eq_refl L) as Hv; cbn [Zv] in Hv.
    apply valid_canonical in V1, V2; destruct V1 as [C1 _], V2 as [C2 _].
    pose proof (dyadic_le_exp _ _ _ _ C1 C2 Hv) as He.
    destruct (canonical_cases _ _ C1) as [Le1 _].
    apply (SFdiv_mono_finite m1 e1 m2 e2 my ey (-1074)); try lia.
    replace (e1 - -1074) with (e1 + 1074) by lia.
    replace (e2 - -1074) with (e2 + 1074) by lia.
    exact Hv.
Qed.

End Quotient.

(** ** Order-preserving division and addition *)

Module FloatDiv.
Import Rounding FloatOrder FloatMono Quotient.

Lemma of_core_valid s M e :
  (0 < M)%Z -> (e <= rexp M e)%Z -> valid_binary (of_core s (round_core M e)) = true.
Proof.
  intros HM He; pose proof (round_core_spec M e HM He) as [_ _ _ _ Hc].
  unfold of_core; destruct Hc as [-> | C]; [reflexivity|].
  destruct (fst (round_core M e)) as [|m|m] eqn:E; try reflexivity.
  destruct (Z.leb_spec (snd (round_core M e)) (emax - prec)) as [L|L]; [|reflexivity].
  apply canonical_valid; [exact C | exact L].
Qed.

Lemma SFdiv_valid mx ex my ey :
  valid_binary (SFdiv prec emax (S754_finite false mx ex) (S754_finite false my ey)) = true.
Proof.
  destruct (SFdiv_pos mx ex my ey) as [-> H2].
  apply of_core_valid.
  - apply sticky_pos; [lia | apply div_num_pos].
  - apply rexp_of_shift; lia.
Qed.

(** Division by a positive number is monotone on the numbers that are not
    negative. *)
Theorem div_mono x y c :
  (0 <=? x) = true -> (x <=? y) = true -> (y <? infinity) = true ->
  (0 <? c) = true -> (c <? infinity) = true ->
  (x / c <=? y / c) = true.
Proof.
  intros H0 Hxy Hy Hc0 Hc.
  destruct (positive_finite c Hc0 Hc) as [mc [ec Ec]].
  rewrite leb_spec, !div_spec, Ec; unfold SF64div.
  apply SFdiv_mono; try apply Prim2SF_valid.
  - apply nonneg_of_bounds; [assumption | exact (leb_ltb_trans _ _ _ Hxy Hy)].
  - apply nonneg_of_bounds; [exact (leb_trans _ _ _ H0 Hxy) | assumption].
  - rewrite <- leb_spec; assumption.
Qed.

Lemma SFadd_comm x y : SFadd prec emax x y = SFadd prec emax y x.
Proof.
  destruct x as [sx|sx| |sx mx ex], y as [sy|sy| |sy my ey]; try reflexivity;
    try (destruct sx, sy; reflexivity).
  unfold SFadd; rewrite (Z.min_comm ex ey), Z.add_comm; reflexivity.
Qed.

(** Addition is monotone in both arguments. *)
Theorem add_mono_both a1 a2 x1 x2 :
  (0 <=? a1) = true -> (a1 <=? a2) = true -> (a2 <? infinity) = true ->
  (0 <? x1) = true -> (x1 <=? x2) = true -> (x2 <? infinity) = true ->
  (a1 + x1 <=? a2 + x2) = true.
Proof.
  intros Ha0 Ha Ha2 Hx0 Hx Hx2.
  assert (Hx20 : (0 <? x2) = true) by exact (ltb_leb_trans _ _ _ Hx0 Hx).
  apply (leb_trans _ (a1 + x2)).
  - pose proof (nonneg_of_bounds a1 Ha0 (leb_ltb_trans _ _ _ Ha Ha2)) as N1.
    destruct (Prim2SF a1) as [s| | |[|] m e] eqn:E1; try discriminate.
    + destruct (positive_finite x1 Hx0 (leb_ltb_trans _ _ _ Hx Hx2)) as [m1 [e1 X1]].
      destruct (positive_finite x2 Hx20 Hx2) as [m2 [e2 X2]].
      rewrite leb_spec, !add_spec, E1, X1, X2; unfold SF64add; cbn [SFadd].
      rewrite <- X1, <- X2, <- leb_spec; exact Hx.
    + apply add_mono; try assumption.
      * apply ltb_leb; exact Hx0.
      * rewrite ltb_spec, E1; reflexivity.
      * exact (leb_ltb_trans _ _ _ Ha Ha2).
  - destruct (positive_finite x2 Hx20 Hx2) as [m2 [e2 X2]].
    pose proof (Prim2SF_valid x2) as V2; rewrite X2 in V2.
    rewrite leb_spec, !add_spec, X2; unfold SF64add.
    rewrite (SFadd_comm (Prim2SF a1)), (SFadd_comm (Prim2SF a2)).
    apply SFadd_mono; try apply Prim2SF_valid; try assumption.
    + apply nonneg_of_bounds; [assumption | exact (leb_ltb_trans _ _ _ Ha Ha2)].
    + apply nonneg_of_bounds; [exact (leb_trans _ _ _ Ha0 Ha) | assumption].
    + rewrite <- leb_spec; assumption.
Qed.

Lemma add_zero_l x : (0 <? x) = true -> (x <? infinity) = true -> 0 + x = x.
Proof.
  intros H0 Hx; destruct (positive_finite x H0 Hx) as [m [e E]].
  apply Prim2SF_inj; rewrite add_spec, E; reflexivity.
Qed.

End FloatDiv.

(** ** Rounding to two decimals is monotone *)

(** The digits of [toFixed(2)], in one formula. *)
Lemma round_half_up_100_eq m e :
  (-1074 <= e)%Z ->
  JS.round_half_up_100 m e
  = ((200 * (Zpos m * 2 ^ (e + 1074)) + 2 ^ 1074) / 2 ^ 1075)%Z.
Proof.
  intros He.
  pose proof (Rounding.pow2_pos 1074 ltac:(lia)) as P.
  assert (E5 : (2 ^ 1075 = 2 * 2 ^ 1074)%Z)
    by (change 1075%Z with (Z.succ 1074); apply Z.pow_succ_r; lia).
  destruct e as [|q|q]; unfold JS.round_half_up_100.
  - cbn [Z.add]; rewrite E5.
    replace (200 * (Z.pos m * 2 ^ 1074) + 2 ^ 1074)%Z
      with ((2 * (100 * Zpos m * 2 ^ 0) + 1) * 2 ^ 1074)%Z
      by (change (2 ^ 0)%Z with 1%Z; ring).
    rewrite Z.div_mul_cancel_r by lia.
    apply (Z.div_unique_pos _ 2 _ 1); lia.
  - rewrite (Rounding.pow2_split (Zpos q) 1074), E5 by lia.
    replace (200 * (Z.pos m * (2 ^ Z.pos q * 2 ^ 1074)) + 2 ^ 1074)%Z
      with ((2 * (100 * Zpos m * 2 ^ Z.pos q) + 1) * 2 ^ 1074)%Z by ring.
    rewrite Z.div_mul_cancel_r by lia.
    apply (Z.div_unique_pos _ 2 _ 1); lia.
  - set (X := (2 ^ (Z.neg q + 1074))%Z).
    pose proof (Rounding.pow2_pos (Z.neg q + 1074) ltac:(lia)) as PX; fold X in PX.
    pose proof (Rounding.pow2_pos (Zpos q) ltac:(lia)) as PQ.
    assert (E : (2 ^ 1074 = 2 ^ Zpos q * X)%Z).
    { unfold X; rewrite <- Rounding.pow2_split by lia. f_equal; lia. }
    rewrite E5, E.
    rewrite (Rounding.pow2_split (Zpos q) 1) by lia; change (2 ^ 1)%Z with 2%Z.
    replace (200 * (Z.pos m * X) + 2 ^ Z.pos q * X)%Z
      with ((200 * Z.pos m + 2 ^ Z.pos q) * X)%Z by ring.
    replace (2 * (2 ^ Z.pos q * X))%Z with (2 ^ Z.pos q * 2 * X)%Z by ring.
    rewrite Z.div_mul_cancel_r by lia; reflexivity.
Qed.

Lemma round_half_up_100_mono m1 e1 m2 e2 :
  (-1074 <= e1)%Z -> (-1074 <= e2)%Z ->
  (Zpos m1 * 2 ^ (e1 + 1074) <= Zpos m2 * 2 ^ (e2 + 1074))%Z ->
  (0 <= JS.round_half_up_100 m1 e1 <= JS.round_half_up_100 m2 e2)%Z.
Proof.
  intros H1 H2 H; rewrite !round_half_up_100_eq by assumption.
  pose proof (Rounding.pow2_pos 1075 ltac:(lia)) as P5.
  pose proof (Rounding.pow2_pos 1074 ltac:(lia)) as P4.
  pose proof (Rounding.pow2_pos (e1 + 1074) ltac:(lia)) as P1.
  split.
  - apply Z.div_pos; [|lia].
    assert (0 <= Zpos m1 * 2 ^ (e1 + 1074))%Z by (apply Z.mul_nonneg_nonneg; lia). lia.
  - apply Z.div_le_mono; lia.
Qed.

(** What [toFixed(2)] prints for a number in [[0, 1e21)]. *)
Definition digitsOf (x : float) : Z :=
  match Prim2SF x with
  | S754_finite _ m e => JS.round_half_up_100 m e
  | _ => 0%Z
  end.

Lemma toFixed2_digits x :
  (0 <=? x) = true -> (x <? 1e21) = true ->
  JS.toFixed2 x = JS.FixedDigits false (digitsOf x).
Proof.
  intros H0 Hx.
  pose proof (FloatMono.nonneg_of_bounds x H0
                (FloatOrder.ltb_trans x 1e21 infinity Hx eq_refl)) as N.
  unfold JS.toFixed2, digitsOf.
  assert (Hb : (1e21 <=? abs x) = false).
  { rewrite leb_spec, abs_spec; rewrite ltb_spec in Hx.
    destruct (Prim2SF x) as [s| | |[|] m e]; try discriminate; try reflexivity.
    cbn [SFabs].
    destruct (SFleb (Prim2SF 1e21) (S754_finite false m e)) eqn:E; [|reflexivity].
    pose proof (FloatOrder.SFleb_ltb_trans _ _ _ E Hx) as F; discriminate F. }
  destruct (Prim2SF x) as [s| | |[|] m e]; try discriminate.
  - reflexivity.
  - rewrite Hb; reflexivity.
Qed.

Lemma digitsOf_mono x y :
  (0 <=? x) = true -> (x <=? y) = true -> (y <? infinity) = true ->
  (0 <= digitsOf x <= digitsOf y)%Z.
Proof.
  intros H0 Hxy Hy.
  pose proof (FloatMono.nonneg_of_bounds x H0 (FloatOrder.leb_ltb_trans _ _ _ Hxy Hy)) as Nx.
  pose proof (FloatMono.nonneg_of_bounds y (FloatOrder.leb_trans _ _ _ H0 Hxy) Hy) as Ny.
  pose proof (Prim2SF_valid x) as Vx; pose proof (Prim2SF_valid y) as Vy.
  rewrite leb_spec in Hxy.
  assert (Fx : Rounding.is_finite_SF (Prim2SF x) = true)
    by (destruct (Prim2SF x) as [| | |[|]]; try discriminate; reflexivity).
  assert (Fy : Rounding.is_finite_SF (Prim2SF y) = true)
    by (destruct (Prim2SF y) as [| | |[|]]; try discriminate; reflexivity).
  pose proof (Rounding.SFleb_Zv _ _ Vx Vy Fx Fy Hxy) as Hv.
  unfold digitsOf.
  destruct (Prim2SF x) as [sx| | |[|] mx ex]; try discriminate;
    destruct (Prim2SF y) as [sy| | |[|] my ey]; try discriminate; cbn [Rounding.Zv] in Hv.
  - lia.
  - apply Rounding.valid_canonical in Vy; destruct Vy as [Cy _].
    destruct (Rounding.canonical_cases _ _ Cy) as [Ly _].
    split; [lia|].
    rewrite round_half_up_100_eq by exact Ly.
    apply Z.div_pos; [|apply Rounding.pow2_pos; lia].
    pose proof (Rounding.pow2_pos 1074 ltac:(lia)); lia.
  - apply Rounding.valid_canonical in Vx, Vy; destruct Vx as [Cx _], Vy as [Cy _].
    destruct (Rounding.canonical_cases _ _ Cx) as [Lx _].
    destruct (Rounding.canonical_cases _ _ Cy) as [Ly _].
    apply round_half_up_100_mono; assumption.
Qed.

(** The stored values grow with their digits. *)
Lemma storedValue_mono k1 k2 :
  (Zpos k1 <= Zpos k2)%Z -> (storedValue k1 <=? storedValue k2) = true.
Proof.
  intros H; unfold storedValue, JS.parseFloat_fixed.
  rewrite leb_spec; rewrite !Prim2SF_SF2Prim by apply FloatDiv.SFdiv_valid.
  apply (Quotient.SFdiv_mono_finite k1 0 k2 0 100 0 0); lia.
Qed.

Lemma roundTo2_of_digits x :
  (0 <=? x) = true -> (x <? 1e21) = true ->
  roundTo2 x = match digitsOf x with
               | Zpos k => storedValue k
               | _ => 0
               end.
Proof.
  intros H0 Hx; unfold roundTo2; rewrite (toFixed2_digits x H0 Hx).
  destruct (digitsOf x); reflexivity.
Qed.

(** Rounding to two decimals keeps the order. *)
Lemma roundTo2_mono x y :
  (0 <=? x) = true -> (x <=? y) = true -> (y <? 1e21) = true ->
  (roundTo2 x <=? roundTo2 y) = true.
Proof.
  intros H0 Hxy Hy.
  pose proof (digitsOf_mono x y H0 Hxy (FloatOrder.ltb_trans y 1e21 infinity Hy eq_refl)) as D.
  rewrite (roundTo2_of_digits x H0 (FloatOrder.leb_ltb_trans _ _ _ Hxy Hy)).
  rewrite (roundTo2_of_digits y (FloatOrder.leb_trans _ _ _ H0 Hxy) Hy).
  destruct (digitsOf x) as [|kx|kx], (digitsOf y) as [|ky|ky]; try lia; try reflexivity.
  - unfold storedValue, JS.parseFloat_fixed.
    apply FloatMono.nn_leb, FloatMono.SF2Prim_nn, Rounding.SFdiv_nn; reflexivity.
  - apply storedValue_mono; lia.
Qed.

(** A number between two that print stored digits prints digits in between. *)
Lemma digits_between lo v hi klo khi :
  (0 <=? lo) = true -> (lo <=? v) = true -> (v <=? hi) = true -> (hi <? 1e21) = true ->
  digitsOf lo = Zpos klo -> digitsOf hi = Zpos khi ->
  exists k, (Zpos klo <= Zpos k <= Zpos khi)%Z /\ roundTo2 v = storedValue k.
Proof.
  intros H0 Hlo Hhi Hbig Elo Ehi.
  assert (Hv0 : (0 <=? v) = true) by exact (FloatOrder.leb_trans _ _ _ H0 Hlo).
  assert (Hinf : (hi <? infinity) = true) by exact (FloatOrder.ltb_trans hi 1e21 infinity Hbig eq_refl).
  pose proof (digitsOf_mono lo v H0 Hlo (FloatOrder.leb_ltb_trans _ _ _ Hhi Hinf)) as D1.
  pose proof (digitsOf_mono v hi Hv0 Hhi Hinf) as D2.
  rewrite (roundTo2_of_digits v Hv0 (FloatOrder.leb_ltb_trans _ _ _ Hhi Hbig)).
  rewrite Elo in D1; rewrite Ehi in D2.
  destruct (digitsOf v) as [|k|k]; try lia.
  exists k; split; [lia | reflexivity].
Qed.

Lemma is_nan_ordered x : is_nan x = false -> FloatOrder.ordered x.
Proof.
  unfold is_nan, FloatOrder.ordered; rewrite eqb_spec; unfold SFeqb.
  destruct (SFcompare (Prim2SF x) (Prim2SF x)) as [[| |]|]; try discriminate; reflexivity.
Qed.

Lemma ordered_is_nan x : FloatOrder.ordered x -> is_nan x = false.
Proof.
  unfold is_nan, FloatOrder.ordered; rewrite eqb_spec; unfold SFeqb.
  intros ->; reflexivity.
Qed.

(** ** Largest and smallest multiplier *)

Lemma leb_refl x : FloatOrder.ordered x -> (x <=? x) = true.
Proof. intros H; rewrite leb_spec; unfold SFleb; rewrite H; reflexivity. Qed.

Lemma leb_total x y :
  FloatOrder.ordered x -> FloatOrder.ordered y -> (x <? y) = false -> (y <=? x) = true.
Proof. intros Hx Hy H; rewrite (FloatOrder.leb_negb_ltb y x Hy Hx), H; reflexivity. Qed.

Lemma max2_spec a b :
  FloatOrder.ordered a -> FloatOrder.ordered b ->
  (JS.max2 a b = a \/ JS.max2 a b = b) /\
  (a <=? JS.max2 a b) = true /\ (b <=? JS.max2 a b) = true.
Proof.
  intros Ha Hb; unfold JS.max2.
  rewrite (ordered_is_nan a Ha), (ordered_is_nan b Hb); cbn [orb].
  destruct (a <? b) eqn:E1; [|destruct (b <? a) eqn:E2].
  - split; [right; reflexivity | split; [apply ltb_leb; exact E1 | apply leb_refl; exact Hb]].
  - split; [left; reflexivity | split; [apply leb_refl; exact Ha | apply ltb_leb; exact E2]].
  - pose proof (leb_total a b Ha Hb E1) as L1.
    pose proof (leb_total b a Hb Ha E2) as L2.
    destruct (get_sign a).
    + split; [right; reflexivity | split; [exact L2 | apply leb_refl; exact Hb]].
    + split; [left; reflexivity | split; [apply leb_refl; exact Ha | exact L1]].
Qed.

Lemma min2_spec a b :
  FloatOrder.ordered a -> FloatOrder.ordered b ->
  (JS.min2 a b = a \/ JS.min2 a b = b) /\
  (JS.min2 a b <=? a) = true /\ (JS.min2 a b <=? b) = true.
Proof.
  intros Ha Hb; unfold JS.min2.
  rewrite (ordered_is_nan a Ha), (ordered_is_nan b Hb); cbn [orb].
  destruct (a <? b) eqn:E1; [|destruct (b <? a) eqn:E2].
  - split; [left; reflexivity | split; [apply leb_refl; exact Ha | apply ltb_leb; exact E1]].
  - split; [right; reflexivity | split; [apply ltb_leb; exact E2 | apply leb_refl; exact Hb]].
  - pose proof (leb_total a b Ha Hb E1) as L1.
    pose proof (leb_total b a Hb Ha E2) as L2.
    destruct (get_sign a).
    + split; [left; reflexivity | split; [apply leb_refl; exact Ha | exact L2]].
    + split; [right; reflexivity | split; [exact L1 | apply leb_refl; exact Hb]].
Qed.

Lemma ltb_neg_infinity x : (x <? neg_infinity) = false.
Proof.
  rewrite ltb_spec; change (Prim2SF neg_infinity) with (S754_infinity true).
  destruct (Prim2SF x) as [s|[|]| |[|] m e]; reflexivity.
Qed.

Lemma ltb_infinity x : (infinity <? x) = false.
Proof.
  rewrite ltb_spec; change (Prim2SF infinity) with (S754_infinity false).
  destruct (Prim2SF x) as [s|[|]| |[|] m e]; reflexivity.
Qed.

Lemma max2_neg_infinity x : FloatOrder.ordered x -> JS.max2 neg_infinity x = x.
Proof.
  intros Hx; unfold JS.max2.
  rewrite (ordered_is_nan x Hx), ltb_neg_infinity.
  change (is_nan neg_infinity) with false; change (get_sign neg_infinity) with true.
  cbn [orb]; destruct (neg_infinity <? x); reflexivity.
Qed.

Lemma min2_infinity x : FloatOrder.ordered x -> JS.min2 infinity x = x.
Proof.
  intros Hx; unfold JS.min2.
  rewrite (ordered_is_nan x Hx), ltb_infinity.
  change (is_nan infinity) with false; change (get_sign infinity) with false.
  cbn [orb]; destruct (x <? infinity); reflexivity.
Qed.

Lemma fold_max2_spec l : forall acc,
  FloatOrder.ordered acc -> Forall FloatOrder.ordered l ->
  let r := fold_left JS.max2 l acc in
  (r = acc \/ In r l) /\ (acc <=? r) = true /\ Forall (fun x => (x <=? r) = true) l.
Proof.
  induction l as [|x l IH]; intros acc Ha Hl; cbn [fold_left].
  - split; [left; reflexivity | split; [apply leb_refl; exact Ha | constructor]].
  - inversion Hl as [|? ? Hx Hl']; subst.
    destruct (max2_spec acc x Ha Hx) as [Hin [L1 L2]].
    assert (Hm : FloatOrder.ordered (JS.max2 acc x))
      by (destruct Hin as [-> | ->]; assumption).
    destruct (IH (JS.max2 acc x) Hm Hl') as [Hr [Hle Hall]].
    split; [|split].
    + destruct Hr as [-> | Hr]; [|right; right; exact Hr].
      destruct Hin as [-> | ->]; [left; reflexivity | right; left; reflexivity].
    + exact (FloatOrder.leb_trans _ _ _ L1 Hle).
    + constructor; [exact (FloatOrder.leb_trans _ _ _ L2 Hle) | exact Hall].
Qed.

Lemma fold_min2_spec l : forall acc,
  FloatOrder.ordered acc -> Forall FloatOrder.ordered l ->
  let r := fold_left JS.min2 l acc in
  (r = acc \/ In r l) /\ (r <=? acc) = true /\ Forall (fun x => (r <=? x) = true) l.
Proof.
  induction l as [|x l IH]; intros acc Ha Hl; cbn [fold_left].
  - split; [left; reflexivity | split; [apply leb_refl; exact Ha | constructor]].
  - inversion Hl as [|? ? Hx Hl']; subst.
    destruct (min2_spec acc x Ha Hx) as [Hin [L1 L2]].
    assert (Hm : FloatOrder.ordered (JS.min2 acc x))
      by (destruct Hin as [-> | ->]; assumption).
    destruct (IH (JS.min2 acc x) Hm Hl') as [Hr [Hle Hall]].
    split; [|split].
    + destruct Hr as [-> | Hr]; [|right; right; exact Hr].
      destruct Hin as [-> | ->]; [left; reflexivity | right; left; reflexivity].
    + exact (FloatOrder.leb_trans _ _ _ Hle L1).
    + constructor; [exact (FloatOrder.leb_trans _ _ _ Hle L2) | exact Hall].
Qed.

(** On a non-empty list without NaN, [Math.max] returns an element that every
    element is at most, and [Math.min] one that is at most every element. *)
Lemma Math_max_spec l :
  l <> [] -> Forall FloatOrder.ordered l ->
  In (JS.Math_max l) l /\ Forall (fun x => (x <=? JS.Math_max l) = true) l.
Proof.
  destruct l as [|x l]; [congruence|]; intros _ Hl.
  inversion Hl as [|? ? Hx Hl']; subst.
  unfold JS.Math_max; cbn [fold_left]; rewrite (max2_neg_infinity x Hx).
  destruct (fold_max2_spec l x Hx Hl') as [Hr [Hle Hall]].
  split; [|constructor; assumption].
  destruct Hr as [-> | Hr]; [left; reflexivity | right; exact Hr].
Qed.

Lemma Math_min_spec l :
  l <> [] -> Forall FloatOrder.ordered l ->
  In (JS.Math_min l) l /\ Forall (fun x => (JS.Math_min l <=? x) = true) l.
Proof.
  destruct l as [|x l]; [congruence|]; intros _ Hl.
  inversion Hl as [|? ? Hx Hl']; subst.
  unfold JS.Math_min; cbn [fold_left]; rewrite (min2_infinity x Hx).
  destruct (fold_min2_spec l x Hx Hl') as [Hr [Hle Hall]].
  split; [|constructor; assumption].
  destruct Hr as [-> | Hr]; [left; reflexivity | right; exact Hr].
Qed.

(** NaN is contagious. *)
Lemma fold_max2_nan l : forall acc,
  is_nan acc = true \/ Exists (fun x => is_nan x = true) l ->
  is_nan (fold_left JS.max2 l acc) = true.
Proof.
  induction l as [|x l IH]; intros acc H; cbn [fold_left].
  - destruct H as [H | H]; [exact H | inversion H].
  - apply IH; unfold JS.max2.
    destruct H as [H | H]; [rewrite H; left; reflexivity|].
    inversion H as [? ? Hx | ? ? Hx]; subst.
    + rewrite Hx, orb_true_r; left; reflexivity.
    + right; exact Hx.
Qed.

Lemma fold_min2_nan l : forall acc,
  is_nan acc = true \/ Exists (fun x => is_nan x = true) l ->
  is_nan (fold_left JS.min2 l acc) = true.
Proof.
  induction l as [|x l IH]; intros acc H; cbn [fold_left].
  - destruct H as [H | H]; [exact H | inversion H].
  - apply IH; unfold JS.min2.
    destruct H as [H | H]; [rewrite H; left; reflexivity|].
    inversion H as [? ? Hx | ? ? Hx]; subst.
    + rewrite Hx, orb_true_r; left; reflexivity.
    + right; exact Hx.
Qed.

Lemma calculateStatistics_extremes h s :
  calculateStatistics h = Some s ->
  h <> [] /\
  maxMultiplier s = JS.Math_max (map multiplier h) /\
  minMultiplier s = JS.Math_min (map multiplier h).
Proof.
  unfold calculateStatistics; destruct h as [|c h]; [discriminate|].
  cbn [length Nat.eqb]; intros E; injection E as <-.
  repeat split; discriminate.
Qed.

Lemma extremes_spec h s :
  calculateStatistics h = Some s ->
  Forall (fun c => is_nan (multiplier c) = false) h ->
  (exists c, In c h /\ multiplier c = maxMultiplier s) /\
  Forall (fun c => (multiplier c <=? maxMultiplier s) = true) h /\
  (exists c, In c h /\ multiplier c = minMultiplier s) /\
  Forall (fun c => (minMultiplier s <=? multiplier c) = true) h.
Proof.
  intros Hs Hn; destruct (calculateStatistics_extremes h s Hs) as [Hne [-> ->]].
  assert (Ho : Forall FloatOrder.ordered (map multiplier h)).
  { apply Forall_map; eapply Forall_impl; [|exact Hn].
    intros c; apply is_nan_ordered. }
  assert (Hne' : map multiplier h <> [])
    by (destruct h; [congruence | discriminate]).
  destruct (Math_max_spec _ Hne' Ho) as [Imax Umax].
  destruct (Math_min_spec _ Hne' Ho) as [Imin Umin].
  apply Forall_map in Umax, Umin.
  split; [|split; [exact Umax | split; [|exact Umin]]].
  - apply in_map_iff in Imax; destruct Imax as [c [E I]]; exists c; split; assumption.
  - apply in_map_iff in Imin; destruct Imin as [c [E I]]; exists c; split; assumption.
Qed.

(** The largest and the smallest multiplier of the statistics are multipliers of
    the history that bound all the others; one NaN in the history turns both
    into NaN. *)
Theorem max_min_attained (h : list CrashPoint) (s : Statistics) :
  calculateStatistics h = Some s ->
  (Forall (fun c => is_nan (multiplier c) = false) h ->
   (exists c, In c h /\ multiplier c = maxMultiplier s) /\
   Forall (fun c => (multiplier c <=? maxMultiplier s) = true) h /\
   (exists c, In c h /\ multiplier c = minMultiplier s) /\
   Forall (fun c => (minMultiplier s <=? multiplier c) = true) h /\
   (minMultiplier s <=? maxMultiplier s) = true) /\
  (Exists (fun c => is_nan (multiplier c) = true) h ->
   is_nan (maxMultiplier s) = true /\ is_nan (minMultiplier s) = true).
Proof.
  intros Hs; split.
  - intros Hn; destruct (extremes_spec h s Hs Hn) as (Emax & Umax & Emin & Umin).
    split; [exact Emax | split; [exact Umax | split; [exact Emin | split; [exact Umin|]]]].
    destruct Emin as [c [Ic Ec]]; rewrite <- Ec.
    exact (proj1 (Forall_forall _ _) Umax c Ic).
  - destruct (calculateStatistics_extremes h s Hs) as [Hne [-> ->]].
    intros He.
    assert (He' : Exists (fun x => is_nan x = true) (map multiplier h)).
    { apply Exists_exists in He; destruct He as [c [Ic Hc]].
      apply Exists_exists; exists (multiplier c); split; [apply in_map; exact Ic | exact Hc]. }
    split; [apply fold_max2_nan | apply fold_min2_nan]; right; exact He'.
Qed.

Lemma max_min_attained_witness :
  exists s, calculateStatistics (map mk [1.50; 2.50; 9.99; 1.00]) = Some s /\
    (exists c, In c (map mk [1.50; 2.50; 9.99; 1.00]) /\ multiplier c = maxMultiplier s) /\
    maxMultiplier s = 9.99 /\ minMultiplier s = 1.00.
Proof.
  eexists; split; [reflexivity|].
  split; [|split; reflexivity].
  apply (max_min_attained (map mk [1.50; 2.50; 9.99; 1.00]) _ eq_refl).
  repeat constructor.
Defined.

(** ** Statistics that do not depend on the order of the history *)

Lemma countWhere_perm (p : CrashPoint -> bool) h h' :
  Permutation h h' -> countWhere p h = countWhere p h'.
Proof.
  induction 1 as [|c h h' _ IH|c c' h|h h' h'' _ IH1 _ IH2].
  - reflexivity.
  - rewrite !countWhere_cons, IH; reflexivity.
  - rewrite !countWhere_cons; lia.
  - rewrite IH1; exact IH2.
Qed.

Lemma length_filter_map {A B} (f : A -> B) (p : B -> bool) (l : list A) :
  length (filter p (map f l)) = length (filter (fun x => p (f x)) l).
Proof.
  induction l as [|x l IH]; cbn; [reflexivity|].
  destruct (p (f x)); cbn; rewrite IH; reflexivity.
Qed.

Lemma calculateStatistics_counters h s :
  calculateStatistics h = Some s ->
  crashesBelow2x s = countWhere (fun c => multiplier c <? 2) h /\
  crashesAbove5x s = countWhere (fun c => JS.geb (multiplier c) 5) h /\
  crashesAbove10x s = countWhere (fun c => JS.geb (multiplier c) 10) h.
Proof.
  unfold calculateStatistics; destruct (Nat.eqb (length h) 0); [discriminate|].
  intros E; injection E as <-; cbn [crashesBelow2x crashesAbove5x crashesAbove10x].
  unfold countWhere; rewrite !length_filter_map; repeat split.
Qed.

Lemma calculateStatistics_median h s :
  calculateStatistics h = Some s ->
  medianMultiplier s = roundTo2 (medianOf (JS.Array_sort compareFn (map multiplier h))).
Proof.
  unfold calculateStatistics; destruct (Nat.eqb (length h) 0); [discriminate|].
  intros E; injection E as <-; reflexivity.
Qed.

(** The median, the largest and the smallest multiplier and the three counters
    depend on the multipliers only, not on their order in the history. *)
Theorem statistics_order_independent (h h' : list CrashPoint) (s s' : Statistics) :
  Permutation h h' ->
  Forall (fun c => FloatMono.positive_number (multiplier c)) h ->
  calculateStatistics h = Some s -> calculateStatistics h' = Some s' ->
  medianMultiplier s = medianMultiplier s' /\
  maxMultiplier s = maxMultiplier s' /\
  minMultiplier s = minMultiplier s' /\
  crashesBelow2x s = crashesBelow2x s' /\
  crashesAbove5x s = crashesAbove5x s' /\
  crashesAbove10x s = crashesAbove10x s'.
Proof.
  intros P Hp Hs Hs'.
  assert (Hp' : Forall (fun c => FloatMono.positive_number (multiplier c)) h').
  { apply Forall_forall; intros c Hc.
    apply (proj1 (Forall_forall _ _) Hp), (Permutation_in _ (Permutation_sym P)), Hc. }
  assert (Hn : forall l, Forall (fun c => FloatMono.positive_number (multiplier c)) l ->
                         Forall (fun c => is_nan (multiplier c) = false) l).
  { intros l Hl; eapply Forall_impl; [|exact Hl].
    intros c Hc; apply ordered_is_nan, positive_ordered, Hc. }
  destruct (calculateStatistics_counters h s Hs) as [E2 [E5 E10]].
  destruct (calculateStatistics_counters h' s' Hs') as [E2' [E5' E10']].
  split; [|split; [|split; [|split; [|split]]]].
  - rewrite (calculateStatistics_median h s Hs), (calculateStatistics_median h' s' Hs').
    do 2 f_equal.
    assert (Hm : forall l, Forall (fun c => FloatMono.positive_number (multiplier c)) l ->
                           Forall FloatMono.positive_number (map multiplier l))
      by (intros l Hl; apply Forall_map; exact Hl).
    apply ascending_unique.
    + apply Forall_forall; intros x Hx.
      apply (Permutation_in _ (Array_sort_perm _)) in Hx.
      exact (proj1 (Forall_forall _ _) (Hm h Hp) x Hx).
    + apply Array_sort_ascending, Hm, Hp.
    + apply Array_sort_ascending, Hm, Hp'.
    + rewrite Array_sort_perm, Array_sort_perm; apply Permutation_map; exact P.
  - destruct (extremes_spec h s Hs (Hn h Hp)) as ([c [Ic Ec]] & U & _).
    destruct (extremes_spec h' s' Hs' (Hn h' Hp')) as ([c' [Ic' Ec']] & U' & _).
    rewrite <- Ec, <- Ec'.
    apply leb_antisym.
    + exact (proj1 (Forall_forall _ _) Hp c Ic).
    + rewrite Ec'; apply (proj1 (Forall_forall _ _) U' c), (Permutation_in _ P), Ic.
    + rewrite Ec; apply (proj1 (Forall_forall _ _) U c'), (Permutation_in _ (Permutation_sym P)), Ic'.
  - destruct (extremes_spec h s Hs (Hn h Hp)) as (_ & _ & [c [Ic Ec]] & U).
    destruct (extremes_spec h' s' Hs' (Hn h' Hp')) as (_ & _ & [c' [Ic' Ec']] & U').
    rewrite <- Ec, <- Ec'.
    apply leb_antisym.
    + exact (proj1 (Forall_forall _ _) Hp c Ic).
    + rewrite Ec; apply (proj1 (Forall_forall _ _) U c'), (Permutation_in _ (Permutation_sym P)), Ic'.
    + rewrite Ec'; apply (proj1 (Forall_forall _ _) U' c), (Permutation_in _ P), Ic.
  - rewrite E2, E2'; apply countWhere_perm, P.
  - rewrite E5, E5'; apply countWhere_perm, P.
  - rewrite E10, E10'; apply countWhere_perm, P.
Qed.

Lemma statistics_order_independent_witness :
  exists s s',
    calculateStatistics (map mk [1.50; 2.50; 9.99; 1.00]) = Some s /\
    calculateStatistics (map mk [9.99; 1.00; 2.50; 1.50]) = Some s' /\
    medianMultiplier s = medianMultiplier s' /\
    maxMultiplier s = maxMultiplier s' /\
    minMultiplier s = minMultiplier s' /\
    crashesBelow2x s = crashesBelow2x s' /\
    crashesAbove5x s = crashesAbove5x s' /\
    crashesAbove10x s = crashesAbove10x s'.
Proof.
  do 2 eexists; split; [reflexivity | split; [reflexivity|]].
  apply (statistics_order_independent (map mk [1.50; 2.50; 9.99; 1.00])
           (map mk [9.99; 1.00; 2.50; 1.50]) _ _); try reflexivity.
  - cbn [map].
    apply (perm_trans (l' := [mk 1.50; mk 2.50; mk 1.00; mk 9.99])).
    + do 2 apply perm_skip; apply perm_swap.
    + apply Permutation_sym.
      apply (perm_trans (l' := [mk 1.00; mk 9.99; mk 2.50; mk 1.50])); [apply perm_swap|].
      apply (perm_trans (l' := [mk 1.00; mk 2.50; mk 9.99; mk 1.50]));
        [apply perm_skip, perm_swap|].
      apply (perm_trans (l' := [mk 1.00; mk 2.50; mk 1.50; mk 9.99]));
        [do 2 apply perm_skip; apply perm_swap|].
      apply (perm_trans (l' := [mk 2.50; mk 1.00; mk 1.50; mk 9.99])); [apply perm_swap|].
      apply (perm_trans (l' := [mk 2.50; mk 1.50; mk 1.00; mk 9.99]));
        [apply perm_skip, perm_swap|].
      apply perm_swap.
  - repeat constructor.
Defined.

(** ** The mean of identical stored multipliers *)

(** Checks, for [todo] more counts, that the mean of so many copies of [x] lies
    between [lo] and [hi]; [sum] is the sum of the copies so far, [nf] their
    count. *)
Fixpoint meanLoop (todo : nat) (lo hi x sum nf : float) : bool :=
  match todo with
  | O => true
  | S t =>
      let sum' := sum + x in
      let nf' := nf + 1 in
      let avg := sum' / nf' in
      if lo <=? avg then if avg <=? hi then meanLoop t lo hi x sum' nf' else false else false
  end.

(** Two numbers around the stored value of the digits [k] that print [k]. *)
Definition lowAnchor (k : positive) : float := storedValue k * 0x0.fffffffffp0.
Definition highAnchor (k : positive) : float := storedValue k * 0x1.000000001p0.

Definition meanCheck (k : positive) : bool :=
  let x := storedValue k in
  let lo := x * 0x0.fffffffffp0 in
  let hi := x * 0x1.000000001p0 in
  (0 <=? lo) && (lo <=? x) && (x <=? hi) && (hi <? 1e21)
  && Z.eqb (digitsOf lo) (Zpos k) && Z.eqb (digitsOf hi) (Zpos k)
  && meanLoop 100 lo hi x 0 0.

Lemma meanCheck_ok : forallb meanCheck storedRange = true.
Proof. vm_compute; reflexivity. Qed.

Lemma meanLoop_sound todo : forall lo hi x sum nf n,
  meanLoop todo lo hi x sum nf = true ->
  sum = addLoop n x 0 -> nf = addLoop n 1 0 ->
  forall j, (n < j <= n + todo)%nat ->
    (lo <=? addLoop j x 0 / addLoop j 1 0) = true /\
    (addLoop j x 0 / addLoop j 1 0 <=? hi) = true.
Proof.
  induction todo as [|t IH]; intros lo hi x sum nf n Hc Hs Hn j Hj; [lia|].
  cbn [meanLoop] in Hc; cbv zeta in Hc.
  destruct (lo <=? (sum + x) / (nf + 1)) eqn:E1; [|discriminate].
  destruct ((sum + x) / (nf + 1) <=? hi) eqn:E2; [|discriminate].
  assert (Hs' : sum + x = addLoop (S n) x 0) by (rewrite addLoop_succ, Hs; reflexivity).
  assert (Hn' : nf + 1 = addLoop (S n) 1 0) by (rewrite addLoop_succ, Hn; reflexivity).
  destruct (Nat.eq_dec j (S n)) as [->|Hne].
  - rewrite <- Hs', <- Hn'; split; assumption.
  - apply (IH lo hi x (sum + x) (nf + 1) (S n) Hc Hs' Hn'); lia.
Qed.

Lemma lengthFloats : Forall (fun n => JS.of_length n = addLoop n 1 0) (seq 0 101).
Proof. repeat constructor. Qed.

Lemma of_length_addLoop n : (n <= 100)%nat -> JS.of_length n = addLoop n 1 0.
Proof.
  intros Hn; apply (proj1 (Forall_forall _ _) lengthFloats n), in_seq; lia.
Qed.

(** The two numbers around a stored value, and the means between them. *)
Lemma mean_anchors k :
  (100 <= Zpos k <= 10000)%Z ->
  (0 <=? lowAnchor k) = true /\ (highAnchor k <? 1e21) = true /\
  digitsOf (lowAnchor k) = Zpos k /\ digitsOf (highAnchor k) = Zpos k /\
  (lowAnchor k <=? storedValue k) = true /\ (storedValue k <=? highAnchor k) = true /\
  forall n, (1 <= n <= 100)%nat ->
    (lowAnchor k <=? addLoop n (storedValue k) 0 / JS.of_length n) = true /\
    (addLoop n (storedValue k) 0 / JS.of_length n <=? highAnchor k) = true.
Proof.
  intros Hk.
  pose proof (proj1 (forallb_forall meanCheck storedRange) meanCheck_ok k
                (storedRange_In k Hk)) as H.
  unfold meanCheck in H; cbv zeta in H; fold (lowAnchor k) in H; fold (highAnchor k) in H.
  repeat (apply andb_prop in H; destruct H as [H ?]).
  repeat split; try assumption; try (apply Z.eqb_eq; assumption).
  - rewrite (of_length_addLoop n) by lia.
    eapply (meanLoop_sound 100 _ _ _ 0 0 0); try eassumption; try reflexivity; lia.
  - rewrite (of_length_addLoop n) by lia.
    eapply (meanLoop_sound 100 _ _ _ 0 0 0); try eassumption; try reflexivity; lia.
Qed.

(** Printing a stored value gives its digits; rounding it again changes
    nothing. *)
Lemma digitsOf_stored k :
  (100 <= Zpos k <= 10000)%Z -> digitsOf (storedValue k) = Zpos k.
Proof.
  intros Hk; destruct (mean_anchors k Hk) as (H0 & Hb & D1 & D2 & L1 & L2 & _).
  pose proof (digitsOf_mono _ _ H0 L1
                (FloatOrder.leb_ltb_trans _ _ _ L2
                   (FloatOrder.ltb_trans _ 1e21 infinity Hb eq_refl))) as M1.
  pose proof (digitsOf_mono _ _ (FloatOrder.leb_trans _ _ _ H0 L1) L2
                (FloatOrder.ltb_trans _ 1e21 infinity Hb eq_refl)) as M2.
  lia.
Qed.

Lemma toFixed2_stored k :
  (100 <= Zpos k <= 10000)%Z -> JS.toFixed2 (storedValue k) = JS.FixedDigits false (Zpos k).
Proof.
  intros Hk; destruct (mean_anchors k Hk) as (H0 & Hb & _ & _ & L1 & L2 & _).
  rewrite toFixed2_digits, (digitsOf_stored k Hk); [reflexivity | |].
  - exact (FloatOrder.leb_trans _ _ _ H0 L1).
  - exact (FloatOrder.leb_ltb_trans _ _ _ L2 Hb).
Qed.

Lemma roundTo2_idempotent m : storedMultiplier m -> roundTo2 m = m.
Proof.
  intros [k [Hk ->]]; unfold roundTo2; rewrite (toFixed2_stored k Hk); reflexivity.
Qed.

(** [parseFloat(x.toFixed(2))] keeps the order of the numbers of [[0, 1e21)],
    gives a stored multiplier on [[1, 100]], which it leaves as it is, and
    printing the number read from the digits [k] gives the digits [k] back. *)
Theorem roundTo2_monotone_idempotent :
  (forall x y, (0 <=? x) = true -> (x <=? y) = true -> (y <? 1e21) = true ->
     (roundTo2 x <=? roundTo2 y) = true) /\
  (forall v, (1 <=? v) = true -> (v <=? 100) = true ->
     storedMultiplier (roundTo2 v) /\ roundTo2 (roundTo2 v) = roundTo2 v) /\
  (forall k, (100 <= Zpos k <= 10000)%Z ->
     JS.toFixed2 (JS.parseFloat_fixed (JS.FixedDigits false (Zpos k)))
     = JS.FixedDigits false (Zpos k)).
Proof.
  split; [exact roundTo2_mono | split].
  - intros v H1 H2; pose proof (roundTo2_stored v H1 H2) as S.
    split; [exact S | apply roundTo2_idempotent; exact S].
  - intros k Hk; exact (toFixed2_stored k Hk).
Qed.

(** ** Sums of multipliers *)

(** Every partial sum stays finite. *)
Fixpoint sumsFinite (l : list float) (acc : float) : Prop :=
  (acc <? infinity) = true /\
  match l with
  | [] => True
  | x :: l' => sumsFinite l' (acc + x)
  end.

(** Element by element below: [a] positive, [b] finite. *)
Definition below_each (l1 l2 : list float) : Prop :=
  Forall2 (fun a b => (0 <? a) = true /\ (a <=? b) = true /\ (b <? infinity) = true) l1 l2.

Lemma sum_mono l1 : forall l2 acc1 acc2,
  below_each l1 l2 ->
  FloatMono.nn acc1 -> (acc1 <=? acc2) = true -> sumsFinite l2 acc2 ->
  (fold_left add l1 acc1 <=? fold_left add l2 acc2) = true /\ sumsFinite l1 acc1.
Proof.
  induction l1 as [|a l1 IH]; intros l2 acc1 acc2 Hb Hn Ha Hf;
    inversion Hb as [|? b ? l2' [Ha0 [Hab Hbf]] Hb']; subst; cbn [fold_left sumsFinite] in *.
  - split; [exact Ha|]; split; [|exact I].
    exact (FloatOrder.leb_ltb_trans _ _ _ Ha (proj1 Hf)).
  - destruct Hf as [Hf1 Hf2].
    assert (Hfin : (a <? infinity) = true) by exact (FloatOrder.leb_ltb_trans _ _ _ Hab Hbf).
    assert (Hstep : (acc1 + a <=? acc2 + b) = true).
    { apply FloatDiv.add_mono_both; try assumption.
      apply FloatMono.nn_leb; exact Hn. }
    assert (Hn' : FloatMono.nn (acc1 + a)).
    { apply FloatMono.add_nn; [exact Hn|].
      apply FloatMono.positive_nn; split; assumption. }
    destruct (IH l2' (acc1 + a) (acc2 + b) Hb' Hn' Hstep Hf2) as [I1 I2].
    split; [exact I1|]; split; [|exact I2].
    exact (FloatOrder.leb_ltb_trans _ _ _ Ha Hf1).
Qed.

Lemma sumsFinite_final l : forall acc,
  sumsFinite l acc -> (fold_left add l acc <? infinity) = true.
Proof.
  induction l as [|x l IH]; intros acc [H1 H2]; cbn [fold_left]; [exact H1|].
  apply IH; exact H2.
Qed.

Lemma below_each_repeat_r l b :
  Forall (fun a => (0 <? a) = true /\ (a <=? b) = true) l -> (b <? infinity) = true ->
  below_each l (repeat b (length l)).
Proof.
  intros H Hb; induction H as [|a l [H1 H2] _ IH]; cbn [length repeat]; constructor;
    [repeat split; assumption | exact IH].
Qed.

Lemma below_each_repeat_l l a :
  (0 <? a) = true ->
  Forall (fun b => (a <=? b) = true /\ (b <? infinity) = true) l ->
  below_each (repeat a (length l)) l.
Proof.
  intros Ha H; induction H as [|b l [H1 H2] _ IH]; cbn [length repeat]; constructor;
    [repeat split; assumption | exact IH].
Qed.

(** A quotient that is finite comes from a finite dividend. *)
Lemma div_finite_inv s c hi :
  FloatMono.nn s -> FloatMono.positive_number c ->
  (s / c <=? hi) = true -> (hi <? infinity) = true -> (s <? infinity) = true.
Proof.
  intros Hs [Hc0 Hc] Hq Hhi.
  pose proof (FloatOrder.leb_ltb_trans _ _ _ Hq Hhi) as F.
  destruct (FloatMono.positive_finite c Hc0 Hc) as [mc [ec Ec]].
  rewrite ltb_spec, div_spec, Ec in F; unfold SF64div in F.
  rewrite ltb_spec; unfold FloatMono.nn in Hs.
  change (Prim2SF infinity) with (S754_infinity false) in *.
  destruct (Prim2SF s) as [z|[|]| |[|] m e]; try discriminate; reflexivity.
Qed.

(** The sums of up to 100 copies of a stored multiplier are finite. *)
Lemma stored_sums_finite k n :
  (100 <= Zpos k <= 10000)%Z -> (n <= 100)%nat ->
  FloatMono.nn (addLoop n (storedValue k) 0) /\
  (addLoop n (storedValue k) 0 <? infinity) = true.
Proof.
  intros Hk Hn.
  assert (Hp : FloatMono.positive_number (storedValue k))
    by (apply stored_positive; exists k; split; [exact Hk | reflexivity]).
  assert (Hnn : FloatMono.nn (addLoop n (storedValue k) 0)).
  { rewrite <- fold_left_repeat; apply sum_nn; [|reflexivity].
    apply Forall_forall; intros x Hx; apply repeat_spec in Hx; subst; exact Hp. }
  split; [exact Hnn|].
  destruct n as [|n]; [reflexivity|].
  destruct (mean_anchors k Hk) as (_ & Hb & _ & _ & _ & _ & Hm).
  destruct (Hm (S n) ltac:(lia)) as [_ U].
  apply (div_finite_inv _ (JS.of_length (S n)) (highAnchor k)); try assumption.
  - apply of_length_positive; lia.
  - exact (FloatOrder.ltb_trans _ 1e21 infinity Hb eq_refl).
Qed.

Lemma stored_sumsFinite k n : forall j,
  (100 <= Zpos k <= 10000)%Z -> (j + n <= 100)%nat ->
  sumsFinite (repeat (storedValue k) n) (addLoop j (storedValue k) 0).
Proof.
  induction n as [|n IH]; intros j Hk Hj; cbn [repeat sumsFinite].
  - split; [|exact I]. apply stored_sums_finite; [exact Hk | lia].
  - split; [apply stored_sums_finite; [exact Hk | lia]|].
    rewrite <- addLoop_succ; apply IH; [exact Hk | lia].
Qed.

(** The rounded mean of stored multipliers between two stored values is a
    stored value between them. *)
Lemma mean_between l klo khi :
  (100 <= Zpos klo <= 10000)%Z -> (100 <= Zpos khi <= 10000)%Z ->
  (1 <= length l <= 100)%nat ->
  Forall (fun x => (storedValue klo <=? x) = true /\ (x <=? storedValue khi) = true) l ->
  exists k, (Zpos klo <= Zpos k <= Zpos khi)%Z /\
            roundTo2 (fold_left add l 0 / JS.of_length (length l)) = storedValue k.
Proof.
  intros Klo Khi Hn Hl.
  assert (Plo : FloatMono.positive_number (storedValue klo))
    by (apply stored_positive; exists klo; split; [lia | reflexivity]).
  assert (Phi : FloatMono.positive_number (storedValue khi))
    by (apply stored_positive; exists khi; split; [lia | reflexivity]).
  set (n := length l) in *.
  pose proof (of_length_positive n Hn) as [Pn0 Pn].
  (* the sum lies between the sums of [n] copies *)
  assert (Bup : below_each l (repeat (storedValue khi) n)).
  { apply below_each_repeat_r; [|exact (proj2 Phi)].
    eapply Forall_impl; [|exact Hl]; intros x [H1 H2]; split; [|exact H2].
    exact (FloatOrder.ltb_leb_trans _ _ _ (proj1 Plo) H1). }
  assert (Bdn : below_each (repeat (storedValue klo) n) l).
  { apply below_each_repeat_l; [exact (proj1 Plo)|].
    eapply Forall_impl; [|exact Hl]; intros x [H1 H2]; split; [exact H1|].
    exact (FloatOrder.leb_ltb_trans _ _ _ H2 (proj2 Phi)). }
  destruct (sum_mono l _ 0 0 Bup eq_refl eq_refl (stored_sumsFinite khi n 0 Khi ltac:(lia)))
    as [Sup Fin].
  destruct (sum_mono _ l 0 0 Bdn eq_refl eq_refl Fin) as [Sdn _].
  rewrite fold_left_repeat in Sup, Sdn.
  pose proof (sumsFinite_final l 0 Fin) as Fsum.
  destruct (stored_sums_finite klo n Klo ltac:(lia)) as [Nlo _].
  destruct (stored_sums_finite khi n Khi ltac:(lia)) as [_ Fhi].
  (* so does the mean *)
  pose proof (FloatDiv.div_mono _ _ (JS.of_length n) (FloatMono.nn_leb _ Nlo) Sdn Fsum Pn0 Pn)
    as Mdn.
  pose proof (FloatDiv.div_mono _ _ (JS.of_length n)
                (FloatOrder.leb_trans _ _ _ (FloatMono.nn_leb _ Nlo) Sdn) Sup Fhi Pn0 Pn)
    as Mup.
  destruct (mean_anchors klo Klo) as (A0 & _ & Dlo & _ & _ & _ & Alo).
  destruct (mean_anchors khi Khi) as (_ & Ab & _ & Dhi & _ & _ & Ahi).
  destruct (Alo n Hn) as [Alo1 _]; destruct (Ahi n Hn) as [_ Ahi2].
  apply (digits_between (lowAnchor klo) _ (highAnchor khi)); try assumption.
  - exact (FloatOrder.leb_trans _ _ _ Alo1 Mdn).
  - exact (FloatOrder.leb_trans _ _ _ Mup Ahi2).
Qed.

Lemma calculateStatistics_average h s :
  calculateStatistics h = Some s ->
  averageMultiplier s
  = roundTo2 (fold_left add (map multiplier h) 0 / JS.of_length (length (map multiplier h))).
Proof.
  unfold calculateStatistics; destruct (Nat.eqb (length h) 0); [discriminate|].
  intros E; injection E as <-; reflexivity.
Qed.

(** The rounded median of stored multipliers between two stored values is a
    stored value between them. *)
Lemma median_between l klo khi :
  (100 <= Zpos klo <= 10000)%Z -> (100 <= Zpos khi <= 10000)%Z ->
  l <> [] ->
  Forall (fun x => storedMultiplier x /\
                   (storedValue klo <=? x) = true /\ (x <=? storedValue khi) = true) l ->
  exists k, (Zpos klo <= Zpos k <= Zpos khi)%Z /\ roundTo2 (medianOf l) = storedValue k.
Proof.
  intros Klo Khi Hne Hl.
  assert (Hlen : (0 < length l)%nat) by (destruct l; [congruence | cbn; lia]).
  assert (Hnth : forall i, (i < length l)%nat ->
            storedMultiplier (nth i l nan) /\
            (storedValue klo <=? nth i l nan) = true /\
            (nth i l nan <=? storedValue khi) = true).
  { intros i Hi; exact (proj1 (Forall_forall _ _) Hl _ (nth_In l nan Hi)). }
  unfold medianOf; destruct (Nat.eqb (length l mod 2) 0) eqn:Ev.
  - apply Nat.eqb_eq in Ev.
    assert (H2 : (2 <= length l)%nat).
    { destruct (length l) as [|[|n]] eqn:E; [lia | discriminate Ev | lia]. }
    assert (Hd : (length l / 2 < length l)%nat) by (apply Nat.div_lt; lia).
    destruct (Hnth (length l / 2 - 1)%nat ltac:(lia)) as (Sa & La & Ua).
    destruct (Hnth (length l / 2)%nat Hd) as (Sb & Lb & Ub).
    set (a := nth (length l / 2 - 1) l nan) in *; set (b := nth (length l / 2) l nan) in *.
    destruct (mean_between [a; b] klo khi Klo Khi ltac:(cbn; lia)) as [k [Hk E]].
    { repeat constructor; assumption. }
    exists k; split; [exact Hk|].
    rewrite <- E; cbn [fold_left length].
    destruct (stored_positive a Sa) as [Pa0 Pa].
    rewrite (FloatDiv.add_zero_l a Pa0 Pa); reflexivity.
  - assert (Hd : (length l / 2 < length l)%nat) by (apply Nat.div_lt; lia).
    destruct (Hnth (length l / 2)%nat Hd) as (Sm & Lm & Um).
    set (m := nth (length l / 2) l nan) in *.
    rewrite (roundTo2_idempotent m Sm).
    destruct Sm as [k [Hk E]]; exists k; split; [|exact E].
    rewrite E in Lm, Um.
    pose proof (digitsOf_stored k Hk) as Dk.
    pose proof (digitsOf_stored klo Klo) as Dlo.
    pose proof (digitsOf_stored khi Khi) as Dhi.
    assert (P0 : forall j, (100 <= Zpos j <= 10000)%Z -> (0 <=? storedValue j) = true).
    { intros j Hj.
      assert (Sj : storedMultiplier (storedValue j)) by (exists j; split; [exact Hj | reflexivity]).
      apply ltb_leb; exact (proj1 (stored_positive _ Sj)). }
    assert (Pf : forall j, (100 <= Zpos j <= 10000)%Z -> (storedValue j <? infinity) = true).
    { intros j Hj.
      assert (Sj : storedMultiplier (storedValue j)) by (exists j; split; [exact Hj | reflexivity]).
      exact (proj2 (stored_positive _ Sj)). }
    pose proof (digitsOf_mono _ _ (P0 klo Klo) Lm (Pf k Hk)) as M1.
    pose proof (digitsOf_mono _ _ (P0 k Hk) Um (Pf khi Khi)) as M2.
    lia.
Qed.

(** The statistics of a well-formed history: the average and the median, as
    the largest and the smallest multiplier, are two-decimal values of
    [[1.00, 100.00]], and lie between the smallest and the largest multiplier. *)
Theorem average_median_between_extremes (h : list CrashPoint) :
  h <> [] -> wellFormed h ->
  exists s, calculateStatistics h = Some s /\
    (storedMultiplier (minMultiplier s) /\ storedMultiplier (maxMultiplier s) /\
     storedMultiplier (averageMultiplier s) /\ storedMultiplier (medianMultiplier s)) /\
    ((minMultiplier s <=? averageMultiplier s) = true /\
     (averageMultiplier s <=? maxMultiplier s) = true) /\
    ((minMultiplier s <=? medianMultiplier s) = true /\
     (medianMultiplier s <=? maxMultiplier s) = true) /\
    (forall m, Forall (fun c => multiplier c = m) h ->
       minMultiplier s = m /\ maxMultiplier s = m /\
       averageMultiplier s = m /\ medianMultiplier s = m).
Proof.
  intros Hne [Hlen Hst].
  destruct (calculateStatistics h) as [s|] eqn:Hs;
    [|unfold calculateStatistics in Hs; destruct h; [congruence | discriminate]].
  exists s; split; [reflexivity|].
  assert (Hn : Forall (fun c => is_nan (multiplier c) = false) h).
  { eapply Forall_impl; [|exact Hst].
    intros c Hc; apply ordered_is_nan, positive_ordered, stored_positive, Hc. }
  destruct (extremes_spec h s Hs Hn) as ([cmax [Imax Emax]] & Umax & [cmin [Imin Emin]] & Umin).
  assert (Smax : storedMultiplier (maxMultiplier s))
    by (rewrite <- Emax; exact (proj1 (Forall_forall _ _) Hst _ Imax)).
  assert (Smin : storedMultiplier (minMultiplier s))
    by (rewrite <- Emin; exact (proj1 (Forall_forall _ _) Hst _ Imin)).
  destruct Smax as [khi [Khi Ehi]], Smin as [klo [Klo Elo]].
  assert (Hl : Forall (fun x => storedMultiplier x /\
                 (storedValue klo <=? x) = true /\ (x <=? storedValue khi) = true)
                 (map multiplier h)).
  { apply Forall_map, Forall_forall; intros c Hc; rewrite <- Elo, <- Ehi.
    split; [exact (proj1 (Forall_forall _ _) Hst c Hc)|].
    split; [exact (proj1 (Forall_forall _ _) Umin c Hc)
           | exact (proj1 (Forall_forall _ _) Umax c Hc)]. }
  assert (Hlen' : (1 <= length (map multiplier h) <= 100)%nat).
  { rewrite length_map; destruct h; [congruence | cbn in *; lia]. }
  (* the average *)
  destruct (mean_between (map multiplier h) klo khi Klo Khi Hlen') as [ka [Hka Ea]].
  { eapply Forall_impl; [|exact Hl]; intros x [_ H]; exact H. }
  rewrite <- (calculateStatistics_average h s Hs) in Ea.
  (* the median *)
  assert (Hsorted : Forall (fun x => storedMultiplier x /\
                      (storedValue klo <=? x) = true /\ (x <=? storedValue khi) = true)
                      (JS.Array_sort compareFn (map multiplier h))).
  { apply Forall_forall; intros x Hx.
    apply (Permutation_in _ (Array_sort_perm _)) in Hx.
    exact (proj1 (Forall_forall _ _) Hl x Hx). }
  assert (Hsne : JS.Array_sort compareFn (map multiplier h) <> []).
  { intros E; pose proof (Permutation_length (Array_sort_perm (map multiplier h))) as P.
    rewrite E in P; cbn [length] in P; unfold JS.number in P; lia. }
  destruct (median_between _ klo khi Klo Khi Hsne Hsorted) as [km [Hkm Em]].
  rewrite <- (calculateStatistics_median h s Hs) in Em.
  assert (Bounds : forall k, (Zpos klo <= Zpos k <= Zpos khi)%Z ->
            storedMultiplier (storedValue k) /\
            (minMultiplier s <=? storedValue k) = true /\
            (storedValue k <=? maxMultiplier s) = true).
  { intros k Hk; rewrite Elo, Ehi; split; [exists k; split; [lia | reflexivity]|].
    split; apply storedValue_mono; lia. }
  destruct (Bounds ka Hka) as (Sa & La & Ua); destruct (Bounds km Hkm) as (Sm & Lm & Um).
  rewrite Ea, Em.
  split; [|split; [split; assumption | split; [split; assumption|]]].
  - repeat split; try assumption.
    + exists klo; split; assumption.
    + exists khi; split; assumption.
  - intros m Hm.
    assert (E1 : minMultiplier s = m)
      by (rewrite <- Emin; exact (proj1 (Forall_forall _ _) Hm _ Imin)).
    assert (E2 : maxMultiplier s = m)
      by (rewrite <- Emax; exact (proj1 (Forall_forall _ _) Hm _ Imax)).
    assert (Pm : FloatMono.positive_number m).
    { rewrite <- E1, Elo; apply stored_positive; exists klo; split; [exact Klo | reflexivity]. }
    rewrite E1 in La, Lm; rewrite E2 in Ua, Um.
    repeat split; try assumption.
    + symmetry; apply leb_antisym; assumption.
    + symmetry; apply leb_antisym; assumption.
Qed.

Lemma average_median_between_extremes_witness :
  exists s, calculateStatistics (map mk [1.50; 2.50; 9.99; 1.00]) = Some s /\
    averageMultiplier s = 3.75 /\ medianMultiplier s = 2.00 /\
    (minMultiplier s <=? averageMultiplier s) = true /\
    (averageMultiplier s <=? maxMultiplier s) = true.
Proof.
  destruct (average_median_between_extremes (map mk [1.50; 2.50; 9.99; 1.00]))
    as [s (Hs & _ & [H1 H2] & _)].
  - discriminate.
  - split; [cbn; lia|].
    repeat constructor;
      [exists 150%positive | exists 250%positive | exists 999%positive | exists 100%positive];
      (split; [lia | reflexivity]).
  - exists s; split; [exact Hs|].
    injection Hs as <-.
    repeat split; try assumption; reflexivity.
Defined.

(** ** Counters, histogram and categories *)

(** Counting is additive over predicates that are so on every outcome. *)
Lemma countWhere_add (p q1 q2 : CrashPoint -> bool) h :
  Forall (fun c => Nat.b2n (p c) = (Nat.b2n (q1 c) + Nat.b2n (q2 c))%nat) h ->
  countWhere p h = (countWhere q1 h + countWhere q2 h)%nat.
Proof.
  induction 1 as [|c h Hc _ IH]; [reflexivity|].
  rewrite !countWhere_cons, IH.
  destruct (p c), (q1 c), (q2 c); cbn in Hc |- *; lia.
Qed.

Lemma countWhere_bound (p : CrashPoint -> bool) (q : CrashPoint -> bool) (d : nat) h :
  Forall (fun c => (Nat.b2n (p c) + d * Nat.b2n (q c) <= 1)%nat) h ->
  (countWhere p h + d * countWhere q h <= length h)%nat.
Proof.
  induction 1 as [|c h Hc _ IH]; [cbn; lia|].
  rewrite !countWhere_cons; cbn [length].
  destruct (p c), (q c); cbn in Hc |- *; lia.
Qed.

(** The comparisons the page makes of one multiplier, related. *)
Lemma comparisons_any m :
  (JS.geb m 10 = true -> JS.geb m 5 = true) /\
  (JS.geb m 5 = true -> JS.geb m 2 = true) /\
  (JS.geb m 2 = true -> (m <? 2) = false).
Proof.
  unfold JS.geb; repeat split; intros H.
  - exact (FloatOrder.leb_trans 5 10 m eq_refl H).
  - exact (FloatOrder.leb_trans 2 5 m eq_refl H).
  - exact (geb_not_ltb m 2 H).
Qed.

Lemma distributionData_sum h :
  Forall (fun c => (1.0 <=? multiplier c) = true) h ->
  list_sum (map snd (distributionData h)) = length h.
Proof.
  induction 1 as [|c h Hc Hh IH]; [reflexivity|].
  apply bucketsOf_one in Hc; revert Hc IH.
  unfold distributionData, bucketsOf, buckets; cbn [map snd list_sum filter].
  rewrite !countWhere_cons.
  destruct (inRange 1.0 1.5 c), (inRange 1.5 2.0 c), (inRange 2.0 3.0 c),
    (inRange 3.0 5.0 c), (inRange 5.0 10.0 c), (JS.geb (multiplier c) 10.0);
    intros Hc IH; simpl in *; try discriminate; lia.
Qed.

Ltac order_cases m :=
  pose proof (ltb_below m 1.5 2.0 eq_refl);
  pose proof (ltb_below m 2.0 3.0 eq_refl);
  pose proof (ltb_below m 3.0 5.0 eq_refl);
  pose proof (ltb_below m 5.0 10.0 eq_refl);
  destruct (m <? 1.5), (m <? 2.0), (m <? 3.0), (m <? 5.0), (m <? 10.0);
  repeat match goal with H : true = true -> _ |- _ => specialize (H eq_refl) end;
  try discriminate.

(** The counters of the statistics and the bars of the histogram count the same
    outcomes. *)
Theorem counters_agree_with_histogram (h : list CrashPoint) (s : Statistics) :
  calculateStatistics h = Some s ->
  ((crashesAbove10x s <= crashesAbove5x s)%nat /\
   (crashesBelow2x s + crashesAbove5x s <= length h)%nat) /\
  (Forall (fun c => (1.0 <=? multiplier c) = true) h ->
   exists b1 b2 b3 b4 b5 b6,
     map snd (distributionData h) = [b1; b2; b3; b4; b5; b6] /\
     crashesBelow2x s = (b1 + b2)%nat /\
     crashesAbove5x s = (b5 + b6)%nat /\
     crashesAbove10x s = b6 /\
     length h = (crashesBelow2x s + b3 + b4 + crashesAbove5x s)%nat).
Proof.
  intros Hs; destruct (calculateStatistics_counters h s Hs) as [E2 [E5 E10]].
  split; [split|].
  - rewrite E10, E5.
    assert (G : forall l, Nat.le (countWhere (fun c => JS.geb (multiplier c) 10) l)
                                 (countWhere (fun c => JS.geb (multiplier c) 5) l)).
    { induction l as [|c l IH]; [reflexivity|].
      rewrite !countWhere_cons.
      destruct (comparisons_any (multiplier c)) as [H _].
      unfold Nat.le in *.
      destruct (JS.geb (multiplier c) 10), (JS.geb (multiplier c) 5); lia. }
    apply G.
  - rewrite E2, E5.
    pose proof (countWhere_bound (fun c => multiplier c <? 2)
                  (fun c => JS.geb (multiplier c) 5) 1 h) as B.
    rewrite Nat.mul_1_l in B; apply B.
    apply Forall_forall; intros c _.
    destruct (comparisons_any (multiplier c)) as [_ [H5 H2]].
    destruct (JS.geb (multiplier c) 5); cbn; [|destruct (_ <? 2); cbn; lia].
    rewrite (H2 (H5 eq_refl)); cbn; lia.
  - intros Hd.
    pose proof (distributionData_sum h Hd) as Hsum.
    unfold distributionData in *; cbn [map snd] in *.
    do 6 eexists; split; [reflexivity|].
    assert (A2 : crashesBelow2x s =
                 (countWhere (inRange 1.0 1.5) h + countWhere (inRange 1.5 2.0) h)%nat).
    { rewrite E2; apply countWhere_add.
      eapply Forall_impl; [|exact Hd]; intros c H1; cbn beta.
      assert (Om : FloatOrder.ordered (multiplier c))
        by (apply FloatOrder.leb_ordered in H1; tauto).
      unfold inRange.
      rewrite !(geb_negb_ltb (multiplier c)) by (assumption || ordered_tac).
      rewrite (geb_not_ltb _ _ H1).
      change 2 with 2.0.
      order_cases (multiplier c); reflexivity. }
    assert (A5 : crashesAbove5x s =
                 (countWhere (inRange 5.0 10.0) h
                  + countWhere (fun c => JS.geb (multiplier c) 10.0%float) h)%nat).
    { rewrite E5; apply countWhere_add.
      eapply Forall_impl; [|exact Hd]; intros c H1; cbn beta.
      assert (Om : FloatOrder.ordered (multiplier c))
        by (apply FloatOrder.leb_ordered in H1; tauto).
      unfold inRange.
      rewrite !(geb_negb_ltb (multiplier c)) by (assumption || ordered_tac).
      change 5 with 5.0; change 10 with 10.0.
      order_cases (multiplier c); reflexivity. }
    split; [exact A2 | split; [exact A5 | split; [exact E10 | ]]].
    unfold list_sum in Hsum; cbn [fold_right] in Hsum; lia.
Qed.

Lemma counters_agree_with_histogram_witness :
  exists s, calculateStatistics (map mk [1.2; 1.5; 2.0; 7.5; 10.0; 12.0]) = Some s /\
    crashesBelow2x s = 2%nat /\ crashesAbove5x s = 3%nat /\ crashesAbove10x s = 2%nat /\
    map snd (distributionData (map mk [1.2; 1.5; 2.0; 7.5; 10.0; 12.0]))
    = [1; 1; 1; 0; 1; 2]%nat.
Proof.
  eexists; split; [reflexivity|].
  destruct (counters_agree_with_histogram
              (map mk [1.2; 1.5; 2.0; 7.5; 10.0; 12.0]) _ eq_refl) as [_ H].
  destruct (H ltac:(repeat constructor)) as (b1 & b2 & b3 & b4 & b5 & b6 & E & _).
  repeat split; reflexivity.
Defined.

(** ** The categories of the table *)

Definition labelled (label : string) (c : CrashPoint) : bool :=
  String.eqb (categoryLabel c) label.

Definition looks : list (string * string * string) :=
  [("Low", "text-red-400", "bg-red-900 text-red-200");
   ("Win", "text-blue-400", "bg-blue-900 text-blue-200");
   ("Big Win", "text-green-400", "bg-green-900 text-green-200");
   ("Mega Win", "text-yellow-400", "bg-yellow-900 text-yellow-200")]%string.

Definition count1 (b : bool) : nat := if b then 1 else 0.

Lemma category_cases c :
  is_nan (multiplier c) = false ->
  count1 (labelled "Low" c) = count1 (multiplier c <? 2) /\
  Nat.add (count1 (labelled "Big Win" c)) (count1 (labelled "Mega Win" c))
    = count1 (JS.geb (multiplier c) 5) /\
  count1 (labelled "Mega Win" c) = count1 (JS.geb (multiplier c) 10) /\
  Nat.add (count1 (labelled "Win" c))
          (count1 (multiplier c <? 2) + count1 (JS.geb (multiplier c) 5)) = 1%nat /\
  In (categoryLabel c, multiplierClass c, badgeClass c) looks.
Proof.
  intros Hc; apply is_nan_ordered in Hc.
  destruct (comparisons_any (multiplier c)) as [H10 [H5 _]].
  pose proof (geb_negb_ltb (multiplier c) 2 Hc ltac:(ordered_tac)) as G2.
  unfold labelled, categoryLabel, multiplierClass, badgeClass, looks.
  destruct (JS.geb (multiplier c) 10), (JS.geb (multiplier c) 5),
    (JS.geb (multiplier c) 2), (multiplier c <? 2);
    try discriminate (H10 eq_refl); try discriminate (H5 eq_refl); try discriminate G2;
    repeat split; cbn; auto 10.
Qed.

(** The badges of the table and the counters of the statistics classify the
    outcomes alike. *)
Theorem categories_agree_with_counters (h : list CrashPoint) (s : Statistics) :
  calculateStatistics h = Some s ->
  Forall (fun c => is_nan (multiplier c) = false) h ->
  countWhere (labelled "Low") h = crashesBelow2x s /\
  Nat.add (countWhere (labelled "Big Win") h) (countWhere (labelled "Mega Win") h)
    = crashesAbove5x s /\
  countWhere (labelled "Mega Win") h = crashesAbove10x s /\
  Nat.add (countWhere (labelled "Win") h) (crashesBelow2x s + crashesAbove5x s) = length h /\
  Forall (fun c => In (categoryLabel c, multiplierClass c, badgeClass c) looks) h.
Proof.
  intros Hs Hn; destruct (calculateStatistics_counters h s Hs) as [E2 [E5 E10]].
  rewrite E2, E5, E10; clear Hs E2 E5 E10 s.
  induction Hn as [|c h Hc _ IH].
  - repeat split; constructor.
  - destruct IH as (I1 & I2 & I3 & I4 & I5).
    destruct (category_cases c Hc) as (K1 & K2 & K3 & K4 & K5).
    rewrite !countWhere_cons; cbn [length]; fold (count1 (labelled "Low" c));
      fold (count1 (labelled "Win" c)); fold (count1 (labelled "Big Win" c));
      fold (count1 (labelled "Mega Win" c)); fold (count1 (multiplier c <? 2));
      fold (count1 (JS.geb (multiplier c) 5)); fold (count1 (JS.geb (multiplier c) 10)).
    repeat split; try (constructor; assumption); lia.
Qed.

Lemma categories_agree_with_counters_witness :
  exists s, calculateStatistics (map mk [1.2; 2.0; 7.5; 10.0]) = Some s /\
    countWhere (labelled "Low") (map mk [1.2; 2.0; 7.5; 10.0]) = crashesBelow2x s.
Proof.
  eexists; split; [reflexivity|].
  apply (categories_agree_with_counters (map mk [1.2; 2.0; 7.5; 10.0]) _ eq_refl).
  repeat constructor.
Defined.

(** ** The trend chart *)

Lemma mapFrom_length {A B} (f : A -> nat -> B) l : forall i,
  length (JS.mapFrom f i l) = length l.
Proof. induction l as [|x l IH]; intros i; cbn; [reflexivity | rewrite IH; reflexivity]. Qed.

Lemma mapFrom_map {A B C} (g : B -> C) (f : A -> nat -> B) (h : A -> C) l :
  (forall x i, g (f x i) = h x) -> forall i, map g (JS.mapFrom f i l) = map h l.
Proof.
  intros H; induction l as [|x l IH]; intros i; cbn; [reflexivity|].
  rewrite H, IH; reflexivity.
Qed.

Lemma mapFrom_index {A B} (g : B -> nat) (f : A -> nat -> B) (d : nat) l :
  (forall x i, g (f x i) = (i + d)%nat) ->
  forall i, map g (JS.mapFrom f i l) = seq (i + d) (length l).
Proof.
  intros H; induction l as [|x l IH]; intros i; cbn; [reflexivity|].
  rewrite H, IH; reflexivity.
Qed.

Lemma firstn_firstn_map_snd (log : list (nat * CrashPoint)) (n m : nat) :
  (n <= m)%nat -> firstn n (map snd (firstn m log)) = map snd (firstn n log).
Proof.
  intros H; rewrite <- firstn_map, firstn_firstn, firstn_map.
  replace (Nat.min n m) with n by lia; reflexivity.
Qed.


(** ** The table of recent outcomes *)

(** The table shows the 20 newest outcomes, numbered from 1, and prints of each
    stored multiplier exactly its two decimals: the digits printed are those the
    multiplier was stored from, and reading them back gives the multiplier. *)
Theorem recentRows_print_stored_digits (h : list CrashPoint) :
  wellFormed h ->
  length (recentRows h) = Nat.min 20 (length h) /\
  map rowRound (recentRows h) = seq 1 (Nat.min 20 (length h)) /\
  map key (recentRows h) = map id (firstn 20 h) /\
  map badge (recentRows h) = map (fun c => (badgeClass c, categoryLabel c)) (firstn 20 h) /\
  map (fun r => JS.parseFloat_fixed (multiplierText r)) (recentRows h)
    = map multiplier (firstn 20 h) /\
  Forall (fun r => exists k, (100 <= Zpos k <= 10000)%Z /\
                             multiplierText r = JS.FixedDigits false (Zpos k)) (recentRows h).
Proof.
  intros [_ Hs]; unfold recentRows, JS.Array_map.
  rewrite mapFrom_length, length_firstn.
  assert (Hs' : Forall (fun c => storedMultiplier (multiplier c)) (firstn 20 h)).
  { apply Forall_firstn_keeps; exact Hs. }
  split; [reflexivity | split; [|split; [|split; [|split]]]].
  - rewrite (mapFrom_index rowRound _ 1) by reflexivity.
    rewrite length_firstn; reflexivity.
  - apply mapFrom_map; reflexivity.
  - apply (mapFrom_map badge _ (fun c => (badgeClass c, categoryLabel c))); reflexivity.
  - rewrite (mapFrom_map (fun r => JS.parseFloat_fixed (multiplierText r)) _
               (fun c => roundTo2 (multiplier c))) by reflexivity.
    apply map_ext_in; intros c Hc.
    destruct (proj1 (Forall_forall _ _) Hs' c Hc) as [k [Hk E]].
    unfold roundTo2; rewrite E, (toFixed2_stored k Hk); reflexivity.
  - apply Forall_forall; intros r Hr.
    assert (Hm : In (multiplierText r)
                    (map (fun c => JS.toFixed2 (multiplier c)) (firstn 20 h))).
    { rewrite <- (mapFrom_map multiplierText
                    (fun crash index =>
                       {| key := id crash; rowRound := index + 1;
                          multiplierText := JS.toFixed2 (multiplier crash);
                          textClass := multiplierClass crash;
                          badge := (badgeClass crash, categoryLabel crash) |})
                    (fun c => JS.toFixed2 (multiplier c)) (firstn 20 h)
                    ltac:(reflexivity) 0).
      apply in_map; exact Hr. }
    apply in_map_iff in Hm; destruct Hm as [c [E Hc]].
    destruct (proj1 (Forall_forall _ _) Hs' c Hc) as [k [Hk Ek]].
    exists k; split; [exact Hk|].
    rewrite <- E, Ek; apply toFixed2_stored, Hk.
Qed.

Lemma recentRows_print_stored_digits_witness :
  wellFormed (map mk [1.00; 1.00; 1.00; 1.01]) /\
  map (fun r => JS.parseFloat_fixed (multiplierText r))
      (recentRows (map mk [1.00; 1.00; 1.00; 1.01]))
  = map multiplier (firstn 20 (map mk [1.00; 1.00; 1.00; 1.01])).
Proof.
  split; [exact wellFormed_example|].
  exact (proj1 (proj2 (proj2 (proj2 (proj2
           (recentRows_print_stored_digits _ wellFormed_example)))))).
Defined.


(** ** Ids and timestamps of a simulated batch *)

Lemma generateCrashMultiplier_clock w :
  clockAt (snd (generateCrashMultiplier w)) = clockAt w /\
  clockReads (snd (generateCrashMultiplier w)) = clockReads w /\
  randomAt (snd (generateCrashMultiplier w)) = randomAt w /\
  randomDraws (snd (generateCrashMultiplier w)) = (2 + randomDraws w)%nat.
Proof. rewrite generateCrashMultiplier_eq; repeat split. Qed.

(** The [j]-th round of a batch started in the world [w] with the counter [i]. *)
Definition roundId (w : World) (i : Z) (j : nat) : Z :=
  (clockAt w (clockReads w + 2 * j) + (i + Z.of_nat j))%Z.

Definition roundTimestamp (w : World) (i : Z) (j : nat) : Z :=
  (clockAt w (clockReads w + 2 * j + 1) + (i + Z.of_nat j) * 1000)%Z.

Lemma simulateLoop_clock todo : forall i acc w,
  map id (fst (simulateLoop todo i acc w))
    = map id acc ++ map (roundId w i) (seq 0 todo) /\
  map timestamp (fst (simulateLoop todo i acc w))
    = map timestamp acc ++ map (roundTimestamp w i) (seq 0 todo) /\
  clockAt (snd (simulateLoop todo i acc w)) = clockAt w /\
  clockReads (snd (simulateLoop todo i acc w)) = (clockReads w + 2 * todo)%nat /\
  randomDraws (snd (simulateLoop todo i acc w)) = (randomDraws w + 2 * todo)%nat.
Proof.
  induction todo as [|todo IH]; intros i acc w.
  - cbn [simulateLoop ret fst snd seq map]; rewrite !app_nil_r.
    repeat split; lia.
  - rewrite simulateLoop_step; cbv zeta.
    set (w1 := snd (Date_now w)).
    destruct (generateCrashMultiplier_clock w1) as (G1 & G2 & _ & G4).
    set (w2 := snd (generateCrashMultiplier w1)) in *.
    match goal with |- context [simulateLoop todo ?i' ?acc' ?w'] =>
      destruct (IH i' acc' w') as (I1 & I2 & I3 & I4 & I5)
    end.
    rewrite I1, I2, I3, I4, I5; clear I1 I2 I3 I4 I5.
    cbn [Date_now fst snd clockAt clockReads randomDraws].
    rewrite G1, G2, G4; subst w1; cbn [Date_now fst snd clockAt clockReads randomDraws].
    rewrite !map_app, <- !app_assoc; cbn [map app id timestamp seq].
    rewrite <- !seq_shift, !map_map.
    assert (Q : forall (a b : nat) (x y : Z), a = b -> x = y ->
                  (clockAt w a + x = clockAt w b + y)%Z) by (intros; subst; reflexivity).
    repeat split; try lia.
    + f_equal; f_equal.
      * unfold roundId; apply Q; lia.
      * apply map_ext; intros j; unfold roundId; cbn [clockAt clockReads]; apply Q; lia.
    + f_equal; f_equal.
      * unfold roundTimestamp; apply Q; lia.
      * apply map_ext; intros j; unfold roundTimestamp; cbn [clockAt clockReads];
          apply Q; lia.
Qed.

Definition clockNeverBack (w : World) : Prop :=
  forall k, (clockAt w k <= clockAt w (S k))%Z.

Lemma clockNeverBack_le w : clockNeverBack w ->
  forall a b, (a <= b)%nat -> (clockAt w a <= clockAt w b)%Z.
Proof.
  intros H a b Hab; induction Hab as [|b _ IH]; [lia|].
  specialize (H b); lia.
Qed.

Lemma sorted_map_seq (R : Z -> Z -> Prop) (f : nat -> Z) :
  (forall a b, (a < b)%nat -> R (f a) (f b)) ->
  forall n k, StronglySorted R (map f (seq k n)).
Proof.
  intros H n; induction n as [|n IH]; intros k; cbn [seq map]; constructor.
  - apply IH.
  - apply Forall_forall; intros x Hx.
    apply in_map_iff in Hx; destruct Hx as [j [<- Hj]].
    apply in_seq in Hj; apply H; lia.
Qed.

Definition acceptsAll (input : string) : float := 2.5.

(** In one simulated batch the ids grow strictly and the timestamps by at least
    a second a round, when the clock never goes back; across insertions ids can
    repeat, even when the clock advances at every reading. *)
Theorem simulated_ids_increase (count : nat) (w : World) :
  clockNeverBack w ->
  (let cs := fst (simulatedCrashes count w) in
   length cs = count /\
   StronglySorted Z.lt (map id cs) /\ NoDup (map id cs) /\
   StronglySorted (fun a b => (a + 1000 <= b)%Z) (map timestamp cs)) /\
  clockReads (snd (simulatedCrashes count w)) = (clockReads w + 2 * count)%nat /\
  randomDraws (snd (simulatedCrashes count w)) = (randomDraws w + 2 * count)%nat /\
  (forall k, (clockAt exampleWorld k < clockAt exampleWorld (S k))%Z) /\
  ~ NoDup (map id (crashHistory (fst (fst
      (run acceptsAll [SimulateBatch 3; ManualAdd EmptyString] exampleWorld))))).
Proof.
  intros Hc; unfold simulatedCrashes.
  destruct (simulateLoop_clock count 0 [] w) as (I1 & I2 & _ & I4 & I5).
  cbn [map app] in I1, I2.
  assert (S1 : StronglySorted Z.lt (map id (fst (simulateLoop count 0 [] w)))).
  { rewrite I1; apply sorted_map_seq; intros a b Hab; unfold roundId.
    pose proof (clockNeverBack_le w Hc (clockReads w + 2 * a) (clockReads w + 2 * b)
                  ltac:(lia)) as H.
    revert H; generalize (clockAt w (clockReads w + 2 * a)), (clockAt w (clockReads w + 2 * b)).
    intros; lia. }
  split; [cbv zeta; split; [|split; [exact S1 | split]] | split; [exact I4 | split; [exact I5|]]].
  - rewrite <- (length_map id), I1, length_map, length_seq; reflexivity.
  - clear -S1; induction S1 as [|x l _ IH Hx]; constructor; [|exact IH].
    intros Hin; pose proof (proj1 (Forall_forall _ _) Hx x Hin); lia.
  - rewrite I2; apply sorted_map_seq; intros a b Hab; unfold roundTimestamp.
    pose proof (clockNeverBack_le w Hc (clockReads w + 2 * a + 1) (clockReads w + 2 * b + 1)
                  ltac:(lia)) as H.
    revert H; generalize (clockAt w (clockReads w + 2 * a + 1)),
      (clockAt w (clockReads w + 2 * b + 1)).
    intros; lia.
  - split; [intros k; unfold exampleWorld; cbn [clockAt]; lia|].
    intros H.
    assert (E : map id (crashHistory (fst (fst
              (run acceptsAll [SimulateBatch 3; ManualAdd EmptyString] exampleWorld))))
            = [1006; 1000; 1003; 1006]%Z) by (vm_compute; reflexivity).
    rewrite E in H; inversion H as [|? ? Hn _]; apply Hn; cbn; auto.
Qed.

Lemma simulated_ids_increase_witness :
  clockNeverBack exampleWorld /\
  NoDup (map id (fst (simulatedCrashes 10 exampleWorld))).
Proof.
  assert (H : clockNeverBack exampleWorld)
    by (intros k; unfold exampleWorld; cbn [clockAt]; lia).
  split; [exact H|].
  exact (proj1 (proj2 (proj2 (proj1 (simulated_ids_increase 10 exampleWorld H))))).
Defined.

(** ** A second click on Add Crash *)

(** After [addManualCrash], accepted or not, a second call with nothing typed in
    between changes nothing: an accepted entry empties the input box, and the
    empty text parses to NaN. *)
Theorem addManualCrash_twice (parseFloat : string -> float) (st : State) (w : World) :
  is_nan (parseFloat EmptyString) = true ->
  addManualCrash parseFloat (fst (addManualCrash parseFloat st w))
                 (snd (addManualCrash parseFloat st w))
  = addManualCrash parseFloat st w.
Proof.
  intros Hnan.
  assert (R : forall st' w', inputMultiplier st' = EmptyString ->
                addManualCrash parseFloat st' w' = (st', w')).
  { intros st' w' E; unfold addManualCrash, manualCrash, bind, JS.geb.
    rewrite E, (FloatOrder.nan_leb_r _ _ Hnan); reflexivity. }
  unfold addManualCrash at 2 3 4, manualCrash, bind.
  destruct (JS.geb (parseFloat (inputMultiplier st)) 1.0
            && (parseFloat (inputMultiplier st) <=? 100)) eqn:G.
  - unfold Date_now, ret; cbn [fst snd]; apply R; reflexivity.
  - unfold ret; cbn [fst snd].
    unfold addManualCrash, manualCrash, bind; rewrite G; reflexivity.
Qed.

(** A [parseFloat] for examples: NaN on the empty text, 2.5 otherwise. *)
Definition parseOrNaN (input : string) : float :=
  if String.eqb input EmptyString then nan else 2.5.

Lemma addManualCrash_twice_witness :
  is_nan (parseOrNaN EmptyString) = true /\
  addManualCrash parseOrNaN
    (fst (addManualCrash parseOrNaN (typeInput "2.5" initialState) exampleWorld))
    (snd (addManualCrash parseOrNaN (typeInput "2.5" initialState) exampleWorld))
  = addManualCrash parseOrNaN (typeInput "2.5" initialState) exampleWorld.
Proof.
  split; [reflexivity|].
  apply (addManualCrash_twice parseOrNaN (typeInput "2.5" initialState) exampleWorld).
  reflexivity.
Defined.

(** ** The ranges of the four branches of the generator *)

Lemma draw_bounds a c u :
  in01 u ->
  (0 <? a) = true -> (a <? infinity) = true ->
  (0 <? c) = true -> (c <? infinity) = true ->
  (0 <=? 0 * c) = true -> (FloatMono.pred_one * c <? infinity) = true ->
  (a + 0 * c <=? a + u * c) = true /\ (a + u * c <=? a + FloatMono.pred_one * c) = true.
Proof.
  intros [Hu0 Hu1]; apply FloatMono.affine_bounds; assumption.
Qed.

Lemma draw_between lo hi a c u :
  in01 u ->
  (0 <? a) = true -> (a <? infinity) = true ->
  (0 <? c) = true -> (c <? infinity) = true ->
  (0 <=? 0 * c) = true -> (FloatMono.pred_one * c <? infinity) = true ->
  (lo <=? a + 0 * c) = true -> (a + FloatMono.pred_one * c <=? hi) = true ->
  (lo <=? a + u * c) = true /\ (a + u * c <=? hi) = true.
Proof.
  intros Hu Ha0 Ha Hc0 Hc Hz Hp Hlo Hhi.
  destruct (draw_bounds a c u Hu Ha0 Ha Hc0 Hc Hz Hp) as [L U].
  split; [exact (FloatOrder.leb_trans _ _ _ Hlo L) | exact (FloatOrder.leb_trans _ _ _ U Hhi)].
Qed.

(** The branch the selector picks fixes the range of the result: [[1, 2]],
    [[2, 5]], [[5, 10]] and [[10, 50)].  The upper ends 2.0, 5.0 and 10.0 are
    reached, by rounding, on the largest draw below 1; 50.0 is not. *)
Theorem generateCrashMultiplier_branch_ranges (w : World) :
  let r := randomAt w (randomDraws w) in
  let u := randomAt w (S (randomDraws w)) in
  let v := fst (generateCrashMultiplier w) in
  in01 r -> in01 u ->
  ((r <? 0.5) = true -> (1.0 <=? v) = true /\ (v <=? 2.0) = true) /\
  ((0.5 <=? r) = true -> (r <? 0.8) = true -> (2.0 <=? v) = true /\ (v <=? 5.0) = true) /\
  ((0.8 <=? r) = true -> (r <? 0.95) = true -> (5.0 <=? v) = true /\ (v <=? 10.0) = true) /\
  ((0.95 <=? r) = true -> (10.0 <=? v) = true /\ (v <? 50.0) = true) /\
  (1.0 + FloatMono.pred_one = 2.0 /\ 2.0 + FloatMono.pred_one * 3 = 5.0 /\
   5.0 + FloatMono.pred_one * 5 = 10.0 /\ (10.0 + FloatMono.pred_one * 40 <? 50.0) = true).
Proof.
  intros r u v Hr Hu; subst v.
  rewrite generateCrashMultiplier_eq; cbv zeta; cbn [fst]; fold r; fold u.
  assert (B1 : (1.0 <=? 1.0 + u) = true /\ (1.0 + u <=? 2.0) = true).
  { assert (Hup : (u <=? FloatMono.pred_one) = true)
      by (apply FloatMono.below_one; exact (proj2 Hu)).
    split.
    - exact (FloatMono.add_mono 1.0 0 u eq_refl (proj1 Hu)
               (FloatOrder.leb_ltb_trans u FloatMono.pred_one infinity Hup eq_refl)
               eq_refl eq_refl).
    - exact (FloatMono.add_mono 1.0 u FloatMono.pred_one (proj1 Hu) Hup eq_refl
               eq_refl eq_refl). }
  pose proof (draw_between 2.0 5.0 2.0 3 u Hu eq_refl eq_refl eq_refl eq_refl eq_refl
                eq_refl eq_refl eq_refl) as B2.
  pose proof (draw_between 5.0 10.0 5.0 5 u Hu eq_refl eq_refl eq_refl eq_refl eq_refl
                eq_refl eq_refl eq_refl) as B3.
  pose proof (draw_between 10.0 (10.0 + FloatMono.pred_one * 40) 10.0 40 u Hu eq_refl eq_refl
                eq_refl eq_refl eq_refl eq_refl eq_refl eq_refl) as B4.
  assert (O5 : FloatOrder.ordered r) by (apply in01_ordered; exact Hr).
  split; [|split; [|split; [|split]]].
  - intros E; rewrite E; exact B1.
  - intros E1 E2; rewrite (geb_not_ltb _ _ E1), E2; exact B2.
  - intros E1 E2.
    rewrite (geb_not_ltb r 0.5 (FloatOrder.leb_trans 0.5 0.8 r eq_refl E1)).
    rewrite (geb_not_ltb _ _ E1), E2; exact B3.
  - intros E1.
    rewrite (geb_not_ltb r 0.5 (FloatOrder.leb_trans 0.5 0.95 r eq_refl E1)).
    rewrite (geb_not_ltb r 0.8 (FloatOrder.leb_trans 0.8 0.95 r eq_refl E1)).
    rewrite (geb_not_ltb _ _ E1).
    split; [exact (proj1 B4)|].
    exact (FloatOrder.leb_ltb_trans _ _ 50.0 (proj2 B4) eq_refl).
  - repeat split; reflexivity.
Qed.

Lemma generateCrashMultiplier_branch_ranges_witness :
  in01 0.6 /\ in01 0.25 /\
  (2.0 <=? fst (generateCrashMultiplier exampleWorld)) = true /\
  (fst (generateCrashMultiplier exampleWorld) <=? 5.0) = true.
Proof.
  assert (Hr : in01 (randomAt exampleWorld (randomDraws exampleWorld)))
    by (split; reflexivity).
  assert (Hu : in01 (randomAt exampleWorld (S (randomDraws exampleWorld))))
    by (split; reflexivity).
  split; [exact Hr | split; [exact Hu|]].
  exact (proj1 (proj2 (generateCrashMultiplier_branch_ranges exampleWorld Hr Hu))
           eq_refl eq_refl).
Defined.

(** ** The percentages of the counters *)

Lemma round_half_up_10_eq m e :
  (-1074 <= e)%Z ->
  JS.round_half_up_10 m e
  = ((20 * (Zpos m * 2 ^ (e + 1074)) + 2 ^ 1074) / 2 ^ 1075)%Z.
Proof.
  intros He.
  pose proof (Rounding.pow2_pos 1074 ltac:(lia)) as P.
  assert (E5 : (2 ^ 1075 = 2 * 2 ^ 1074)%Z)
    by (change 1075%Z with (Z.succ 1074); apply Z.pow_succ_r; lia).
  destruct e as [|q|q]; unfold JS.round_half_up_10.
  - cbn [Z.add]; rewrite E5.
    replace (20 * (Z.pos m * 2 ^ 1074) + 2 ^ 1074)%Z
      with ((2 * (10 * Zpos m * 2 ^ 0) + 1) * 2 ^ 1074)%Z
      by (change (2 ^ 0)%Z with 1%Z; ring).
    rewrite Z.div_mul_cancel_r by lia.
    apply (Z.div_unique_pos _ 2 _ 1); lia.
  - rewrite (Rounding.pow2_split (Zpos q) 1074), E5 by lia.
    replace (20 * (Z.pos m * (2 ^ Z.pos q * 2 ^ 1074)) + 2 ^ 1074)%Z
      with ((2 * (10 * Zpos m * 2 ^ Z.pos q) + 1) * 2 ^ 1074)%Z by ring.
    rewrite Z.div_mul_cancel_r by lia.
    apply (Z.div_unique_pos _ 2 _ 1); lia.
  - set (X := (2 ^ (Z.neg q + 1074))%Z).
    pose proof (Rounding.pow2_pos (Z.neg q + 1074) ltac:(lia)) as PX; fold X in PX.
    pose proof (Rounding.pow2_pos (Zpos q) ltac:(lia)) as PQ.
    assert (E : (2 ^ 1074 = 2 ^ Zpos q * X)%Z).
    { unfold X; rewrite <- Rounding.pow2_split by lia. f_equal; lia. }
    rewrite E5, E.
    rewrite (Rounding.pow2_split (Zpos q) 1) by lia; change (2 ^ 1)%Z with 2%Z.
    replace (20 * (Z.pos m * X) + 2 ^ Z.pos q * X)%Z
      with ((20 * Z.pos m + 2 ^ Z.pos q) * X)%Z by ring.
    replace (2 * (2 ^ Z.pos q * X))%Z with (2 ^ Z.pos q * 2 * X)%Z by ring.
    rewrite Z.div_mul_cancel_r by lia; reflexivity.
Qed.

(** What [toFixed(1)] prints for a number in [[0, 1e21)]. *)
Definition tenthsOf (x : float) : Z :=
  match Prim2SF x with
  | S754_finite _ m e => JS.round_half_up_10 m e
  | _ => 0%Z
  end.

Lemma toFixed1_digits x :
  (0 <=? x) = true -> (x <? 1e21) = true ->
  JS.toFixed1 x = JS.Fixed1Digits false (tenthsOf x).
Proof.
  intros H0 Hx.
  pose proof (FloatMono.nonneg_of_bounds x H0
                (FloatOrder.ltb_trans x 1e21 infinity Hx eq_refl)) as N.
  unfold JS.toFixed1, tenthsOf.
  assert (Hb : (1e21 <=? abs x) = false).
  { rewrite leb_spec, abs_spec; rewrite ltb_spec in Hx.
    destruct (Prim2SF x) as [s| | |[|] m e]; try discriminate; try reflexivity.
    cbn [SFabs].
    destruct (SFleb (Prim2SF 1e21) (S754_finite false m e)) eqn:E; [|reflexivity].
    pose proof (FloatOrder.SFleb_ltb_trans _ _ _ E Hx) as F; discriminate F. }
  destruct (Prim2SF x) as [s| | |[|] m e]; try discriminate.
  - reflexivity.
  - rewrite Hb; reflexivity.
Qed.

Lemma tenthsOf_mono x y :
  (0 <=? x) = true -> (x <=? y) = true -> (y <? infinity) = true ->
  (0 <= tenthsOf x <= tenthsOf y)%Z.
Proof.
  intros H0 Hxy Hy.
  pose proof (FloatMono.nonneg_of_bounds x H0 (FloatOrder.leb_ltb_trans _ _ _ Hxy Hy)) as Nx.
  pose proof (FloatMono.nonneg_of_bounds y (FloatOrder.leb_trans _ _ _ H0 Hxy) Hy) as Ny.
  pose proof (Prim2SF_valid x) as Vx; pose proof (Prim2SF_valid y) as Vy.
  rewrite leb_spec in Hxy.
  assert (Fx : Rounding.is_finite_SF (Prim2SF x) = true)
    by (destruct (Prim2SF x) as [| | |[|]]; try discriminate; reflexivity).
  assert (Fy : Rounding.is_finite_SF (Prim2SF y) = true)
    by (destruct (Prim2SF y) as [| | |[|]]; try discriminate; reflexivity).
  pose proof (Rounding.SFleb_Zv _ _ Vx Vy Fx Fy Hxy) as Hv.
  pose proof (Rounding.pow2_pos 1074 ltac:(lia)) as P4.
  pose proof (Rounding.pow2_pos 1075 ltac:(lia)) as P5.
  unfold tenthsOf.
  destruct (Prim2SF x) as [sx| | |[|] mx ex]; try discriminate;
    destruct (Prim2SF y) as [sy| | |[|] my ey]; try discriminate; cbn [Rounding.Zv] in Hv.
  - lia.
  - apply Rounding.valid_canonical in Vy; destruct Vy as [Cy _].
    destruct (Rounding.canonical_cases _ _ Cy) as [Ly _].
    split; [lia|].
    rewrite round_half_up_10_eq by exact Ly.
    apply Z.div_pos; lia.
  - apply Rounding.valid_canonical in Vx, Vy; destruct Vx as [Cx _], Vy as [Cy _].
    destruct (Rounding.canonical_cases _ _ Cx) as [Lx _].
    destruct (Rounding.canonical_cases _ _ Cy) as [Ly _].
    rewrite !round_half_up_10_eq by assumption.
    pose proof (Rounding.Zv_pos_finite _ _ Cx) as Px.
    split; [apply Z.div_pos; lia | apply Z.div_le_mono; lia].
Qed.

(** The number whose [toFixed(1)] the page prints. *)
Definition ratio100 (count total : nat) : float :=
  (JS.of_length count / JS.of_length total) * 100.

(** The smallest and the largest share that is not 0 or all, for every total up
    to 100. *)
Definition shareCheck (n : nat) : bool :=
  let nf := JS.of_length n in
  let q1 := JS.of_length 1 / nf in
  let q2 := JS.of_length (n - 1) / nf in
  (JS.of_length (n - 1) <=? nf) && (nf <? infinity)
  && (0 <=? q1) && (q2 <? infinity)
  && (0 <=? ratio100 0 n) && (ratio100 0 n <? 1e21)
  && (0 <=? ratio100 1 n) && (ratio100 (n - 1) n <? 1e21)
  && (0 <=? ratio100 n n) && (ratio100 n n <? 1e21)
  && Z.eqb (tenthsOf (ratio100 0 n)) 0
  && Z.eqb (tenthsOf (ratio100 n n)) 1000
  && ((n <=? 1)%nat
      || ((1 <=? tenthsOf (ratio100 1 n))%Z && (tenthsOf (ratio100 (n - 1) n) <=? 999)%Z)).

Lemma shareCheck_ok : forallb shareCheck (seq 1 100) = true.
Proof. vm_compute; reflexivity. Qed.


Lemma lengthsGrow :
  Forall (fun n => (JS.of_length n <=? JS.of_length n) = true /\
                   (JS.of_length n <=? JS.of_length (S n)) = true) (seq 0 100).
Proof. repeat constructor. Qed.

Lemma of_length_mono a b :
  (a <= b < 100)%nat -> (JS.of_length a <=? JS.of_length b) = true.
Proof.
  intros [Hab Hb]; induction Hab as [|b Hab IH].
  - apply (proj1 (Forall_forall _ _) lengthsGrow a), in_seq; lia.
  - apply FloatOrder.leb_trans with (JS.of_length b); [apply IH; lia|].
    apply (proj1 (Forall_forall _ _) lengthsGrow b), in_seq; lia.
Qed.

(** What the page prints for [count] out of [total]: the tenths of a percent
    [d], between 0.0 and 100.0, 0.0 for none only and 100.0 for all only. *)
Definition shownShare (count total : nat) : Prop :=
  exists d, percentage count total = JS.Fixed1Digits false d /\
            (0 <= d <= 1000)%Z /\ (d = 0%Z <-> count = 0%nat) /\
            (d = 1000%Z <-> count = total).

Lemma percentage_spec count total :
  (1 <= total <= 100)%nat -> (count <= total)%nat -> shownShare count total.
Proof.
  intros Hn Hc.
  pose proof (proj1 (forallb_forall shareCheck (seq 1 100)) shareCheck_ok total
                ltac:(apply in_seq; lia)) as H.
  unfold shareCheck in H; cbv zeta in H.
  repeat (apply andb_prop in H; destruct H as [H ?]).
  repeat match goal with E : Z.eqb _ _ = true |- _ => apply Z.eqb_eq in E end.
  unfold shownShare, percentage; fold (ratio100 count total).
  destruct (Nat.eq_dec count 0) as [->|C0];
    [|destruct (Nat.eq_dec count total) as [->|Cn]].
  - exists 0%Z; rewrite toFixed1_digits by assumption.
    split; [congruence | split; [lia | split; [tauto | split; [lia | intros <-; lia]]]].
  - exists 1000%Z; rewrite toFixed1_digits by assumption.
    split; [congruence | split; [lia | split; [split; [lia | congruence] | tauto]]].
  - assert (Htwo : (2 <= total)%nat) by lia.
    match goal with
    | E : (_ || _)%bool = true |- _ => apply orb_prop in E; destruct E as [Es|Eb]
    end; [apply Nat.leb_le in Es; lia|].
    apply andb_prop in Eb; destruct Eb as [T1 T2].
    apply Z.leb_le in T1, T2.
    destruct (of_length_positive total Hn) as [Pn0 Pn].
    destruct (of_length_positive count ltac:(lia)) as [Pc0 Pc].
    destruct (of_length_positive (total - 1) ltac:(lia)) as [Pm0 Pm].
    set (nf := JS.of_length total) in *.
    (* the quotients, then the products, are ordered *)
    assert (Q1 : (JS.of_length 1 / nf <=? JS.of_length count / nf) = true).
    { apply FloatDiv.div_mono; try assumption; [reflexivity|].
      apply of_length_mono; lia. }
    assert (Q2 : (JS.of_length count / nf <=? JS.of_length (total - 1) / nf) = true).
    { apply FloatDiv.div_mono; try assumption; [apply ltb_leb; exact Pc0|].
      apply of_length_mono; lia. }
    assert (F2 : (JS.of_length (total - 1) / nf <? infinity) = true) by assumption.
    assert (Z1 : (0 <=? JS.of_length 1 / nf) = true) by assumption.
    assert (R1 : (ratio100 1 total <=? ratio100 count total) = true).
    { unfold ratio100; fold nf.
      exact (FloatMono.mul_mono _ _ 100 Z1 Q1 (FloatOrder.leb_ltb_trans _ _ _ Q2 F2)
               eq_refl eq_refl). }
    assert (R2 : (ratio100 count total <=? ratio100 (total - 1) total) = true).
    { unfold ratio100; fold nf.
      exact (FloatMono.mul_mono _ _ 100 (FloatOrder.leb_trans _ _ _ Z1 Q1) Q2 F2
               eq_refl eq_refl). }
    assert (A1 : (0 <=? ratio100 1 total) = true) by assumption.
    assert (A2 : (ratio100 (total - 1) total <? 1e21) = true) by assumption.
    assert (B0 : (0 <=? ratio100 count total) = true)
      by exact (FloatOrder.leb_trans _ _ _ A1 R1).
    assert (B1 : (ratio100 count total <? 1e21) = true)
      by exact (FloatOrder.leb_ltb_trans _ _ _ R2 A2).
    pose proof (tenthsOf_mono _ _ A1 R1
                  (FloatOrder.ltb_trans _ 1e21 infinity B1 eq_refl)) as M1.
    pose proof (tenthsOf_mono _ _ B0 R2
                  (FloatOrder.ltb_trans _ 1e21 infinity A2 eq_refl)) as M2.
    exists (tenthsOf (ratio100 count total)); rewrite toFixed1_digits by assumption.
    split; [reflexivity | split; [lia | split; split; intros; lia]].
Qed.

Lemma countWhere_le_length p h : (countWhere p h <= length h)%nat.
Proof.
  induction h as [|c h IH]; [reflexivity|].
  rewrite countWhere_cons; cbn [length]; destruct (p c); lia.
Qed.

(** The shares the page prints next to the three counters lie between 0.0 and
    100.0 percent; 0.0 is printed for a counter that is 0 only, 100.0 for one
    that counts every outcome only.  Each being rounded on its own, the shares
    of disjoint counters can add up to more than 100.0: 1 and 15 outcomes of 16
    are printed as 6.3 and 93.8. *)
Theorem percentages_in_range (h : list CrashPoint) (s : Statistics) :
  calculateStatistics h = Some s -> (length h <= 100)%nat ->
  (shownShare (crashesBelow2x s) (length h) /\
   shownShare (crashesAbove5x s) (length h) /\
   shownShare (crashesAbove10x s) (length h)) /\
  (percentage 1 16 = JS.Fixed1Digits false 63 /\
   percentage 15 16 = JS.Fixed1Digits false 938).
Proof.
  intros Hs Hlen.
  destruct (calculateStatistics_counters h s Hs) as [E2 [E5 E10]].
  assert (Hn : (1 <= length h <= 100)%nat).
  { split; [|exact Hlen].
    destruct h; [discriminate Hs | cbn; lia]. }
  split; [|split; reflexivity].
  rewrite E2, E5, E10.
  repeat split; apply percentage_spec; try exact Hn; apply countWhere_le_length.
Qed.

Lemma percentages_in_range_witness :
  exists s, calculateStatistics (map mk [1.2; 2.0; 7.5; 10.0]) = Some s /\
    shownShare (crashesBelow2x s) 4 /\ crashesBelow2x s = 1%nat /\
    percentage 1 4 = JS.Fixed1Digits false 250.
Proof.
  eexists; split; [reflexivity|].
  split; [|split; reflexivity].
  apply (percentages_in_range (map mk [1.2; 2.0; 7.5; 10.0]) _ eq_refl); cbn; lia.
Defined.
